(** * TopLang: lexer, parser and code generator

    A shallow embedding of the TopLang compiler ([src/lexer.cpp],
    [src/parser.cpp], [src/codegen.cpp], driven as in [src/main.cpp]) and
    the properties of its specification that can be stated over it.

    Conventions.
    - [std::string] is [string]; a [char] is an [ascii]; the sentinel the
      lexer uses for "no more input" is the NUL character, as in the source.
      The [<cctype>] tests are those of the "C" locale, false on every byte
      above 127.
    - [int] line and column counters are [Z]; indices into vectors and
      strings are [nat].  Sources longer than [INT_MAX] bytes are outside
      the model.
    - Every [while] loop of the lexer consumes one character per turn; the
      loops are written with a fuel argument whose initial value is the
      number of characters left, and the totality lemmas show that this
      fuel is never exhausted.
    - The parser is a state-and-exception monad over the token cursor; its
      mutually recursive routines take fuel, and running out of it is an
      outcome of its own, apart from returning and from throwing.
    - The code generator is a state monad over what it builds and keeps;
      the one way it fails is the dereference of a null pointer.  LLVM is
      not part of the program: the model keeps of it what the generator
      reads back, and takes the names LLVM gives as a parameter. *)

From Stdlib Require Import ZArith QArith Ascii Lia Bool.
From Stdlib Require String.
From stdpp Require Import base option list strings gmap.

Local Open Scope Z_scope.

(** ** token.h *)

Inductive TokenType :=
  (* keywords *)
  | FUNCTION | RETURN | IF | ELSE | WHILE | FOR | VARIABLE | CONSTANT | PRINT
  (* operators *)
  | PLUS | MINUS | MULTIPLY | DIVIDE | ASSIGN | EQUALS | NOT_EQUALS
  | GREATER | LESS
  (* delimiters *)
  | LEFT_BRACE | RIGHT_BRACE | LEFT_PAREN | RIGHT_PAREN | COMMA
  (* others *)
  | IDENTIFIER | NUMBER | STRING | COMMENT | EOL | END_OF_FILE | UNKNOWN.

#[global] Instance TokenType_eq_dec : EqDecision TokenType.
Proof. solve_decision. Defined.

Module Token.
Record t := mk { type : TokenType; value : string; line : Z; column : Z }.
End Token.

#[global] Instance Token_eq_dec : EqDecision Token.t.
Proof. solve_decision. Defined.

Abbreviation Token := Token.t.
Abbreviation TokenList := (list Token.t).

(** ** Characters: the [<cctype>] predicates in the "C" locale *)

Definition NUL : ascii := "000"%char.
Definition LF : ascii := "010"%char.
Definition QUOTE : ascii := "034"%char.

Definition code (c : ascii) : nat := nat_of_ascii c.

Definition isspace (c : ascii) : bool :=
  (* space, \t \n \v \f \r *)
  (code c =? 32)%nat || ((9 <=? code c)%nat && (code c <=? 13)%nat).

Definition isdigit (c : ascii) : bool :=
  (48 <=? code c)%nat && (code c <=? 57)%nat.

Definition isalpha (c : ascii) : bool :=
  ((65 <=? code c)%nat && (code c <=? 90)%nat)
  || ((97 <=? code c)%nat && (code c <=? 122)%nat).

Definition isalnum (c : ascii) : bool := isalpha c || isdigit c.

(** [std::string(1, c)] *)
Definition string1 (c : ascii) : string := String c "".

(** The input from index [n] on. *)
Fixpoint string_drop (n : nat) (s : string) : string :=
  match n, s with
  | O, _ => s
  | S n', String _ s' => string_drop n' s'
  | S _, EmptyString => EmptyString
  end.

(** The characters of [s] before the first one that [stop] accepts, and the
    rest of [s] from that character on. *)
Fixpoint before (stop : ascii → bool) (s : string) : string :=
  match s with
  | EmptyString => EmptyString
  | String c s' => if stop c then EmptyString else String c (before stop s')
  end.

Fixpoint from (stop : ascii → bool) (s : string) : string :=
  match s with
  | EmptyString => EmptyString
  | String c s' => if stop c then s else from stop s'
  end.

Fixpoint occurs (c : ascii) (s : string) : bool :=
  match s with
  | EmptyString => false
  | String c' s' => Ascii.eqb c' c || occurs c s'
  end.

Definition isNUL (c : ascii) : bool := Ascii.eqb c NUL.

(** ** lexer.cpp *)

Module Lexer.

Record t := mk {
  source : string;
  position : nat;
  line : Z;
  column : Z;
  currentChar : ascii
}.

(** The keyword table filled by the constructor. *)
Definition keywords : gmap string TokenType :=
  list_to_map
    [ ("function", FUNCTION); ("return", RETURN); ("if", IF);
      ("else", ELSE); ("while", WHILE); ("for", FOR); ("var", VARIABLE);
      ("const", CONSTANT); ("print", PRINT); ("plus", PLUS);
      ("minus", MINUS); ("times", MULTIPLY); ("divided", DIVIDE);
      ("is", ASSIGN); ("equals", EQUALS); ("not", NOT_EQUALS);
      ("greater", GREATER); ("less", LESS) ].
#[global] Arguments keywords : simpl never.

(** [Lexer::Lexer(src)] *)
Definition new (src : string) : t :=
  {| source := src; position := 0; line := 1; column := 1;
     currentChar := default NUL (String.get 0 src) |}.

(** [Lexer::advance]: the bounds test [position < source.length()] is
    [String.get] answering [Some]. *)
Definition advance (lx : t) : t :=
  let position' := S (position lx) in
  match String.get position' (source lx) with
  | Some c =>
      let column' := column lx + 1 in
      if Ascii.eqb c LF
      then {| source := source lx; position := position';
              line := line lx + 1; column := 1; currentChar := c |}
      else {| source := source lx; position := position';
              line := line lx; column := column'; currentChar := c |}
  | None =>
      {| source := source lx; position := position';
         line := line lx; column := column lx; currentChar := NUL |}
  end.

(** Characters left before the end of the input. *)
Definition remaining (lx : t) : nat :=
  (String.length (source lx) - position lx)%nat.

(** The loop shape shared by every scanner of the lexer:
    [while (currentChar != '\0' && p(currentChar))
       { result += currentChar; advance(); }] *)
Fixpoint scan (p : ascii -> bool) (fuel : nat) (lx : t) (result : string)
  : option (t * string) :=
  if negb (Ascii.eqb (currentChar lx) NUL) && p (currentChar lx) then
    match fuel with
    | O => None
    | S fuel' =>
        scan p fuel' (advance lx) (result +:+ string1 (currentChar lx))
    end
  else Some (lx, result).

(** [Lexer::skipWhitespace] *)
Definition skipWhitespace (lx : t) : option t :=
  fst <$> scan isspace (remaining lx) lx "".

(** [Lexer::identifier] *)
Definition identifier (lx : t) : option (t * Token) :=
  let startColumn := column lx in
  '(lx', result) ←
    scan (λ c, isalnum c || Ascii.eqb c "_") (remaining lx) lx "";
  match keywords !! result with
  | Some kw => Some (lx', Token.mk kw result (line lx') startColumn)
  | None => Some (lx', Token.mk IDENTIFIER result (line lx') startColumn)
  end.

(** [Lexer::number] *)
Definition number (lx : t) : option (t * Token) :=
  let startColumn := column lx in
  '(lx1, result1) ← scan isdigit (remaining lx) lx "";
  '(lx2, result2) ←
    (if Ascii.eqb (currentChar lx1) "."
     then
       let result := result1 +:+ string1 (currentChar lx1) in
       let lx1' := advance lx1 in
       scan isdigit (remaining lx1') lx1' result
     else Some (lx1, result1));
  Some (lx2, Token.mk NUMBER result2 (line lx2) startColumn).

(** [Lexer::string] *)
Definition string (lx : t) : option (t * Token) :=
  let startColumn := column lx in
  let lx0 := advance lx in
  '(lx1, result) ←
    scan (λ c, negb (Ascii.eqb c QUOTE)) (remaining lx0) lx0 "";
  let lx2 := if Ascii.eqb (currentChar lx1) QUOTE then advance lx1 else lx1 in
  Some (lx2, Token.mk STRING result (line lx2) startColumn).

(** [Lexer::skipComment] *)
Definition skipComment (lx : t) : option t :=
  fst <$> scan (λ c, negb (Ascii.eqb c LF)) (remaining lx) lx "".

(** A one-character token at the cursor, then [advance()]. *)
Definition punct (ty : TokenType) (lexeme : String.string) (lx : t)
  : option (t * TokenList) :=
  Some (advance lx, [Token.mk ty lexeme (line lx) (column lx)]).

(** One turn of the [while] loop of [Lexer::tokenize], entered with
    [currentChar != '\0']: the lexer after the turn and the tokens it
    pushed. *)
Definition tokenizeStep (lx : t) : option (t * TokenList) :=
  let c := currentChar lx in
  if isspace c then
    lx' ← skipWhitespace lx; Some (lx', [])
  else if isalpha c || Ascii.eqb c "_" then
    '(lx', tok) ← identifier lx; Some (lx', [tok])
  else if isdigit c then
    '(lx', tok) ← number lx; Some (lx', [tok])
  else if Ascii.eqb c "{" then punct LEFT_BRACE "{" lx
  else if Ascii.eqb c "}" then punct RIGHT_BRACE "}" lx
  else if Ascii.eqb c "(" then punct LEFT_PAREN "(" lx
  else if Ascii.eqb c ")" then punct RIGHT_PAREN ")" lx
  else if Ascii.eqb c "," then punct COMMA "," lx
  else if Ascii.eqb c QUOTE then
    '(lx', tok) ← string lx; Some (lx', [tok])
  else if Ascii.eqb c "#" then
    lx' ← skipComment lx; Some (lx', [])
  else if Ascii.eqb c LF then punct EOL (string1 LF) lx
  else punct UNKNOWN (string1 c) lx.

(** The [while (currentChar != '\0')] loop of [Lexer::tokenize]. *)
Fixpoint tokenizeLoop (fuel : nat) (lx : t) (tokens : TokenList)
  : option (t * TokenList) :=
  if Ascii.eqb (currentChar lx) NUL then Some (lx, tokens)
  else
    match fuel with
    | O => None
    | S fuel' =>
        '(lx', pushed) ← tokenizeStep lx;
        tokenizeLoop fuel' lx' (tokens ++ pushed)
    end.

(** [Lexer::tokenize], on the lexer as constructed. *)
Definition tokenizeFrom (lx : t) : option TokenList :=
  '(lx', tokens) ← tokenizeLoop (remaining lx) lx [];
  Some (tokens ++ [Token.mk END_OF_FILE "" (line lx') (column lx')]).

(** [reaches src lx tokens]: on input [src], the loop of [tokenize] tests
    its condition with the lexer in state [lx] and [tokens] pushed so
    far. *)
Inductive reaches (src : String.string) : t → TokenList → Prop :=
  | reaches_start : reaches src (new src) []
  | reaches_turn lx tokens lx' pushed :
      reaches src lx tokens →
      Ascii.eqb (currentChar lx) NUL = false →
      tokenizeStep lx = Some (lx', pushed) →
      reaches src lx' (tokens ++ pushed).

End Lexer.

(** [Lexer lexer(source); lexer.tokenize()] *)
Definition tokenize (src : string) : option TokenList :=
  Lexer.tokenizeFrom (Lexer.new src).


(** ** ast.h *)

(** [BinaryOpNode::Op] *)
Inductive Op :=
  Add | Subtract | Multiply | Divide | Assign | Equals | NotEquals
  | Greater | Less.

#[global] Instance Op_eq_dec : EqDecision Op.
Proof. solve_decision. Defined.

(** The node classes.  A [std::unique_ptr] that a visitor tests before use
    is an [option]; a [std::unique_ptr<BlockNode>] is the statement list of
    the block it owns.  The [double] of a number literal is the exact
    rational its lexeme denotes: rounding to binary64 is outside the
    model. *)
#[local] Unset Elimination Schemes.
Inductive Node :=
  | ProgramNode (statements : list Node)
  | BlockNode (statements : list Node)
  | VariableDeclarationNode
      (name : string) (isConstant : bool) (initialValue : option Node)
  | BinaryOpNode (operation : Op) (left right : Node)
  | NumberNode (value : Q)
  | StringNode (value : string)
  | IdentifierNode (name : string)
  | FunctionNode
      (name : string) (parameters : list string) (body : option (list Node))
  | CallNode (callee : string) (arguments : list Node)
  | IfNode (condition : Node) (thenBlock elseBlock : option (list Node))
  | WhileNode (condition : Node) (body : option (list Node))
  | PrintNode (expression : option Node)
  | ReturnNode (value : option Node).
#[local] Set Elimination Schemes.

(** Induction over the tree, through the statement lists and the optional
    children. *)
Section Node_ind.
Variable P : Node → Prop.
Hypothesis case_program : ∀ statements, Forall P statements →
  P (ProgramNode statements).
Hypothesis case_block : ∀ statements, Forall P statements →
  P (BlockNode statements).
Hypothesis case_variableDeclaration : ∀ name isConstant initialValue,
  from_option P True initialValue →
  P (VariableDeclarationNode name isConstant initialValue).
Hypothesis case_binaryOp : ∀ operation l r, P l → P r →
  P (BinaryOpNode operation l r).
Hypothesis case_number : ∀ value, P (NumberNode value).
Hypothesis case_string : ∀ value, P (StringNode value).
Hypothesis case_identifier : ∀ name, P (IdentifierNode name).
Hypothesis case_function : ∀ name parameters body,
  from_option (Forall P) True body → P (FunctionNode name parameters body).
Hypothesis case_call : ∀ callee arguments, Forall P arguments →
  P (CallNode callee arguments).
Hypothesis case_ifNode : ∀ condition thenBlock elseBlock,
  P condition → from_option (Forall P) True thenBlock →
  from_option (Forall P) True elseBlock →
  P (IfNode condition thenBlock elseBlock).
Hypothesis case_while : ∀ condition body,
  P condition → from_option (Forall P) True body →
  P (WhileNode condition body).
Hypothesis case_print : ∀ expression, from_option P True expression →
  P (PrintNode expression).
Hypothesis case_ret : ∀ value, from_option P True value → P (ReturnNode value).

Fixpoint Node_ind (node : Node) : P node :=
  let each := fix each (nodes : list Node) : Forall P nodes :=
    match nodes with
    | [] => @List.Forall_nil Node P
    | n :: rest => @List.Forall_cons Node P n rest (Node_ind n) (each rest)
    end in
  let optional (o : option Node) : from_option P True o :=
    match o with Some n => Node_ind n | None => I end in
  let optionalBlock (o : option (list Node)) : from_option (Forall P) True o :=
    match o with Some nodes => each nodes | None => I end in
  match node with
  | ProgramNode statements => case_program statements (each statements)
  | BlockNode statements => case_block statements (each statements)
  | VariableDeclarationNode name isConstant initialValue =>
      case_variableDeclaration name isConstant initialValue (optional initialValue)
  | BinaryOpNode operation l r =>
      case_binaryOp operation l r (Node_ind l) (Node_ind r)
  | NumberNode value => case_number value
  | StringNode value => case_string value
  | IdentifierNode name => case_identifier name
  | FunctionNode name parameters body =>
      case_function name parameters body (optionalBlock body)
  | CallNode callee arguments => case_call callee arguments (each arguments)
  | IfNode condition thenBlock elseBlock =>
      case_ifNode condition thenBlock elseBlock (Node_ind condition)
        (optionalBlock thenBlock) (optionalBlock elseBlock)
  | WhileNode condition body =>
      case_while condition body (Node_ind condition) (optionalBlock body)
  | PrintNode expression => case_print expression (optional expression)
  | ReturnNode value => case_ret value (optional value)
  end.
End Node_ind.

(** ** parser.cpp *)

(** [std::stod] on the lexemes the lexer gives [NUMBER] tokens: digits,
    then optionally a point and digits.  [None] is the
    [std::invalid_argument] thrown when the text does not start with a
    digit.  The value is exact; [std::out_of_range] for literals beyond the
    range of [double] is outside the model. *)
Fixpoint digits (s : string) (acc : N) (count : nat) : N * nat * string :=
  match s with
  | String c s' =>
      if isdigit c
      then digits s' (10 * acc + (N.of_nat (code c) - 48))%N (S count)
      else (acc, count, s)
  | EmptyString => (acc, count, s)
  end.

Fixpoint pow10 (k : nat) : positive :=
  match k with O => 1%positive | S k' => (10 * pow10 k')%positive end.

Definition stod (s : string) : option Q :=
  let '(whole, n, rest) := digits s 0%N O in
  if (n =? 0)%nat then None
  else
    match rest with
    | String "." frac =>
        let '(all, k, _) := digits frac whole O in
        Some (Qred (Z.of_N all # pow10 k))
    | _ => Some (Z.of_N whole # 1)
    end.

Module Parser.

Record t := mk { tokens : TokenList; position : nat }.

(** What a parsing routine ends with: a value, a C++ exception (its
    [what()]), or the fuel of this model running out. *)
Inductive Result (A : Type) :=
  | Ok (a : A)
  | Throw (what : string)
  | OutOfFuel.
#[global] Arguments Ok {A} a.
#[global] Arguments Throw {A} what.
#[global] Arguments OutOfFuel {A}.

(** A member function: it may move [position], also when it throws. *)
Definition M (A : Type) : Type := t → Result A * t.

#[global] Instance M_ret : MRet M := λ A a p, (Ok a, p).
#[global] Instance M_bind : MBind M := λ A B k m p,
  match m p with
  | (Ok a, p') => k a p'
  | (Throw what, p') => (Throw what, p')
  | (OutOfFuel, p') => (OutOfFuel, p')
  end.

Definition throw {A} (what : string) : M A := λ p, (Throw what, p).
Definition outOfFuel {A} : M A := λ p, (OutOfFuel, p).

(** [Parser::currentToken] *)
Definition currentToken : M Token := λ p,
  (Ok (default (Token.mk END_OF_FILE "" 0 0) (tokens p !! position p)), p).

(** [Parser::advance] *)
Definition advance : M unit := λ p,
  (Ok tt, {| tokens := tokens p; position := S (position p) |}).

Definition typeIs (ty : TokenType) (tok : Token) : bool :=
  bool_decide (Token.type tok = ty).

(** [while (p(currentToken())) advance();] over the tokens left. *)
Fixpoint advanceWhile (cond : Token → bool) (fuel : nat) : M unit :=
  tok ← currentToken;
  if cond tok then
    match fuel with
    | O => outOfFuel
    | S fuel' => advance;; advanceWhile cond fuel'
    end
  else mret tt.

Definition tokensLeft : M nat := λ p,
  (Ok (length (tokens p) - position p)%nat, p).

(** [dynamic_cast<BlockNode*>] *)
Definition asBlock (node : Node) : option (list Node) :=
  match node with BlockNode statements => Some statements | _ => None end.

(** The operators of the loops of [parseExpression], [parseTerm] and
    [parseFactor]. *)
Definition expressionOp (ty : TokenType) : option Op :=
  match ty with
  | ASSIGN => Some Assign
  | EQUALS => Some Equals
  | NOT_EQUALS => Some NotEquals
  | GREATER => Some Greater
  | LESS => Some Less
  | _ => None
  end.

Definition termOp (ty : TokenType) : option Op :=
  match ty with
  | PLUS => Some Add
  | MINUS => Some Subtract
  | _ => None
  end.

Definition factorOp (ty : TokenType) : option Op :=
  match ty with
  | MULTIPLY => Some Multiply
  | DIVIDE => Some Divide
  | _ => None
  end.

(** The parameter list of [parseFunction] after its first name:
    [while (type == COMMA) { advance(); expect IDENTIFIER; push; advance(); }] *)
Fixpoint parseParameters (fuel : nat) (parameters : list string)
  : M (list string) :=
  tok ← currentToken;
  if typeIs COMMA tok then
    match fuel with
    | O => outOfFuel
    | S fuel' =>
        advance;;
        tok' ← currentToken;
        if negb (typeIs IDENTIFIER tok')
        then throw "Expected parameter name after comma"
        else advance;;
             parseParameters fuel' (parameters ++ [Token.value tok'])
    end
  else mret parameters.

(** The routines that call each other; each call and each turn of a loop
    takes one unit of [fuel]. *)
#[local] Set Warnings "-non-full-mutual".
Fixpoint parseStatement (fuel : nat) : M (option Node) :=
  match fuel with
  | O => outOfFuel
  | S fuel =>
      (* skip empty lines *)
      n ← tokensLeft;
      advanceWhile (typeIs EOL) n;;
      tok ← currentToken;
      if typeIs END_OF_FILE tok then mret None
      else
        match Token.type tok with
        | FUNCTION => node ← parseFunction fuel; mret (Some node)
        | VARIABLE | CONSTANT =>
            node ← parseVariableDeclaration fuel; mret (Some node)
        | IF => node ← parseIfStatement fuel; mret (Some node)
        | WHILE => node ← parseWhileLoop fuel; mret (Some node)
        | PRINT => node ← parsePrintStatement fuel; mret (Some node)
        | RETURN =>
            advance;;
            returnValue ← parseExpression fuel;
            mret (Some (ReturnNode (Some returnValue)))
        | LEFT_BRACE => node ← parseBlock fuel; mret (Some node)
        | _ => expr ← parseExpression fuel; mret (Some expr)
        end
  end

with parseBlock (fuel : nat) : M Node :=
  match fuel with
  | O => outOfFuel
  | S fuel =>
      tok ← currentToken;
      if negb (typeIs LEFT_BRACE tok)
      then throw "Expected '{' at the beginning of a block"
      else
        advance;;
        statements ← parseBlockLoop fuel [];
        tok' ← currentToken;
        if negb (typeIs RIGHT_BRACE tok')
        then throw "Expected '}' at the end of a block"
        else advance;; mret (BlockNode statements)
  end

with parseBlockLoop (fuel : nat) (statements : list Node) : M (list Node) :=
  match fuel with
  | O => outOfFuel
  | S fuel =>
      tok ← currentToken;
      if negb (typeIs RIGHT_BRACE tok) && negb (typeIs END_OF_FILE tok) then
        statement ← parseStatement fuel;
        parseBlockLoop fuel
          (match statement with
           | Some node => statements ++ [node]
           | None => statements
           end)
      else mret statements
  end

with parseVariableDeclaration (fuel : nat) : M Node :=
  match fuel with
  | O => outOfFuel
  | S fuel =>
      tok ← currentToken;
      let isConstant := typeIs CONSTANT tok in
      advance;;
      tok1 ← currentToken;
      if negb (typeIs IDENTIFIER tok1)
      then throw "Expected identifier after 'var' or 'const'"
      else
        let varName := Token.value tok1 in
        advance;;
        tok2 ← currentToken;
        if negb (typeIs ASSIGN tok2)
        then throw "Expected 'is' after variable name"
        else
          advance;;
          initialValue ← parseExpression fuel;
          mret (VariableDeclarationNode varName isConstant
                  (Some initialValue))
  end

with parseExpression (fuel : nat) : M Node :=
  match fuel with
  | O => outOfFuel
  | S fuel => left ← parseTerm fuel; parseExpressionLoop fuel left
  end

with parseExpressionLoop (fuel : nat) (left : Node) : M Node :=
  match fuel with
  | O => outOfFuel
  | S fuel =>
      tok ← currentToken;
      match expressionOp (Token.type tok) with
      | Some op =>
          advance;;
          (* "than" after "greater" and "less" *)
          tok' ← currentToken;
          (if bool_decide (op = Greater ∨ op = Less)
              && typeIs IDENTIFIER tok'
              && bool_decide (Token.value tok' = "than")
           then advance else mret tt);;
          right ← parseTerm fuel;
          parseExpressionLoop fuel (BinaryOpNode op left right)
      | None => mret left
      end
  end

with parseTerm (fuel : nat) : M Node :=
  match fuel with
  | O => outOfFuel
  | S fuel => left ← parseFactor fuel; parseTermLoop fuel left
  end

with parseTermLoop (fuel : nat) (left : Node) : M Node :=
  match fuel with
  | O => outOfFuel
  | S fuel =>
      tok ← currentToken;
      match termOp (Token.type tok) with
      | Some op =>
          advance;;
          right ← parseFactor fuel;
          parseTermLoop fuel (BinaryOpNode op left right)
      | None => mret left
      end
  end

with parseFactor (fuel : nat) : M Node :=
  match fuel with
  | O => outOfFuel
  | S fuel => left ← parsePrimary fuel; parseFactorLoop fuel left
  end

with parseFactorLoop (fuel : nat) (left : Node) : M Node :=
  match fuel with
  | O => outOfFuel
  | S fuel =>
      tok ← currentToken;
      match factorOp (Token.type tok) with
      | Some op =>
          advance;;
          (* "by" after "divided" *)
          tok' ← currentToken;
          (if bool_decide (op = Divide)
              && typeIs IDENTIFIER tok'
              && bool_decide (Token.value tok' = "by")
           then advance else mret tt);;
          right ← parsePrimary fuel;
          parseFactorLoop fuel (BinaryOpNode op left right)
      | None => mret left
      end
  end

with parsePrimary (fuel : nat) : M Node :=
  match fuel with
  | O => outOfFuel
  | S fuel =>
      tok ← currentToken;
      match Token.type tok with
      | NUMBER =>
          match stod (Token.value tok) with
          | Some value => advance;; mret (NumberNode value)
          | None => throw "stod"
          end
      | STRING => advance;; mret (StringNode (Token.value tok))
      | IDENTIFIER =>
          let name := Token.value tok in
          advance;;
          tok1 ← currentToken;
          if typeIs LEFT_PAREN tok1 then
            advance;;
            tok2 ← currentToken;
            args ← (if negb (typeIs RIGHT_PAREN tok2)
                    then first ← parseExpression fuel;
                         parseArguments fuel [first]
                    else mret []);
            tok3 ← currentToken;
            if negb (typeIs RIGHT_PAREN tok3)
            then throw "Expected ')' after function arguments"
            else advance;; mret (CallNode name args)
          else mret (IdentifierNode name)
      | LEFT_PAREN =>
          advance;;
          expr ← parseExpression fuel;
          tok1 ← currentToken;
          if negb (typeIs RIGHT_PAREN tok1)
          then throw "Expected ')'"
          else advance;; mret expr
      | _ => throw ("Unexpected token: " +:+ Token.value tok)
      end
  end

with parseArguments (fuel : nat) (args : list Node) : M (list Node) :=
  match fuel with
  | O => outOfFuel
  | S fuel =>
      tok ← currentToken;
      if typeIs COMMA tok then
        advance;;
        arg ← parseExpression fuel;
        parseArguments fuel (args ++ [arg])
      else mret args
  end

with parseFunction (fuel : nat) : M Node :=
  match fuel with
  | O => outOfFuel
  | S fuel =>
      advance;;
      tok ← currentToken;
      if negb (typeIs IDENTIFIER tok) then throw "Expected function name"
      else
        let name := Token.value tok in
        advance;;
        tok1 ← currentToken;
        if negb (typeIs LEFT_PAREN tok1)
        then throw "Expected '(' after function name"
        else
          advance;;
          tok2 ← currentToken;
          parameters ←
            (if negb (typeIs RIGHT_PAREN tok2) then
               if negb (typeIs IDENTIFIER tok2)
               then throw "Expected parameter name"
               else advance;;
                    n ← tokensLeft;
                    parseParameters n [Token.value tok2]
             else mret []);
          tok3 ← currentToken;
          if negb (typeIs RIGHT_PAREN tok3)
          then throw "Expected ')' after parameters"
          else
            advance;;
            block ← parseBlock fuel;
            match asBlock block with
            | None => throw "Expected function body"
            | Some body => mret (FunctionNode name parameters (Some body))
            end
  end

with parseIfStatement (fuel : nat) : M Node :=
  match fuel with
  | O => outOfFuel
  | S fuel =>
      advance;;
      condition ← parseExpression fuel;
      block ← parseBlock fuel;
      match asBlock block with
      | None => throw "Expected block after if condition"
      | Some thenBlock =>
          tok ← currentToken;
          if typeIs ELSE tok then
            advance;;
            block' ← parseBlock fuel;
            match asBlock block' with
            | None => throw "Expected block after else"
            | Some elseBlock =>
                mret (IfNode condition (Some thenBlock) (Some elseBlock))
            end
          else mret (IfNode condition (Some thenBlock) None)
      end
  end

with parseWhileLoop (fuel : nat) : M Node :=
  match fuel with
  | O => outOfFuel
  | S fuel =>
      advance;;
      condition ← parseExpression fuel;
      block ← parseBlock fuel;
      match asBlock block with
      | None => throw "Expected block after while condition"
      | Some body => mret (WhileNode condition (Some body))
      end
  end

with parsePrintStatement (fuel : nat) : M Node :=
  match fuel with
  | O => outOfFuel
  | S fuel =>
      advance;;
      expr ← parseExpression fuel;
      mret (PrintNode (Some expr))
  end.

(** A line of [std::cerr]:
    [Parser error at line <line>, column <column>: <what>]. *)
Record Diagnostic := diagnostic {
  atLine : Z; atColumn : Z; what : string
}.

(** The fuel [parseProgram] hands to [parseStatement].  [OutOfFuel] is
    an outcome of its own, so a run that ends with [Ok] or [Throw] is a
    run of the code. *)
Definition statementFuel (p : t) : nat :=
  (16 * S (length (tokens p) - position p))%nat.

(** The loop of [Parser::parseProgram], with its [try]/[catch]. *)
Fixpoint parseProgramLoop (turns : nat) (statements : list Node)
    (cerr : list Diagnostic) (p : t)
  : Result (list Node * list Diagnostic) * t :=
  let tok := default (Token.mk END_OF_FILE "" 0 0)
               (tokens p !! position p) in
  if typeIs END_OF_FILE tok then (Ok (statements, cerr), p)
  else
    match turns with
    | O => (OutOfFuel, p)
    | S turns' =>
        match parseStatement (statementFuel p) p with
        | (Ok (Some statement), p') =>
            parseProgramLoop turns' (statements ++ [statement]) cerr p'
        | (Ok None, p') => parseProgramLoop turns' statements cerr p'
        | (Throw e, p') =>
            let here := default (Token.mk END_OF_FILE "" 0 0)
                          (tokens p' !! position p') in
            let report :=
              diagnostic (Token.line here) (Token.column here) e in
            (* skip to the next statement to try to recover *)
            match advanceWhile
                    (λ tok, negb (typeIs EOL tok) && negb (typeIs END_OF_FILE tok))
                    (length (tokens p') - position p') p' with
            | (Ok _, p'') =>
                let here' := default (Token.mk END_OF_FILE "" 0 0)
                               (tokens p'' !! position p'') in
                let p3 := if typeIs EOL here'
                          then {| tokens := tokens p'';
                                  position := S (position p'') |}
                          else p'' in
                parseProgramLoop turns' statements (cerr ++ [report]) p3
            | (Throw e', p'') => (Throw e', p'')
            | (OutOfFuel, p'') => (OutOfFuel, p'')
            end
        | (OutOfFuel, p') => (OutOfFuel, p')
        end
    end.

(** [Parser::parseProgram] *)
Definition parseProgram (p : t)
  : Result (Node * list Diagnostic) * t :=
  match parseProgramLoop (S (length (tokens p) - position p)) [] [] p with
  | (Ok (statements, cerr), p') => (Ok (ProgramNode statements, cerr), p')
  | (Throw e, p') => (Throw e, p')
  | (OutOfFuel, p') => (OutOfFuel, p')
  end.

End Parser.

(** [Parser parser(tokens); parser.parse()]: the program and what was
    written to [std::cerr]. *)
Definition parse (tokens : TokenList)
  : Parser.Result (Node * list Parser.Diagnostic) :=
  fst (Parser.parseProgram (Parser.mk tokens 0)).

(** Lexing then parsing, as [main] does. *)
Definition parseSource (src : string)
  : Parser.Result (Node * list Parser.Diagnostic) :=
  match tokenize src with
  | Some tokens => parse tokens
  | None => Parser.OutOfFuel
  end.

(** ** codegen.cpp *)

(** *** LLVM, as far as the code generator looks at it

    The generator asks an [IRBuilder] for instructions and reads back only
    the type of a value, whether a pointer is null, the insertion block and
    its parent, whether a block ends in a terminator, and the functions of
    the module by name.  The model keeps the requests in the order they are
    made, each with the place the builder gave the instruction:
    - at the end of the insertion block;
    - nowhere, when the builder has no insertion block, when it answered
      with a constant (its constant folder answers a floating-point request
      on two constants of type [double]; a string is a global of the
      module), in which case no instruction enters a block;
    - at the start of a block, for the slot of a variable declaration.
    A folded constant is kept as the request it answers: its binary64
    value is outside the model.  On operands that are not of type [double]
    the builder is the one of an LLVM built without assertions: the
    instruction is made and takes the type of its left operand. *)

Module IR.

Inductive Ty := DoubleTy | Int1Ty | PointerTy | VoidTy.

#[global] Instance Ty_eq_dec : EqDecision Ty.
Proof. solve_decision. Defined.

(** An [llvm::Value*]. *)
Inductive Value :=
  | Null
  | ConstantFP (value : Q)
  | Constant (request : nat) (type : Ty)
  | Argument (function index : nat)
  | Instruction (request : nat) (type : Ty).

(** [v->getType()]; [None] is the dereference of a null pointer. *)
Definition getType (v : Value) : option Ty :=
  match v with
  | Null => None
  | ConstantFP _ => Some DoubleTy
  | Constant _ ty => Some ty
  | Argument _ _ => Some DoubleTy
  | Instruction _ ty => Some ty
  end.

Definition isNull (v : Value) : bool :=
  match v with Null => true | _ => false end.

Definition isConstantDouble (v : Value) : bool :=
  match v with
  | ConstantFP _ | Constant _ DoubleTy => true
  | _ => false
  end.

(** The calls on the builder; functions and blocks are named by their
    index in the module. *)
Inductive Request :=
  | CreateAlloca (name : string)
  | CreateStore (val ptr : Value)
  | CreateLoad (ptr : Value) (name : string)
  | CreateFAdd (l r : Value) (name : string)
  | CreateFSub (l r : Value) (name : string)
  | CreateFMul (l r : Value) (name : string)
  | CreateFDiv (l r : Value) (name : string)
  | CreateFCmpOEQ (l r : Value) (name : string)
  | CreateFCmpONE (l r : Value) (name : string)
  | CreateFCmpOGT (l r : Value) (name : string)
  | CreateFCmpOLT (l r : Value) (name : string)
  | CreateGlobalStringPtr (str name : string)
  | CreateCall (callee : nat) (args : list Value) (name : string)
  | CreateBr (dest : nat)
  | CreateCondBr (cond : Value) (ifTrue ifFalse : nat)
  | CreateRet (v : Value).

Definition isTerminator (req : Request) : bool :=
  match req with
  | CreateBr _ | CreateCondBr _ _ _ | CreateRet _ => true
  | _ => false
  end.

Inductive Place := AtEnd (block : nat) | AtStart (block : nat) | Nowhere.

#[global] Instance Place_eq_dec : EqDecision Place.
Proof. solve_decision. Defined.

Record Emitted := emit { place : Place; request : Request }.

Record Function := mkFunction {
  fname : string;
  returnType : Ty;
  arg_size : nat;
  blockList : list nat
}.

Record BasicBlock := mkBasicBlock { label : string; parent : option nat }.

(** The names LLVM's symbol tables give: to a function created under a
    name, in a module that holds functions of the names [taken]; and to the
    arguments of a new function, named in order after the parameters.  A
    name asked for is the name given unless it is taken already; what LLVM
    makes of it then is left open. *)
Class Naming := {
  functionName : list string → string → string;
  argumentNames : list string → list string
}.

(** The names as asked for: LLVM's choice when they are distinct. *)
Definition namesAsAsked : Naming :=
  {| functionName := λ _ name, name; argumentNames := λ names, names |}.

End IR.

Module CodeGenerator.
Import IR.

(** The generator: the module it builds ([functions], [basicBlocks],
    [emitted]), the builder's insertion block, the symbol table, the
    current value, and what it wrote to [std::cerr]. *)
Record t := mk {
  functions : list Function;
  basicBlocks : list BasicBlock;
  insertBlock : option nat;
  emitted : list Emitted;
  namedValues : gmap string Value;
  currentValue : Value;
  cerr : list string
}.

(** A visit ends with the generator changed, or in the dereference of a
    null pointer. *)
Inductive Outcome (A : Type) :=
  | Done (a : A) (g : t)
  | Fault.
#[global] Arguments Done {A} a g.
#[global] Arguments Fault {A}.

Definition G (A : Type) : Type := t → Outcome A.

#[global] Instance G_ret : MRet G := λ A a g, Done a g.
#[global] Instance G_bind : MBind G := λ A B k m g,
  match m g with
  | Done a g' => k a g'
  | Fault => Fault
  end.

Definition fault {A} : G A := λ _, Fault.

Definition setFunctions (fs : list Function) : G unit := λ g,
  Done tt (mk fs (basicBlocks g) (insertBlock g) (emitted g)
              (namedValues g) (currentValue g) (cerr g)).

Definition setBasicBlocks (bs : list BasicBlock) : G unit := λ g,
  Done tt (mk (functions g) bs (insertBlock g) (emitted g)
              (namedValues g) (currentValue g) (cerr g)).

(** [builder->SetInsertPoint(block)] *)
Definition SetInsertPoint (block : nat) : G unit := λ g,
  Done tt (mk (functions g) (basicBlocks g) (Some block) (emitted g)
              (namedValues g) (currentValue g) (cerr g)).

Definition setNamedValues (m : gmap string Value) : G unit := λ g,
  Done tt (mk (functions g) (basicBlocks g) (insertBlock g) (emitted g)
              m (currentValue g) (cerr g)).

Definition setCurrentValue (v : Value) : G unit := λ g,
  Done tt (mk (functions g) (basicBlocks g) (insertBlock g) (emitted g)
              (namedValues g) v (cerr g)).

(** [std::cerr << line << std::endl] *)
Definition report (line : string) : G unit := λ g,
  Done tt (mk (functions g) (basicBlocks g) (insertBlock g) (emitted g)
              (namedValues g) (currentValue g) (cerr g ++ [line])).

Definition getCurrentValue : G Value := λ g, Done (currentValue g) g.
Definition getNamedValues : G (gmap string Value) := λ g,
  Done (namedValues g) g.

(** [namedValues[name]]: [std::map::operator[]] enters a null pointer
    under a name that has no entry. *)
Definition namedValuesAt (name : string) : G Value := λ g,
  match namedValues g !! name with
  | Some v => Done v g
  | None =>
      (setNamedValues (<[name := Null]> (namedValues g));; mret Null) g
  end.

(** [namedValues[name] = v] *)
Definition bindName (name : string) (v : Value) : G unit := λ g,
  setNamedValues (<[name := v]> (namedValues g)) g.

(** [v->getType()] *)
Definition typeOf (v : Value) : G Ty :=
  match getType v with Some ty => mret ty | None => fault end.

(** The builder adds a request; [Insert] is the one of [IRBuilder]: to the
    end of the insertion block when there is one. *)
Definition add (place : Place) (req : Request) : G nat := λ g,
  Done (length (emitted g))
       (mk (functions g) (basicBlocks g) (insertBlock g)
           (emitted g ++ [emit place req])
           (namedValues g) (currentValue g) (cerr g)).

Definition Insert (req : Request) (ty : Ty) : G Value := λ g,
  (n ← add (from_option AtEnd Nowhere (insertBlock g)) req;
   mret (Instruction n ty)) g.

Definition Fold (req : Request) (ty : Ty) : G Value :=
  n ← add Nowhere req; mret (Constant n ty).

(** The builder reads the data layout of the module through the insertion
    block. *)
Definition needInsertBlock : G nat := λ g,
  match insertBlock g with Some b => Done b g | None => Fault end.

(** [CreateFAdd], [CreateFSub], [CreateFMul], [CreateFDiv] *)
Definition createArithmetic (req : Request) (l r : Value) : G Value :=
  ty ← typeOf l;
  if isConstantDouble l && isConstantDouble r
  then Fold req DoubleTy else Insert req ty.

(** [CreateFCmpOEQ], [CreateFCmpONE], [CreateFCmpOGT], [CreateFCmpOLT] *)
Definition createCompare (req : Request) (l r : Value) : G Value :=
  _ ← typeOf l;
  if isConstantDouble l && isConstantDouble r
  then Fold req Int1Ty else Insert req Int1Ty.

Definition createStore (val ptr : Value) : G unit :=
  _ ← needInsertBlock; _ ← typeOf val;
  _ ← Insert (CreateStore val ptr) VoidTy; mret tt.

Definition createLoad (ptr : Value) (name : string) : G Value :=
  _ ← needInsertBlock; Insert (CreateLoad ptr name) DoubleTy.

Definition createAlloca (name : string) : G Value :=
  _ ← needInsertBlock; Insert (CreateAlloca name) PointerTy.

(** [tempBuilder.CreateAlloca] of [visit(VariableDeclarationNode&)]: at
    the start of the entry block. *)
Definition createAllocaAtStart (entry : nat) (name : string) : G Value :=
  n ← add (AtStart entry) (CreateAlloca name); mret (Instruction n PointerTy).

Definition createGlobalStringPtr (str name : string) : G Value :=
  _ ← needInsertBlock;
  n ← add Nowhere (CreateGlobalStringPtr str name); mret (Constant n PointerTy).

Definition createCall (callee : option nat) (args : list Value)
    (name : string) : G Value := λ g,
  match callee with
  | None => Fault
  | Some f =>
      match functions g !! f with
      | None => Fault
      | Some fn => Insert (CreateCall f args name) (returnType fn) g
      end
  end.

Definition createBr (dest : nat) : G unit :=
  _ ← Insert (CreateBr dest) VoidTy; mret tt.
Definition createCondBr (cond : Value) (ifTrue ifFalse : nat) : G unit :=
  _ ← Insert (CreateCondBr cond ifTrue ifFalse) VoidTy; mret tt.
Definition createRet (v : Value) : G unit :=
  _ ← Insert (CreateRet v) VoidTy; mret tt.

(** [block->getTerminator() != nullptr]: the last instruction of the block
    is a terminator. *)
Definition getTerminator (g : t) (block : nat) : bool :=
  match last (filter (λ e, place e = AtEnd block) (emitted g)) with
  | Some e => isTerminator (request e)
  | None => false
  end.

(** [builder->GetInsertBlock()->getTerminator() != nullptr] *)
Definition terminated : G bool := λ g,
  match insertBlock g with
  | Some b => Done (getTerminator g b) g
  | None => Fault
  end.

(** [builder->GetInsertBlock()->getParent()] *)
Definition insertBlockParent : G (option nat) := λ g,
  match insertBlock g with
  | Some b => Done (basicBlocks g !! b ≫= parent) g
  | None => Fault
  end.

(** [function->getEntryBlock()] *)
Definition getEntryBlock (function : option nat) : G nat := λ g,
  match function ≫= λ f, functions g !! f ≫= λ fn, head (blockList fn) with
  | Some entry => Done entry g
  | None => Fault
  end.

(** [block->insertInto(function)] *)
Definition insertInto (block : nat) (function : option nat) : G unit := λ g,
  match function with
  | None => Fault
  | Some f =>
      (setBasicBlocks
         (alter (λ b, mkBasicBlock (label b) (Some f)) block (basicBlocks g));;
       setFunctions
         (alter (λ fn, mkFunction (fname fn) (returnType fn) (arg_size fn)
                         (blockList fn ++ [block])) f (functions g))) g
  end.

(** [llvm::BasicBlock::Create(context, label, function)] *)
Definition BasicBlockCreate (label : string) (function : option nat)
  : G nat := λ g,
  let block := length (basicBlocks g) in
  (setBasicBlocks (basicBlocks g ++ [mkBasicBlock label None]);;
   match function with
   | Some f => insertInto block (Some f)
   | None => mret tt
   end;;
   mret block) g.

(** [module->getFunction(name)]; no function goes by the empty name. *)
Definition getFunction (name : string) (g : t) : option nat :=
  if bool_decide (name = "") then None
  else fst <$> list_find (λ fn, fname fn = name) (functions g).

(** The requests made so far, in order. *)
Definition requests (g : t) : list Request := request <$> emitted g.

(** What stands between the value [v] of a condition, of type [ty], and
    the conditional branch: nothing when [v] is a 1-bit boolean, else the
    one request for [v != 0.0]; and the value [c] the branch then tests:
    [v] itself, or what the builder answered the request numbered [n]. *)
Definition coercion (v : Value) (ty : Ty) (name : string) : list Request :=
  if bool_decide (ty = Int1Ty) then []
  else [CreateFCmpONE v (ConstantFP 0) name].

Definition branchesOn (v : Value) (ty : Ty) (n : nat) (c : Value) : Prop :=
  if bool_decide (ty = Int1Ty) then c = v
  else c = Instruction n Int1Ty ∨ c = Constant n Int1Ty.

Section Generator.
Context {naming : Naming}.

(** [llvm::Function::Create(type, ExternalLinkage, name, module.get())] *)
Definition FunctionCreate (name : string) (ret : Ty) (arity : nat)
  : G nat := λ g,
  let given := functionName (fname <$> functions g) name in
  (setFunctions (functions g ++ [mkFunction given ret arity []]);;
   mret (length (functions g))) g.

(** [CodeGenerator::declareStandardFunctions] *)
Definition declareStandardFunctions : G unit :=
  _ ← FunctionCreate "printDouble" VoidTy 1;
  _ ← FunctionCreate "printString" VoidTy 1;
  mret tt.

(** [CodeGenerator::CodeGenerator()]: the builder has no insertion
    block. *)
Definition new : Outcome unit :=
  declareStandardFunctions (mk [] [] None [] ∅ Null []).

(** The coercion of [visit(IfNode&)] and [visit(WhileNode&)]:
    [if (!condValue->getType()->isIntegerTy(1))
       condValue = builder->CreateFCmpONE(condValue, 0.0, name);] *)
Definition condition (condValue : Value) (name : string) : G Value :=
  ty ← typeOf condValue;
  if bool_decide (ty ≠ Int1Ty)
  then createCompare (CreateFCmpONE condValue (ConstantFP 0) name)
         condValue (ConstantFP 0)
  else mret condValue.

(** The loops [for (auto& statement : statements) statement->accept(..)]
    and [for (auto& arg : arguments) { arg->accept(..);
    argsV.push_back(currentValue); }]. *)
Fixpoint acceptEach (accept : Node → G unit) (statements : list Node)
  : G unit :=
  match statements with
  | [] => mret tt
  | statement :: rest => accept statement;; acceptEach accept rest
  end.

Fixpoint acceptArguments (accept : Node → G unit) (arguments : list Node)
    (argsV : list Value) : G (list Value) :=
  match arguments with
  | [] => mret argsV
  | arg :: rest =>
      accept arg;;
      v ← getCurrentValue;
      acceptArguments accept rest (argsV ++ [v])
  end.

(** [block->accept(..)] on a [std::unique_ptr<BlockNode>] tested first. *)
Definition acceptBlock (accept : Node → G unit) (block : option (list Node))
  : G unit :=
  match block with
  | Some statements => acceptEach accept statements
  | None => mret tt
  end.

(** [CodeGenerator::generateBinaryOp] *)
Definition generateBinaryOp (accept : Node → G unit)
    (operation : Op) (leftNode rightNode : Node) : G Value :=
  accept leftNode;;
  left ← getCurrentValue;
  accept rightNode;;
  right ← getCurrentValue;
  if isNull left || isNull right then mret Null
  else
    match operation with
    | Add => createArithmetic (CreateFAdd left right "addtmp") left right
    | Subtract => createArithmetic (CreateFSub left right "subtmp") left right
    | Multiply => createArithmetic (CreateFMul left right "multmp") left right
    | Divide => createArithmetic (CreateFDiv left right "divtmp") left right
    | Assign =>
        match leftNode with
        | IdentifierNode name =>
            variable ← namedValuesAt name;
            if isNull variable
            then report ("Unknown variable: " +:+ name);; mret Null
            else createStore right variable;; mret right
        | _ =>
            report "Left side of assignment must be a variable";; mret Null
        end
    | Equals => createCompare (CreateFCmpOEQ left right "eqtmp") left right
    | NotEquals => createCompare (CreateFCmpONE left right "neqtmp") left right
    | Greater => createCompare (CreateFCmpOGT left right "gttmp") left right
    | Less => createCompare (CreateFCmpOLT left right "lttmp") left right
    end.

(** The loop over [function->args()] of [visit(FunctionNode&)]: a slot per
    argument, bound under the name LLVM gave the argument. *)
Fixpoint bindArguments (function : nat) (parameters : list string)
    (given : list string) (idx : nat) : G unit :=
  match parameters with
  | [] => mret tt
  | parameter :: rest =>
      alloca ← createAlloca parameter;
      createStore (Argument function idx) alloca;;
      bindName (default "" (given !! idx)) alloca;;
      bindArguments function rest given (S idx)
  end.

(** The overloads of [CodeGenerator::visit].  [accept] is the virtual
    [node->accept( *this)], which comes back to [visit] on the class of the
    node. *)

(** [visit(ProgramNode&)] and [visit(BlockNode&)] are [acceptEach]. *)

Definition visitVariableDeclaration (accept : Node → G unit)
    (name : string) (initialValue : option Node) : G unit :=
  match initialValue with
  | Some init =>
      accept init;;
      initialValue ← getCurrentValue;
      function ← insertBlockParent;
      entry ← getEntryBlock function;
      alloca ← createAllocaAtStart entry name;
      createStore initialValue alloca;;
      bindName name alloca
  | None => mret tt
  end.

Definition visitBinaryOp (accept : Node → G unit)
    (operation : Op) (leftNode rightNode : Node) : G unit :=
  v ← generateBinaryOp accept operation leftNode rightNode;
  setCurrentValue v.

Definition visitNumber (value : Q) : G unit :=
  setCurrentValue (ConstantFP value).

Definition visitString (value : string) : G unit :=
  v ← createGlobalStringPtr value "str"; setCurrentValue v.

Definition visitIdentifier (name : string) : G unit :=
  variable ← namedValuesAt name;
  if isNull variable then
    report ("Unknown variable: " +:+ name);; setCurrentValue Null
  else
    v ← createLoad variable name; setCurrentValue v.

Definition visitFunction (accept : Node → G unit)
    (name : string) (parameters : list string) (body : option (list Node))
  : G unit :=
  function ← FunctionCreate name DoubleTy (length parameters);
  entryBB ← BasicBlockCreate "entry" (Some function);
  SetInsertPoint entryBB;;
  (* save old symbol table and create a new scope *)
  oldNamedValues ← getNamedValues;
  setNamedValues ∅;;
  bindArguments function parameters (argumentNames parameters) 0;;
  acceptBlock accept body;;
  isTerminated ← terminated;
  (if negb isTerminated then createRet (ConstantFP 0) else mret tt);;
  (* restore the old symbol table *)
  setNamedValues oldNamedValues.

Definition visitCall (accept : Node → G unit)
    (callee : string) (arguments : list Node) : G unit :=
  calleeF ← (λ g, Done (getFunction callee g) g);
  match calleeF with
  | None => report ("Unknown function: " +:+ callee);; setCurrentValue Null
  | Some f =>
      arity ← (λ g, Done (arg_size <$> functions g !! f) g);
      if bool_decide (arity ≠ Some (length arguments)) then
        report ("Incorrect number of arguments for function " +:+ callee);;
        setCurrentValue Null
      else
        argsV ← acceptArguments accept arguments [];
        v ← createCall (Some f) argsV "calltmp";
        setCurrentValue v
  end.

Definition visitIf (accept : Node → G unit)
    (cond : Node) (thenBlock elseBlock : option (list Node)) : G unit :=
  accept cond;;
  condValue ← getCurrentValue;
  condValue ← condition condValue "ifcond";
  function ← insertBlockParent;
  thenBB ← BasicBlockCreate "then" function;
  elseBB ← BasicBlockCreate "else" None;
  mergeBB ← BasicBlockCreate "ifcont" None;
  createCondBr condValue thenBB elseBB;;
  SetInsertPoint thenBB;;
  acceptBlock accept thenBlock;;
  isTerminated ← terminated;
  (if negb isTerminated then createBr mergeBB else mret tt);;
  insertInto elseBB function;;
  SetInsertPoint elseBB;;
  acceptBlock accept elseBlock;;
  isTerminated ← terminated;
  (if negb isTerminated then createBr mergeBB else mret tt);;
  insertInto mergeBB function;;
  SetInsertPoint mergeBB.

(** [visit(WhileNode&)] up to the visit of the condition, and from it
    on. *)
Definition enterLoop : G (option nat * nat * nat * nat) :=
  function ← insertBlockParent;
  condBB ← BasicBlockCreate "loopcond" function;
  loopBB ← BasicBlockCreate "loop" None;
  afterBB ← BasicBlockCreate "afterloop" None;
  createBr condBB;;
  SetInsertPoint condBB;;
  mret (function, condBB, loopBB, afterBB).

Definition visitWhile (accept : Node → G unit)
    (cond : Node) (body : option (list Node)) : G unit :=
  '(function, condBB, loopBB, afterBB) ← enterLoop;
  accept cond;;
  condValue ← getCurrentValue;
  condValue ← condition condValue "loopcond";
  createCondBr condValue loopBB afterBB;;
  insertInto loopBB function;;
  SetInsertPoint loopBB;;
  acceptBlock accept body;;
  isTerminated ← terminated;
  (if negb isTerminated then createBr condBB else mret tt);;
  insertInto afterBB function;;
  SetInsertPoint afterBB.

Definition visitPrint (accept : Node → G unit) (expression : option Node)
  : G unit :=
  match expression with
  | Some expr =>
      accept expr;;
      v ← getCurrentValue;
      type ← typeOf v;
      printFunc ← (λ g,
        Done (getFunction (if bool_decide (type = PointerTy)
                           then "printString" else "printDouble") g) g);
      _ ← createCall printFunc [v] "";
      mret tt
  | None => mret tt
  end.

Definition visitReturn (accept : Node → G unit) (value : option Node)
  : G unit :=
  match value with
  | Some expr =>
      accept expr;;
      v ← getCurrentValue;
      createRet v
  | None => createRet (ConstantFP 0)
  end.

(** [node->accept(generator)] *)
Fixpoint visit (node : Node) : G unit :=
  match node with
  | ProgramNode statements => acceptEach visit statements
  | BlockNode statements => acceptEach visit statements
  | VariableDeclarationNode name _ initialValue =>
      visitVariableDeclaration visit name initialValue
  | BinaryOpNode operation leftNode rightNode =>
      visitBinaryOp visit operation leftNode rightNode
  | NumberNode value => visitNumber value
  | StringNode value => visitString value
  | IdentifierNode name => visitIdentifier name
  | FunctionNode name parameters body =>
      visitFunction visit name parameters body
  | CallNode callee arguments => visitCall visit callee arguments
  | IfNode cond thenBlock elseBlock =>
      visitIf visit cond thenBlock elseBlock
  | WhileNode cond body => visitWhile visit cond body
  | PrintNode expression => visitPrint visit expression
  | ReturnNode value => visitReturn visit value
  end.

(** [CodeGenerator codegen; codegen.generate(ast)] *)
Definition generate (ast : Node) : Outcome unit :=
  (declareStandardFunctions;; visit ast) (mk [] [] None [] ∅ Null []).

End Generator.

End CodeGenerator.

(** *** Token positions *)

(** [(line, column)] of the first token is at or before that of the
    second, in lexicographic order. *)
Definition position_le (a b : Token) : bool :=
  (Token.line a <? Token.line b)
  || ((Token.line a =? Token.line b) && (Token.column a <=? Token.column b)).

Fixpoint positions_nondecreasing (tokens : TokenList) : bool :=
  match tokens with
  | a :: (b :: _) as rest => position_le a b && positions_nondecreasing rest
  | _ => true
  end.

Definition notEOL (tok : Token) : bool :=
  negb (bool_decide (Token.type tok = EOL)).

(** A line break inside a string of the program text. *)
Definition nl : string := string1 LF.

(** [main]: lex, parse, generate.  [None] stands for the fuel of the
    parser model running out. *)
Definition compile {naming : IR.Naming} (src : string)
  : option (CodeGenerator.Outcome unit) :=
  match parseSource src with
  | Parser.Ok (ast, _) => Some (CodeGenerator.generate ast)
  | _ => None
  end.

(** ** Trees and generator states the statements below are about *)

(** The program node of a run that returned one. *)
Definition programOf (r : Parser.Result (Node * list Parser.Diagnostic))
  : option Node :=
  match r with Parser.Ok (program, _) => Some program | _ => None end.

Definition binary (op : Op) (l r : string) : Node :=
  BinaryOpNode op (IdentifierNode l) (IdentifierNode r).

(** The generator after [function f(x) {]: the two print helpers and [f]
    in the module, the builder at the end of the entry block of [f], the
    parameter [x] in its slot. *)
Definition insideFunction : CodeGenerator.t :=
  CodeGenerator.mk
    [ IR.mkFunction "printDouble" IR.VoidTy 1 [];
      IR.mkFunction "printString" IR.VoidTy 1 [];
      IR.mkFunction "f" IR.DoubleTy 1 [0%nat] ]
    [ IR.mkBasicBlock "entry" (Some 2%nat) ]
    (Some 0%nat)
    [ IR.emit (IR.AtEnd 0) (IR.CreateAlloca "x");
      IR.emit (IR.AtEnd 0)
        (IR.CreateStore (IR.Argument 2 0) (IR.Instruction 0 IR.PointerTy)) ]
    {[ "x" := IR.Instruction 0 IR.PointerTy ]}
    IR.Null
    [].

(** [if x { print 1 }] and [while x less than 3 { print x }] *)
Definition ifOnNumber : Node :=
  IfNode (IdentifierNode "x") (Some [PrintNode (Some (NumberNode 1))]) None.

Definition whileOnComparison : Node :=
  WhileNode (BinaryOpNode Less (IdentifierNode "x") (NumberNode 3))
    (Some [PrintNode (Some (IdentifierNode "x"))]).

Definition afterIfOnNumber : CodeGenerator.t :=
  Eval vm_compute in
    match CodeGenerator.visit (naming := IR.namesAsAsked)
            ifOnNumber insideFunction with
    | CodeGenerator.Done _ g' => g'
    | CodeGenerator.Fault => insideFunction
    end.

Definition afterWhileOnComparison : CodeGenerator.t :=
  Eval vm_compute in
    match CodeGenerator.visit (naming := IR.namesAsAsked)
            whileOnComparison insideFunction with
    | CodeGenerator.Done _ g' => g'
    | CodeGenerator.Fault => insideFunction
    end.

(** The generator at top level after the statement [y], which entered a
    null pointer under [y] in [namedValues]; and the tree of
    [function f(a) { var x is a  return x }]. *)
Definition afterUnknownVariable : CodeGenerator.t :=
  CodeGenerator.mk
    [ IR.mkFunction "printDouble" IR.VoidTy 1 [];
      IR.mkFunction "printString" IR.VoidTy 1 [] ]
    [] None [] {[ "y" := IR.Null ]} IR.Null ["Unknown variable: y"].

Definition functionWithLocal : Node :=
  FunctionNode "f" ["a"]
    (Some [ VariableDeclarationNode "x" false (Some (IdentifierNode "a"));
            ReturnNode (Some (IdentifierNode "x")) ]).

Definition afterFunctionWithLocal : CodeGenerator.t :=
  Eval vm_compute in
    match CodeGenerator.visit (naming := IR.namesAsAsked)
            functionWithLocal afterUnknownVariable with
    | CodeGenerator.Done _ g' => g'
    | CodeGenerator.Fault => afterUnknownVariable
    end.

(** ** Shapes of token lists and lexemes *)

(** The lines of the tokens never go down. *)
Fixpoint lines_nondecreasing (tokens : TokenList) : bool :=
  match tokens with
  | a :: (b :: _) as rest =>
      (Token.line a <=? Token.line b) && lines_nondecreasing rest
  | _ => true
  end.

Fixpoint string_forall (p : ascii → bool) (s : string) : bool :=
  match s with
  | EmptyString => true
  | String c s' => p c && string_forall p s'
  end.

(** [[A-Za-z_][A-Za-z0-9_]*] *)
Definition isWordChar (c : ascii) : bool := isalnum c || Ascii.eqb c "_".

Definition isWord (s : string) : bool :=
  match s with
  | EmptyString => false
  | String c s' =>
      (isalpha c || Ascii.eqb c "_") && string_forall isWordChar s'
  end.

(** The token kinds of the keyword table. *)
Definition keywordKind (ty : TokenType) : bool :=
  match ty with
  | FUNCTION | RETURN | IF | ELSE | WHILE | FOR | VARIABLE | CONSTANT | PRINT
  | PLUS | MINUS | MULTIPLY | DIVIDE | ASSIGN | EQUALS | NOT_EQUALS
  | GREATER | LESS => true
  | _ => false
  end.

(** Lines and columns count from 1. *)
Definition oneBased (tok : Token) : bool :=
  (1 <=? Token.line tok) && (1 <=? Token.column tok).

(** What the lexer promises of the lexeme of a word token: a word that is
    no keyword under [IDENTIFIER], the keyword itself under a keyword
    kind. *)
Definition wordToken (tok : Token) : Prop :=
  (Token.type tok = IDENTIFIER →
     isWord (Token.value tok) = true
     ∧ Lexer.keywords !! Token.value tok = None)
  ∧ (keywordKind (Token.type tok) = true →
     Lexer.keywords !! Token.value tok = Some (Token.type tok)).


(** ** Shapes of trees *)

(** The trees [parseExpression] builds: operators over numbers, strings,
    names and calls. *)
Fixpoint expression (node : Node) : bool :=
  match node with
  | BinaryOpNode _ l r => expression l && expression r
  | NumberNode _ | StringNode _ | IdentifierNode _ => true
  | CallNode _ arguments => forallb expression arguments
  | _ => false
  end.

(** The trees [parseStatement] builds: no pointer to a child is null, a
    condition, an initial value, a printed or returned value is an
    expression, and no Program node is inside. *)
Fixpoint statement (node : Node) : bool :=
  match node with
  | ProgramNode _ => false
  | BlockNode statements => forallb statement statements
  | VariableDeclarationNode _ _ (Some init) => expression init
  | FunctionNode _ _ (Some body) => forallb statement body
  | IfNode cond (Some thenBlock) elseBlock =>
      expression cond && forallb statement thenBlock
      && match elseBlock with
         | Some statements => forallb statement statements
         | None => true
         end
  | WhileNode cond (Some body) => expression cond && forallb statement body
  | PrintNode (Some expr) => expression expr
  | ReturnNode (Some expr) => expression expr
  | VariableDeclarationNode _ _ None | FunctionNode _ _ None
  | IfNode _ None _ | WhileNode _ None | PrintNode None | ReturnNode None =>
      false
  | _ => expression node
  end.
(** ** Trees written as tokens *)

(** A token as the parser reads it: of its line and column nothing
    depends. *)
Definition token (ty : TokenType) (lexeme : string) : Token :=
  Token.mk ty lexeme 0 0.

(** The token of each operator, with its keyword of lexer.cpp. *)
Definition operatorToken (op : Op) : Token :=
  match op with
  | Add => token PLUS "plus"
  | Subtract => token MINUS "minus"
  | Multiply => token MULTIPLY "times"
  | Divide => token DIVIDE "divided"
  | Assign => token ASSIGN "is"
  | Equals => token EQUALS "equals"
  | NotEquals => token NOT_EQUALS "not"
  | Greater => token GREATER "greater"
  | Less => token LESS "less"
  end.

Definition parenthesised (l : TokenList) : TokenList :=
  token LEFT_PAREN "(" :: l ++ [token RIGHT_PAREN ")"].

Definition braced (l : TokenList) : TokenList :=
  token LEFT_BRACE "{" :: l ++ [token RIGHT_BRACE "}"].

(** The items of a list with a comma between them. *)
Definition commas (items : list TokenList) : TokenList :=
  match items with
  | [] => []
  | first :: more =>
      first ++ flat_map (λ item, token COMMA "," :: item) more
  end.

(** The loop that takes an operator: [parseExpression] 0, [parseTerm] 1,
    [parseFactor] 2. *)
Definition tightness (op : Op) : nat :=
  match op with
  | Multiply | Divide => 2
  | Add | Subtract => 1
  | Assign | Equals | NotEquals | Greater | Less => 0
  end.

(** The word the parser skips after an operator: [greater than],
    [less than], [divided by]. *)
Definition glue (op : Op) : option string :=
  match op with
  | Greater | Less => Some "than"
  | Divide => Some "by"
  | _ => None
  end.

#[global] Instance Q_eq_dec : EqDecision Q.
Proof. solve_decision. Defined.

Section Written.
Variable lexeme : Q → string.

(** A tree written out in full: every operand and every argument in
    parentheses, a name in parentheses, a number as [lexeme] spells it. *)
Fixpoint written (node : Node) : TokenList :=
  let block (statements : list Node) := braced (flat_map written statements) in
  match node with
  | ProgramNode statements =>
      flat_map written statements ++ [token END_OF_FILE ""]
  | BlockNode statements => block statements
  | VariableDeclarationNode name isConstant (Some init) =>
      (if isConstant then token CONSTANT "const" else token VARIABLE "var")
      :: token IDENTIFIER name :: token ASSIGN "is" :: written init
  | BinaryOpNode op l r =>
      parenthesised (written l) ++ operatorToken op
      :: parenthesised (written r)
  | NumberNode value => [token NUMBER (lexeme value)]
  | StringNode value => [token STRING value]
  | IdentifierNode name => parenthesised [token IDENTIFIER name]
  | FunctionNode name parameters (Some body) =>
      token FUNCTION "function" :: token IDENTIFIER name
      :: parenthesised (commas ((λ x, [token IDENTIFIER x]) <$> parameters))
      ++ block body
  | CallNode callee arguments =>
      token IDENTIFIER callee
      :: parenthesised
           (commas ((λ a, parenthesised (written a)) <$> arguments))
  | IfNode condition (Some thenBlock) elseBlock =>
      token IF "if" :: written condition ++ block thenBlock
      ++ match elseBlock with
         | Some statements => token ELSE "else" :: block statements
         | None => []
         end
  | WhileNode condition (Some body) =>
      token WHILE "while" :: written condition ++ block body
  | PrintNode (Some expr) => token PRINT "print" :: written expr
  | ReturnNode (Some expr) => token RETURN "return" :: written expr
  | VariableDeclarationNode _ _ None | FunctionNode _ _ None
  | IfNode _ None _ | WhileNode _ None | PrintNode None | ReturnNode None =>
      []
  end.

(** [std::stod] reads every number of the tree back from its lexeme. *)
Fixpoint legible (node : Node) : bool :=
  let block (b : option (list Node)) :=
    match b with
    | Some statements => forallb legible statements
    | None => true
    end in
  let child (c : option Node) :=
    match c with Some n => legible n | None => true end in
  match node with
  | ProgramNode statements | BlockNode statements =>
      forallb legible statements
  | VariableDeclarationNode _ _ init => child init
  | BinaryOpNode _ l r => legible l && legible r
  | NumberNode value => bool_decide (stod (lexeme value) = Some value)
  | StringNode _ | IdentifierNode _ => true
  | FunctionNode _ _ body => block body
  | CallNode _ arguments => forallb legible arguments
  | IfNode condition thenBlock elseBlock =>
      legible condition && block thenBlock && block elseBlock
  | WhileNode condition body => legible condition && block body
  | PrintNode expr => child expr
  | ReturnNode value => child value
  end.

End Written.


(** ** Shapes of programs, as the generator sees them *)

(** No function is defined in the tree. *)
Fixpoint functionFree (node : Node) : bool :=
  let block (b : option (list Node)) :=
    match b with
    | Some statements => forallb functionFree statements
    | None => true
    end in
  let child (c : option Node) :=
    match c with Some n => functionFree n | None => true end in
  match node with
  | ProgramNode statements | BlockNode statements =>
      forallb functionFree statements
  | VariableDeclarationNode _ _ initialValue => child initialValue
  | BinaryOpNode _ l r => functionFree l && functionFree r
  | NumberNode _ | StringNode _ | IdentifierNode _ => true
  | FunctionNode _ _ _ => false
  | CallNode _ arguments => forallb functionFree arguments
  | IfNode cond thenBlock elseBlock =>
      functionFree cond && block thenBlock && block elseBlock
  | WhileNode cond body => functionFree cond && block body
  | PrintNode expression => child expression
  | ReturnNode value => child value
  end.

(** The visit of the tree comes to a variable declaration, a string, an
    If or a While: to a call that reads the insertion block of the
    builder.  (The arguments of a call are left out: they are visited only
    when the callee is known and takes as many.) *)
Fixpoint needsBlock (node : Node) : bool :=
  match node with
  | ProgramNode statements | BlockNode statements =>
      existsb needsBlock statements
  | VariableDeclarationNode _ _ (Some _) => true
  | BinaryOpNode _ l r => needsBlock l || needsBlock r
  | StringNode _ => true
  | IfNode _ _ _ | WhileNode _ _ => true
  | PrintNode (Some expr) => needsBlock expr
  | ReturnNode (Some expr) => needsBlock expr
  | _ => false
  end.

(** The instruction of the request is in no block. *)
Definition nowhere (e : IR.Emitted) : bool :=
  bool_decide (IR.place e = IR.Nowhere).

(** [name] is bound to a slot in the symbol table. *)
Definition bound (g : CodeGenerator.t) (name : string) : Prop :=
  ∃ v, CodeGenerator.namedValues g !! name = Some v ∧ IR.isNull v = false.

(** A statement of the block declares the variable [name]. *)
Definition declares (name : string) (block : list Node) : bool :=
  existsb (λ node,
             match node with
             | VariableDeclarationNode x _ (Some _) => bool_decide (x = name)
             | _ => false
             end) block.

(** [print 1 plus 2] and [var x is 42  print x] as whole programs;
    [function f(a) { var x is a  return x }] and the unknown variable [y]
    met inside [f]; and [if x { var y is 1 }]. *)
Definition topLevelPrint : Node :=
  ProgramNode
    [PrintNode (Some (BinaryOpNode Add (NumberNode 1) (NumberNode 2)))].

Definition topLevelDeclaration : Node :=
  ProgramNode
    [ VariableDeclarationNode "x" false (Some (NumberNode 42));
      PrintNode (Some (IdentifierNode "x")) ].

Definition afterTopLevelPrint : CodeGenerator.t :=
  Eval vm_compute in
    match CodeGenerator.generate (naming := IR.namesAsAsked)
            topLevelPrint with
    | CodeGenerator.Done _ g' => g'
    | CodeGenerator.Fault => insideFunction
    end.

Definition afterRedefinition : CodeGenerator.t :=
  Eval vm_compute in
    match CodeGenerator.visit (naming := IR.namesAsAsked)
            functionWithLocal insideFunction with
    | CodeGenerator.Done _ g' => g'
    | CodeGenerator.Fault => insideFunction
    end.

Definition afterUnknownInside : CodeGenerator.t :=
  Eval vm_compute in
    match CodeGenerator.visit (naming := IR.namesAsAsked)
            (IdentifierNode "y") insideFunction with
    | CodeGenerator.Done _ g' => g'
    | CodeGenerator.Fault => insideFunction
    end.

Definition ifDeclaring : Node :=
  IfNode (IdentifierNode "x")
    (Some [VariableDeclarationNode "y" false (Some (NumberNode 1))]) None.

Definition afterIfDeclaring : CodeGenerator.t :=
  Eval vm_compute in
    match CodeGenerator.visit (naming := IR.namesAsAsked)
            ifDeclaring insideFunction with
    | CodeGenerator.Done _ g' => g'
    | CodeGenerator.Fault => insideFunction
    end.

(** ** Programs the generator is sure to take *)

(** An expression over the variables of [env], without calls, whose
    assignments are to variables. *)
Fixpoint usesOnly (env : list string) (node : Node) : bool :=
  match node with
  | NumberNode _ | StringNode _ => true
  | IdentifierNode name => bool_decide (name ∈ env)
  | BinaryOpNode op l r =>
      usesOnly env l && usesOnly env r
      && match op, l with
         | Assign, IdentifierNode _ => true
         | Assign, _ => false
         | _, _ => true
         end
  | _ => false
  end.

(** The variables in scope after a statement that uses only variables
    declared before it; [None] when it uses another, calls or defines a
    function.  A declaration in a block stays in scope after the block. *)
Fixpoint scope (node : Node) (env : list string) : option (list string) :=
  let block (b : option (list Node)) (env : list string) :=
    match b with
    | Some statements =>
        fold_left (λ acc statement,
                     match acc with
                     | Some env => scope statement env
                     | None => None
                     end) statements (Some env)
    | None => Some env
    end in
  let expr (e : Node) := if usesOnly env e then Some env else None in
  match node with
  | ProgramNode _ | FunctionNode _ _ _ | CallNode _ _ => None
  | BlockNode statements => block (Some statements) env
  | VariableDeclarationNode name _ (Some init) =>
      if usesOnly env init then Some (name :: env) else None
  | VariableDeclarationNode _ _ None => Some env
  | IfNode cond thenBlock elseBlock =>
      if usesOnly env cond then
        match block thenBlock env with
        | Some env1 => block elseBlock env1
        | None => None
        end
      else None
  | WhileNode cond body =>
      if usesOnly env cond then block body env else None
  | PrintNode (Some e) | ReturnNode (Some e) => expr e
  | PrintNode None | ReturnNode None => Some env
  | BinaryOpNode _ _ _ | NumberNode _ | StringNode _ | IdentifierNode _ =>
      expr node
  end.

(** The names [visit(FunctionNode&)] binds the arguments under. *)
Definition parameterNames {naming : IR.Naming} (parameters : list string)
  : list string :=
  (λ idx, default "" (IR.argumentNames parameters !! idx))
    <$> seq 0 (length parameters).

(** A function whose body is in scope of its parameters. *)
Definition wellScoped {naming : IR.Naming} (node : Node) : bool :=
  match node with
  | FunctionNode _ parameters (Some body) =>
      bool_decide (is_Some (scope (BlockNode body) (parameterNames parameters)))
  | _ => false
  end.

(** [printDouble] and [printString] are functions of the module. *)
Definition printsKnown (g : CodeGenerator.t) : Prop :=
  is_Some (CodeGenerator.getFunction "printDouble" g)
  ∧ is_Some (CodeGenerator.getFunction "printString" g).

(** ** Lexer: progress and totality *)

Module LexerFacts.
Import Lexer.

Lemma get_None (s : String.string) (n : nat) :
  String.get n s = None ↔ (String.length s ≤ n)%nat.
Proof.
  revert n; induction s as [|c s IH]; intros [|n]; simpl;
    try (split; [intros; lia | done]).
  - split; [done | lia].
  - rewrite IH. lia.
Qed.

(** The cursor invariant: [currentChar] is the character under
    [position], or NUL past the end. *)
Definition wf (lx : t) : Prop :=
  currentChar lx = default NUL (String.get (position lx) (source lx)).

Lemma wf_new src : wf (new src).
Proof. reflexivity. Qed.

Lemma wf_advance lx : wf (advance lx).
Proof.
  unfold wf, advance.
  destruct (String.get (S (position lx)) (source lx)) as [c|] eqn:E.
  - destruct (Ascii.eqb c LF); simpl; by rewrite E.
  - simpl. by rewrite E.
Qed.

Lemma source_advance lx : source (advance lx) = source lx.
Proof.
  unfold advance.
  destruct (String.get _ _) as [c|]; [destruct (Ascii.eqb c LF)|]; done.
Qed.

Lemma position_advance lx : position (advance lx) = S (position lx).
Proof.
  unfold advance.
  destruct (String.get _ _) as [c|]; [destruct (Ascii.eqb c LF)|]; done.
Qed.

Lemma wf_not_NUL lx :
  wf lx → Ascii.eqb (currentChar lx) NUL = false →
  (position lx < String.length (source lx))%nat.
Proof.
  unfold wf. intros Hwf Hc.
  destruct (String.get (position lx) (source lx)) as [c|] eqn:E.
  - destruct (decide (position lx < String.length (source lx))%nat) as [|Hn];
      [done|].
    assert (String.get (position lx) (source lx) = None) as E'
      by (apply get_None; lia).
    congruence.
  - simpl in Hwf. rewrite Hwf in Hc. done.
Qed.

(** What a step of the lexer keeps: the invariant and the source; the
    position does not go back. *)
Record moves (lx lx' : t) : Prop := {
  moves_wf : wf lx';
  moves_source : source lx' = source lx;
  moves_position : (position lx ≤ position lx')%nat
}.

Lemma moves_refl lx : wf lx → moves lx lx.
Proof. by split. Qed.

Lemma moves_advance lx : moves lx (advance lx).
Proof.
  split; [apply wf_advance | apply source_advance |].
  rewrite position_advance. lia.
Qed.

Lemma moves_trans a b c : moves a b → moves b c → moves a c.
Proof.
  intros [? Hs1 ?] [? Hs2 ?]. split; [done | congruence | lia].
Qed.

Lemma remaining_advance lx :
  wf lx → Ascii.eqb (currentChar lx) NUL = false →
  (remaining (advance lx) < remaining lx)%nat.
Proof.
  intros Hwf Hc. pose proof (wf_not_NUL lx Hwf Hc).
  unfold remaining. rewrite source_advance, position_advance. lia.
Qed.

(** The scanning loop returns when given the characters left as fuel. *)
Lemma scan_total p fuel lx acc :
  wf lx → (remaining lx ≤ fuel)%nat →
  ∃ lx' r, scan p fuel lx acc = Some (lx', r) ∧ moves lx lx'.
Proof.
  revert lx acc; induction fuel as [|fuel IH]; intros lx acc Hwf Hfuel; simpl.
  - destruct (Ascii.eqb (currentChar lx) NUL) eqn:Hc; simpl.
    + eauto using moves_refl.
    + pose proof (wf_not_NUL lx Hwf Hc). unfold remaining in Hfuel. lia.
  - destruct (Ascii.eqb (currentChar lx) NUL) eqn:Hc; simpl;
      [eauto using moves_refl|].
    destruct (p (currentChar lx)); [|eauto using moves_refl].
    pose proof (remaining_advance lx Hwf Hc).
    destruct (IH (advance lx) (acc +:+ string1 (currentChar lx)))
      as (lx' & r & -> & Hm); [apply wf_advance | lia |].
    eauto using moves_trans, moves_advance.
Qed.

(** ... and moves forward when the loop is entered at all. *)
Lemma scan_progress p fuel lx acc lx' r :
  wf lx → Ascii.eqb (currentChar lx) NUL = false → p (currentChar lx) = true →
  scan p fuel lx acc = Some (lx', r) → (remaining lx ≤ fuel)%nat →
  (position lx < position lx')%nat.
Proof.
  intros Hwf Hc Hp Hscan Hfuel.
  destruct fuel as [|fuel]; simpl in Hscan; rewrite Hc, Hp in Hscan;
    simpl in Hscan; [done|].
  pose proof (remaining_advance lx Hwf Hc).
  destruct (scan_total p fuel (advance lx) (acc +:+ string1 (currentChar lx)))
    as (lx2 & r2 & E & Hm); [apply wf_advance | lia |].
  rewrite E in Hscan. simplify_eq.
  destruct Hm as [_ _ Hpos]. rewrite position_advance in Hpos. lia.
Qed.

(** One turn of the main loop returns and consumes input. *)
Lemma tokenizeStep_total lx :
  wf lx → Ascii.eqb (currentChar lx) NUL = false →
  ∃ lx' pushed, tokenizeStep lx = Some (lx', pushed) ∧ moves lx lx' ∧
                (position lx < position lx')%nat.
Proof.
  intros Hwf Hc.
  assert (∀ ty lexeme, ∃ lx' pushed,
    punct ty lexeme lx = Some (lx', pushed) ∧ moves lx lx' ∧
    (position lx < position lx')%nat) as Hpunct.
  { intros. eexists _, _. split; [reflexivity|].
    split; [apply moves_advance | rewrite position_advance; lia]. }
  unfold tokenizeStep.
  destruct (isspace (currentChar lx)) eqn:Hsp.
  { unfold skipWhitespace.
    destruct (scan_total isspace (remaining lx) lx "") as (lx' & r & E & Hm);
      [done..|].
    rewrite E. simpl. eexists _, _. split; [reflexivity|]. split; [done|].
    eapply scan_progress; eauto. }
  destruct (isalpha (currentChar lx) || Ascii.eqb (currentChar lx) "_") eqn:Hid.
  { unfold identifier.
    destruct (scan_total (λ c, isalnum c || Ascii.eqb c "_")
                (remaining lx) lx "") as (lx' & r & E & Hm); [done..|].
    rewrite E. cbn [mbind option_bind].
    assert (position lx < position lx')%nat.
    { eapply (scan_progress (λ c, isalnum c || Ascii.eqb c "_")); eauto.
      unfold isalnum. simpl.
      destruct (isalpha (currentChar lx)); simpl in *; [done|].
      rewrite Hid. by rewrite orb_true_r. }
    destruct (keywords !! r); eauto 10. }
  destruct (isdigit (currentChar lx)) eqn:Hdig.
  { unfold number.
    destruct (scan_total isdigit (remaining lx) lx "") as (lx1 & r1 & E1 & Hm1);
      [done..|].
    rewrite E1. simpl.
    assert (position lx < position lx1)%nat
      by (eapply scan_progress; eauto).
    destruct (Ascii.eqb (currentChar lx1) ".").
    - destruct (scan_total isdigit (remaining (advance lx1)) (advance lx1)
                  (r1 +:+ string1 (currentChar lx1)))
        as (lx2 & r2 & E2 & Hm2); [apply wf_advance | done |].
      rewrite E2. simpl. eexists _, _. split; [reflexivity|].
      pose proof (moves_trans _ _ _ Hm1
                    (moves_trans _ _ _ (moves_advance lx1) Hm2)) as Hm.
      split; [done|].
      destruct Hm2 as [_ _ Hp]. rewrite position_advance in Hp. lia.
    - simpl. eauto 10. }
  destruct (Ascii.eqb (currentChar lx) "{"); [by apply Hpunct|].
  destruct (Ascii.eqb (currentChar lx) "}"); [by apply Hpunct|].
  destruct (Ascii.eqb (currentChar lx) "("); [by apply Hpunct|].
  destruct (Ascii.eqb (currentChar lx) ")"); [by apply Hpunct|].
  destruct (Ascii.eqb (currentChar lx) ","); [by apply Hpunct|].
  destruct (Ascii.eqb (currentChar lx) QUOTE).
  { unfold string.
    destruct (scan_total (λ c, negb (Ascii.eqb c QUOTE))
                (remaining (advance lx)) (advance lx) "")
      as (lx1 & r & E & Hm); [apply wf_advance | done |].
    rewrite E. simpl. eexists _, _. split; [reflexivity|].
    pose proof (moves_advance lx) as Ha.
    assert (moves lx lx1) as Hm1 by eauto using moves_trans.
    assert (position lx < position lx1)%nat as Hlt.
    { destruct Hm as [_ _ Hp]. rewrite position_advance in Hp. lia. }
    destruct (Ascii.eqb (currentChar lx1) QUOTE).
    + split; [eauto using moves_trans, moves_advance|].
      rewrite position_advance. lia.
    + by split. }
  destruct (Ascii.eqb (currentChar lx) "#") eqn:Hhash.
  { unfold skipComment.
    destruct (scan_total (λ c, negb (Ascii.eqb c LF)) (remaining lx) lx "")
      as (lx' & r & E & Hm); [done..|].
    rewrite E. simpl. eexists _, _. split; [reflexivity|]. split; [done|].
    eapply (scan_progress (λ c, negb (Ascii.eqb c LF))); eauto.
    apply Ascii.eqb_eq in Hhash. by rewrite Hhash. }
  destruct (Ascii.eqb (currentChar lx) LF); by apply Hpunct.
Qed.

(** The main loop returns: every turn consumes input. *)
Lemma tokenizeLoop_total fuel lx tokens :
  wf lx → (remaining lx ≤ fuel)%nat →
  ∃ lx' pushed, tokenizeLoop fuel lx tokens = Some (lx', tokens ++ pushed).
Proof.
  revert lx tokens; induction fuel as [|fuel IH]; intros lx tokens Hwf Hfuel;
    simpl; destruct (Ascii.eqb (currentChar lx) NUL) eqn:Hc;
    try (exists lx, []; by rewrite app_nil_r).
  - pose proof (wf_not_NUL lx Hwf Hc). unfold remaining in Hfuel. lia.
  - destruct (tokenizeStep_total lx Hwf Hc)
      as (lx1 & pushed1 & -> & [Hwf1 Hsrc Hpos] & Hlt).
    cbn [mbind option_bind].
    pose proof (wf_not_NUL lx Hwf Hc).
    destruct (IH lx1 (tokens ++ pushed1)) as (lx2 & pushed2 & ->); [done| |].
    { unfold remaining in *. rewrite Hsrc. lia. }
    exists lx2, (pushed1 ++ pushed2). by rewrite app_assoc.
Qed.

Lemma tokenizeFrom_total lx :
  wf lx →
  ∃ lx' pushed,
    tokenizeLoop (remaining lx) lx [] = Some (lx', pushed) ∧
    tokenizeFrom lx
    = Some (pushed ++ [Token.mk END_OF_FILE "" (line lx') (column lx')]).
Proof.
  intros Hwf.
  destruct (tokenizeLoop_total (remaining lx) lx [] Hwf)
    as (lx' & pushed & E); [done|].
  exists lx', pushed. unfold tokenizeFrom. rewrite E. by split.
Qed.

(** *** No path of the loop pushes an [EOL] token *)

Lemma keywords_notEOL w kw : keywords !! w = Some kw → kw ≠ EOL.
Proof.
  intros H%elem_of_list_to_map_2.
  repeat (apply elem_of_cons in H as [H|H]; [by simplify_eq|]).
  by apply elem_of_nil in H.
Qed.

(** A newline is white space for [std::isspace], so the [case '\n'] of
    the switch is behind the white-space test. *)
Lemma isspace_LF c : isspace c = false → Ascii.eqb c LF = false.
Proof. destruct c as [[] [] [] [] [] [] [] []]; done. Qed.

Lemma tokenizeStep_notEOL lx lx' pushed :
  tokenizeStep lx = Some (lx', pushed) → forallb notEOL pushed = true.
Proof.
  unfold tokenizeStep.
  destruct (isspace (currentChar lx)) eqn:Hsp.
  { destruct (skipWhitespace lx); intros; by simplify_eq/=. }
  destruct (isalpha (currentChar lx) || Ascii.eqb (currentChar lx) "_").
  { unfold identifier. destruct (scan _ _ _ _) as [[lx1 r]|]; [|done].
    cbn [mbind option_bind].
    destruct (keywords !! r) as [kw|] eqn:Hkw; intros H;
      cbn [mbind option_bind] in H; simplify_eq; [|done].
    apply keywords_notEOL in Hkw. unfold notEOL.
    cbn [forallb Token.type]. by rewrite bool_decide_eq_false_2. }
  destruct (isdigit (currentChar lx)).
  { destruct (number lx) as [[lx1 tok]|] eqn:E; [|done].
    unfold number in E.
    destruct (scan _ _ _ _) as [[lx2 r]|]; [|done].
    cbn [mbind option_bind] in E.
    destruct (if Ascii.eqb (currentChar lx2) "." then _ else _)
      as [[lx3 r3]|]; [|done].
    intros; by simplify_eq/=. }
  rewrite (isspace_LF _ Hsp).
  unfold punct, string, skipComment.
  repeat match goal with
         | |- context [if Ascii.eqb (currentChar lx) ?c then _ else _] =>
             destruct (Ascii.eqb (currentChar lx) c)
         end;
    repeat match goal with
           | |- context [scan ?p ?f ?l ?a] => destruct (scan p f l a) as [[??]|]
           end;
    intros; by simplify_eq/=.
Qed.

Lemma tokenizeLoop_notEOL fuel lx tokens lx' tokens' :
  tokenizeLoop fuel lx tokens = Some (lx', tokens') →
  forallb notEOL tokens = true → forallb notEOL tokens' = true.
Proof.
  revert lx tokens; induction fuel as [|fuel IH]; intros lx tokens; simpl;
    destruct (Ascii.eqb (currentChar lx) NUL); try (intros; by simplify_eq).
  destruct (tokenizeStep lx) as [[lx1 pushed]|] eqn:E; [|done].
  cbn [mbind option_bind]. intros Hloop Htoks.
  apply (IH _ _ Hloop). rewrite forallb_app, Htoks.
  by rewrite (tokenizeStep_notEOL _ _ _ E).
Qed.

(** *** What the scanning loop reads, in terms of the input text *)

Lemma append_cons x (a b : String.string) :
  String x a +:+ b = String x (a +:+ b).
Proof. reflexivity. Qed.

Lemma append_string1 x (b : String.string) : string1 x +:+ b = String x b.
Proof. reflexivity. Qed.

Lemma append_assoc (a b c : String.string) : (a +:+ b) +:+ c = a +:+ b +:+ c.
Proof.
  induction a as [|x a IH]; [done|]. rewrite !append_cons. by f_equal.
Qed.

Lemma append_empty_r (a : String.string) : a +:+ EmptyString = a.
Proof.
  induction a as [|x a IH]; [done|]. rewrite append_cons. by f_equal.
Qed.

Lemma get_drop n (s : String.string) :
  String.get n s
  = match string_drop n s with String c _ => Some c | EmptyString => None end.
Proof.
  revert n; induction s as [|c s IH]; intros [|n]; simpl; try done.
Qed.

Lemma drop_S n (s : String.string) :
  string_drop (S n) s
  = match string_drop n s with String _ r => r | EmptyString => EmptyString end.
Proof.
  revert n; induction s as [|c s IH]; intros [|n]; try done.
  change (string_drop (S (S n)) (String c s)) with (string_drop (S n) s).
  change (string_drop (S n) (String c s)) with (string_drop n s).
  apply IH.
Qed.

(** The scanning loop appends to [result] the text under the cursor up to
    the first NUL or the first character [p] rejects, and stops there. *)
Lemma scan_reads p fuel lx acc :
  wf lx → (remaining lx ≤ fuel)%nat →
  let stop c := isNUL c || negb (p c) in
  let text := string_drop (position lx) (source lx) in
  ∃ lx', scan p fuel lx acc = Some (lx', acc +:+ before stop text)
         ∧ moves lx lx'
         ∧ string_drop (position lx') (source lx) = from stop text.
Proof.
  intros Hwf Hfuel stop.
  revert lx acc Hwf Hfuel; induction fuel as [|fuel IH];
    intros lx acc Hwf Hfuel text; subst text.
  - exists lx. pose proof Hwf as Hcur. unfold wf in Hcur.
    rewrite get_drop in Hcur. simpl.
    destruct (Ascii.eqb (currentChar lx) NUL) eqn:Hc; simpl.
    + destruct (string_drop (position lx) (source lx)) as [|c text'];
        simpl in *.
      * rewrite append_empty_r. eauto using moves_refl.
      * subst c. unfold stop, isNUL. rewrite Hc. simpl.
        rewrite append_empty_r. eauto using moves_refl.
    + pose proof (wf_not_NUL lx Hwf Hc). unfold remaining in Hfuel. lia.
  - pose proof Hwf as Hcur. unfold wf in Hcur. rewrite get_drop in Hcur.
    pose proof (drop_S (position lx) (source lx)) as Hnext.
    simpl.
    destruct (string_drop (position lx) (source lx)) as [|c text'] eqn:Htext;
      simpl in Hcur.
    { rewrite Hcur. simpl. exists lx. rewrite append_empty_r.
      eauto using moves_refl. }
    subst c. simpl. unfold stop at 1 3, isNUL.
    destruct (Ascii.eqb (currentChar lx) NUL) eqn:Hc; simpl.
    { exists lx. rewrite append_empty_r. eauto using moves_refl. }
    destruct (p (currentChar lx)); simpl.
    2:{ exists lx. rewrite append_empty_r. eauto using moves_refl. }
    pose proof (remaining_advance lx Hwf Hc).
    destruct (IH (advance lx) (acc +:+ string1 (currentChar lx)))
      as (lx' & E & Hm & Hrest); [apply wf_advance | lia |].
    rewrite source_advance, position_advance, Hnext in E, Hrest.
    exists lx'. rewrite E, append_assoc, append_string1.
    eauto using moves_trans, moves_advance.
Qed.

Lemma from_stops stop (s : String.string) c r :
  from stop s = String c r → stop c = true ∧ occurs c s = true.
Proof.
  induction s as [|x s IH]; simpl; [done|].
  destruct (stop x) eqn:Hx.
  - intros; simplify_eq. by rewrite Ascii.eqb_refl.
  - intros [? ->]%IH. by rewrite orb_true_r.
Qed.

(** *** The states of the main loop *)

Lemma reaches_wf src lx tokens :
  reaches src lx tokens → wf lx ∧ source lx = src.
Proof.
  induction 1 as [|lx tokens lx' pushed _ [Hwf Hsrc] Hc Hstep].
  - split; [apply wf_new | done].
  - destruct (tokenizeStep_total lx Hwf Hc)
      as (lx1 & pushed1 & E & [Hwf1 Hsrc1 _] & _).
    rewrite Hstep in E. simplify_eq. split; congruence.
Qed.

Lemma tokenizeLoop_more_fuel fuel fuel' lx tokens r :
  tokenizeLoop fuel lx tokens = Some r → (fuel ≤ fuel')%nat →
  tokenizeLoop fuel' lx tokens = Some r.
Proof.
  revert fuel' lx tokens; induction fuel as [|fuel IH];
    intros fuel' lx tokens Hloop Hle; simpl in Hloop;
    destruct fuel' as [|fuel']; simpl; try lia;
    destruct (Ascii.eqb (currentChar lx) NUL); try done.
  destruct (tokenizeStep lx) as [[lx1 pushed]|]; [|done].
  cbn [mbind option_bind] in *. apply (IH _ _ _ Hloop). lia.
Qed.

(** What the loop returns from a state it reaches is what it returns from
    the start. *)
Lemma reaches_tokenizeLoop src lx tokens r :
  reaches src lx tokens →
  tokenizeLoop (remaining lx) lx tokens = Some r →
  tokenizeLoop (remaining (new src)) (new src) [] = Some r.
Proof.
  induction 1 as [|lx tokens lx' pushed Hreach IH Hc Hstep]; [done|].
  intros Hloop. apply IH.
  destruct (reaches_wf _ _ _ Hreach) as [Hwf _].
  destruct (tokenizeStep_total lx Hwf Hc)
    as (lx1 & pushed1 & E & [_ Hsrc1 _] & Hlt).
  rewrite Hstep in E. simplify_eq.
  pose proof (wf_not_NUL lx Hwf Hc).
  apply (tokenizeLoop_more_fuel (S (remaining lx1))).
  - simpl. rewrite Hc, Hstep. done.
  - unfold remaining. rewrite Hsrc1. lia.
Qed.

(** *** A string literal that is not closed *)

Lemma before_ext stop stop' (s : String.string) :
  (∀ c, occurs c s = true → stop c = stop' c) →
  before stop s = before stop' s.
Proof.
  induction s as [|x s IH]; simpl; [done|]. intros H.
  rewrite <- (H x) by (by rewrite Ascii.eqb_refl).
  destruct (stop x); [done|]. f_equal. apply IH.
  intros c Hc. apply H. by rewrite Hc, orb_true_r.
Qed.

Lemma string_unterminated lx :
  wf lx →
  let rest := string_drop (S (position lx)) (source lx) in
  occurs QUOTE rest = false →
  ∃ lx', string lx
         = Some (lx', Token.mk STRING (before isNUL rest) (line lx') (column lx))
         ∧ moves lx lx' ∧ currentChar lx' = NUL.
Proof.
  intros Hwf rest Hrest. unfold string.
  destruct (scan_reads (λ c, negb (Ascii.eqb c QUOTE))
              (remaining (advance lx)) (advance lx) EmptyString)
    as (lx1 & E & Hm & Hfrom); [apply wf_advance | done |].
  rewrite source_advance, position_advance in E, Hfrom.
  fold rest in E, Hfrom. rewrite E. cbn [mbind option_bind].
  assert (currentChar lx1 = NUL) as Hcur.
  { destruct Hm as [Hwf1 Hsrc1 _]. unfold wf in Hwf1.
    rewrite source_advance in Hsrc1.
    rewrite Hsrc1, get_drop, Hfrom in Hwf1.
    destruct (from _ rest) as [|c r] eqn:Hf; [done|].
    apply from_stops in Hf as [Hstop Hocc]. simpl in Hwf1. subst c.
    rewrite negb_involutive in Hstop.
    apply orb_true_iff in Hstop as [Hnul|Hq].
    - by apply Ascii.eqb_eq in Hnul.
    - apply Ascii.eqb_eq in Hq. congruence. }
  exists lx1. rewrite Hcur. simpl. split; [|eauto using moves_trans, moves_advance].
  do 3 f_equal. apply before_ext. intros c Hc.
  rewrite negb_involutive.
  destruct (Ascii.eqb c QUOTE) eqn:Hq; [|by rewrite orb_false_r].
  apply Ascii.eqb_eq in Hq. congruence.
Qed.

End LexerFacts.

(** C6. For every input, [tokenize] returns (the fuel of the loops is never
    exhausted), and the list it returns is not empty and ends with an
    [END_OF_FILE] token. *)
Theorem tokenize_total_ends_with_END_OF_FILE (src : string) :
  ∃ tokens eof, tokenize src = Some (tokens ++ [eof])
                ∧ Token.type eof = END_OF_FILE.
Proof.
  destruct (LexerFacts.tokenizeFrom_total (Lexer.new src))
    as (lx' & pushed & _ & E); [apply LexerFacts.wf_new|].
  unfold tokenize. rewrite E. by eexists _, _.
Qed.

(** C2 (the code does otherwise). The token list of the two-line input
    [a<newline>b] holds no [EOL] token, and no input at all makes
    [tokenize] return one: the white-space test that opens the loop
    swallows every newline before the [case '\n'] can see it. *)
Theorem newline_gives_no_EOL_token :
  tokenize ("a" +:+ nl +:+ "b")
  = Some [ Token.mk IDENTIFIER "a" 2 1; Token.mk IDENTIFIER "b" 2 2;
           Token.mk END_OF_FILE "" 2 2 ]
  ∧ ∀ src, forallb notEOL <$> tokenize src = Some true.
Proof.
  split; [by vm_compute|]. intros src. unfold tokenize.
  destruct (LexerFacts.tokenizeFrom_total (Lexer.new src))
    as (lx' & pushed & Hloop & ->); [apply LexerFacts.wf_new|].
  simpl. f_equal. rewrite forallb_app.
  by rewrite (LexerFacts.tokenizeLoop_notEOL _ _ _ _ _ Hloop).
Qed.

(** C5 (the code does otherwise). In the input of two spaces, [ab], a
    newline and [c], the token [ab] is stamped with the line the cursor
    reached after the lexeme and the column where the lexeme began, (2, 3);
    the next token [c] is at (2, 2): the positions go down. *)
Theorem token_positions_decrease :
  tokenize ("  ab" +:+ nl +:+ "c")
  = Some [ Token.mk IDENTIFIER "ab" 2 3; Token.mk IDENTIFIER "c" 2 2;
           Token.mk END_OF_FILE "" 2 2 ]
  ∧ positions_nondecreasing <$> tokenize ("  ab" +:+ nl +:+ "c") = Some false.
Proof. split; by vm_compute. Qed.

(** C10 (as stated it fails on an input with a NUL byte). The claim reads:
    when the loop of [tokenize] meets a double quote and no other double
    quote follows, the list returned is the tokens pushed so far, a [STRING]
    token whose lexeme is all the input after the quote, and
    [END_OF_FILE].  The input of a quote, [a], a NUL byte and [b] refutes
    it: NUL is the lexer's end-of-input sentinel, and the lexeme is [a]. *)
Lemma unterminated_string_whole_rest_fails :
  ¬ (∀ src lx tokens,
       Lexer.reaches src lx tokens →
       Lexer.currentChar lx = QUOTE →
       occurs QUOTE (string_drop (S (Lexer.position lx)) src) = false →
       ∃ l c eof,
         tokenize src
         = Some (tokens
                 ++ [Token.mk STRING (string_drop (S (Lexer.position lx)) src) l c;
                     eof])
         ∧ Token.type eof = END_OF_FILE).
Proof.
  intros H.
  destruct (H (String QUOTE (String "a" (String NUL "b")))
              (Lexer.new _) [] (Lexer.reaches_start _) eq_refl eq_refl)
    as (l & c & eof & Htok & _).
  vm_compute in Htok. discriminate Htok.
Qed.

(** C10, amended. When the loop of [tokenize] meets a double quote and no
    other double quote follows, [tokenize] returns the tokens pushed so
    far, then a [STRING] token whose lexeme is the input after the quote up
    to its first NUL byte (all of it when it has none), then
    [END_OF_FILE]. *)
Theorem unterminated_string_is_STRING_then_END_OF_FILE src lx tokens :
  Lexer.reaches src lx tokens →
  Lexer.currentChar lx = QUOTE →
  occurs QUOTE (string_drop (S (Lexer.position lx)) src) = false →
  ∃ l c eof,
    tokenize src
    = Some (tokens
            ++ [Token.mk STRING
                  (before isNUL (string_drop (S (Lexer.position lx)) src)) l c;
                eof])
    ∧ Token.type eof = END_OF_FILE.
Proof.
  intros Hreach Hquote Hrest.
  destruct (LexerFacts.reaches_wf _ _ _ Hreach) as [Hwf Hsrc].
  rewrite <- Hsrc in Hrest.
  destruct (LexerFacts.string_unterminated lx Hwf Hrest)
    as (lx' & Hstring & Hmoves & Hcur).
  rewrite Hsrc in Hstring.
  assert (Ascii.eqb (Lexer.currentChar lx) NUL = false) as Hc
    by (by rewrite Hquote).
  assert (Lexer.tokenizeStep lx
          = '(lx1, tok) ← Lexer.string lx; Some (lx1, [tok])) as Hstep
    by (unfold Lexer.tokenizeStep; by rewrite Hquote).
  rewrite Hstring in Hstep. cbn [mbind option_bind] in Hstep.
  pose proof (LexerFacts.wf_not_NUL lx Hwf Hc) as Hlt.
  assert (Lexer.tokenizeLoop (Lexer.remaining lx) lx tokens
          = Some (lx', tokens ++
                    [Token.mk STRING
                       (before isNUL (string_drop (S (Lexer.position lx)) src))
                       (Lexer.line lx') (Lexer.column lx)])) as Hloop.
  { apply (LexerFacts.tokenizeLoop_more_fuel 1);
      [|unfold Lexer.remaining; lia].
    simpl. rewrite Hc, Hstep. cbn [mbind option_bind]. by rewrite Hcur. }
  apply (LexerFacts.reaches_tokenizeLoop _ _ _ _ Hreach) in Hloop.
  unfold tokenize, Lexer.tokenizeFrom. rewrite Hloop.
  cbn [mbind option_bind]. rewrite <- app_assoc. by eexists _, _, _.
Qed.

(** On the input [say], a space, a quote and [hi there]: the loop meets the
    quote on its third turn. *)
Lemma unterminated_string_witness :
  ∃ l c eof,
    tokenize ("say " +:+ String QUOTE "hi there")
    = Some ([Token.mk IDENTIFIER "say" 1 1]
            ++ [Token.mk STRING "hi there" l c; eof])
    ∧ Token.type eof = END_OF_FILE.
Proof.
  refine (unterminated_string_is_STRING_then_END_OF_FILE
            ("say " +:+ String QUOTE "hi there")
            (Lexer.mk ("say " +:+ String QUOTE "hi there") 4 1 5 QUOTE)
            [Token.mk IDENTIFIER "say" 1 1] _ eq_refl eq_refl).
  refine (Lexer.reaches_turn _ _ _ _ []
            (Lexer.reaches_turn _ _ [] _ [Token.mk IDENTIFIER "say" 1 1]
               (Lexer.reaches_start _) _ _) _ _);
    reflexivity.
Defined.


(** ** Parser: the shape of the trees *)

(** C4 (as stated it fails). The tree of [a is b is c] is not the
    right-leaning [Assign(a, Assign(b, c))]. *)
Lemma assignment_chain_is_not_right_leaning :
  programOf (parseSource "a is b is c")
  ≠ Some (ProgramNode
            [BinaryOpNode Assign (IdentifierNode "a") (binary Assign "b" "c")]).
Proof. vm_compute. discriminate. Qed.

(** C4, amended. Parsing [a is b is c] yields [Assign(Assign(a, b), c)]:
    the loop of [parseExpression] folds to the left, so the outer Assign
    has the Assign of [a] and [b] as its left child and the identifier [c]
    as its right child; nothing is written to [std::cerr]. *)
Theorem assignment_chain_leans_left :
  parseSource "a is b is c"
  = Parser.Ok
      (ProgramNode
         [BinaryOpNode Assign (binary Assign "a" "b") (IdentifierNode "c")],
       []).
Proof. by vm_compute. Qed.

(** C8. The glue words [than] and [by] are read and dropped:
    [a greater than b] and [a greater b] give the same tree [Gt(a, b)],
    [a less than b] and [a less b] give [Lt(a, b)], and [a divided by b]
    and [a divided b] give [Div(a, b)]. *)
Theorem glue_words_are_absorbed :
  (parseSource "a greater than b" = parseSource "a greater b"
   ∧ parseSource "a greater b"
     = Parser.Ok (ProgramNode [binary Greater "a" "b"], []))
  ∧ (parseSource "a less than b" = parseSource "a less b"
     ∧ parseSource "a less b"
       = Parser.Ok (ProgramNode [binary Less "a" "b"], []))
  ∧ (parseSource "a divided by b" = parseSource "a divided b"
     ∧ parseSource "a divided b"
       = Parser.Ok (ProgramNode [binary Divide "a" "b"], [])).
Proof.
  refine (conj (conj _ _) (conj (conj _ _) (conj _ _)));
    vm_compute; reflexivity.
Qed.

(** The parser alone does recover at an [EOL] token: given the tokens of
    [var x is], an [EOL] token and the tokens of [print x], it reports the
    error at the [EOL] and keeps the second statement. *)
Lemma parser_recovers_at_EOL_token :
  parse [ Token.mk VARIABLE "var" 1 1; Token.mk IDENTIFIER "x" 1 5;
          Token.mk ASSIGN "is" 1 7; Token.mk EOL nl 1 9;
          Token.mk PRINT "print" 2 1; Token.mk IDENTIFIER "x" 2 7;
          Token.mk END_OF_FILE "" 2 8 ]
  = Parser.Ok
      (ProgramNode [PrintNode (Some (IdentifierNode "x"))],
       [Parser.diagnostic 1 9 ("Unexpected token: " +:+ nl)]).
Proof. by vm_compute. Qed.

(** C3 (the code does otherwise). The first line of the input [var x is],
    newline, [print x] fails to parse and the second line is a well-formed
    statement, yet the program returned is empty: the lexer gives the
    parser no [EOL] token, so the recovery loop skips to the end of file
    and the statement [print x] is lost with the failed one. *)
Theorem statement_after_parse_error_is_lost :
  tokenize ("var x is" +:+ nl +:+ "print x")
  = Some [ Token.mk VARIABLE "var" 1 1; Token.mk IDENTIFIER "x" 1 5;
           Token.mk ASSIGN "is" 2 7; Token.mk PRINT "print" 2 2;
           Token.mk IDENTIFIER "x" 2 8; Token.mk END_OF_FILE "" 2 8 ]
  ∧ parseSource ("var x is" +:+ nl +:+ "print x")
    = Parser.Ok
        (ProgramNode [],
         [Parser.diagnostic 2 2 "Unexpected token: print"]).
Proof. split; by vm_compute. Qed.


(** ** Code generator: what a visit does to the generator *)

Module GeneratorFacts.
Import IR CodeGenerator.

Lemma bind_Done {A B} (m : G A) (k : A → G B) g b g' :
  (m ≫= k) g = Done b g' → ∃ a g1, m g = Done a g1 ∧ k a g1 = Done b g'.
Proof. unfold mbind, G_bind. destruct (m g); [eauto | done]. Qed.

(** Take the first step off a run that is known to end. *)
Ltac step H a g E :=
  apply bind_Done in H as (a & g & E & H).

(** *** The symbol table around a function *)

Section Scope.
Context {naming : Naming}.

Lemma FunctionCreate_namedValues name ret arity g f g' :
  FunctionCreate name ret arity g = Done f g' → namedValues g' = namedValues g.
Proof. by intros [= <- <-]. Qed.

Lemma BasicBlockCreate_namedValues label function g b g' :
  BasicBlockCreate label function g = Done b g' →
  namedValues g' = namedValues g.
Proof. destruct function; by intros [= <- <-]. Qed.

End Scope.

(** *** Requests are only added *)

(** Whatever [m] does, the requests made before it stay, in order. *)
Definition grows {A} (m : G A) : Prop :=
  ∀ g a g', m g = Done a g' → ∃ more, emitted g' = emitted g ++ more.

(** ... and [keeps m] when it makes none. *)
Definition keeps {A} (m : G A) : Prop :=
  ∀ g a g', m g = Done a g' → emitted g' = emitted g.

Lemma grows_run {A} (m : G A) g a g' :
  m g = Done a g' → grows m → ∃ more, emitted g' = emitted g ++ more.
Proof. intros H Hm. eauto. Qed.

Lemma keeps_grows {A} (m : G A) : keeps m → grows m.
Proof. intros H g a g' E. exists []. rewrite app_nil_r. eauto. Qed.

Lemma keeps_ret {A} (a : A) : keeps (mret a).
Proof. by intros g a' g' [= <- <-]. Qed.

Lemma keeps_bind {A B} (m : G A) (k : A → G B) :
  keeps m → (∀ a, keeps (k a)) → keeps (m ≫= k).
Proof.
  intros Hm Hk g b g' H. step H a g1 E.
  rewrite (Hk _ _ _ _ H). eauto.
Qed.

Lemma grows_ret {A} (a : A) : grows (mret a).
Proof. apply keeps_grows, keeps_ret. Qed.

Lemma grows_bind {A B} (m : G A) (k : A → G B) :
  grows m → (∀ a, grows (k a)) → grows (m ≫= k).
Proof.
  intros Hm Hk g b g' H. step H a g1 E.
  destruct (Hm _ _ _ E) as [l1 E1]. destruct (Hk _ _ _ _ H) as [l2 E2].
  exists (l1 ++ l2). by rewrite E2, E1, app_assoc.
Qed.

Lemma keeps_read {A} (f : t → A) : keeps (λ g, Done (f g) g).
Proof. by intros g a g' [= <- <-]. Qed.

Lemma keeps_getCurrentValue : keeps getCurrentValue.
Proof. apply keeps_read. Qed.

Lemma keeps_getNamedValues : keeps getNamedValues.
Proof. apply keeps_read. Qed.

Lemma keeps_fault {A} : keeps (@fault A).
Proof. by intros g a g'. Qed.

Lemma keeps_setFunctions fs : keeps (setFunctions fs).
Proof. by intros g a g' [= <- <-]. Qed.

Lemma keeps_setBasicBlocks bs : keeps (setBasicBlocks bs).
Proof. by intros g a g' [= <- <-]. Qed.

Lemma keeps_SetInsertPoint b : keeps (SetInsertPoint b).
Proof. by intros g a g' [= <- <-]. Qed.

Lemma keeps_setNamedValues m : keeps (setNamedValues m).
Proof. by intros g a g' [= <- <-]. Qed.

Lemma keeps_setCurrentValue v : keeps (setCurrentValue v).
Proof. by intros g a g' [= <- <-]. Qed.

Lemma keeps_report line : keeps (report line).
Proof. by intros g a g' [= <- <-]. Qed.

Lemma keeps_namedValuesAt name : keeps (namedValuesAt name).
Proof.
  intros g a g'. unfold namedValuesAt.
  destruct (namedValues g !! name); by intros [= <- <-].
Qed.

Lemma keeps_bindName name v : keeps (bindName name v).
Proof. by intros g a g' [= <- <-]. Qed.

Lemma keeps_typeOf v : keeps (typeOf v).
Proof.
  unfold typeOf. destruct (getType v); [apply keeps_ret | apply keeps_fault].
Qed.

Lemma keeps_needInsertBlock : keeps needInsertBlock.
Proof.
  intros g a g'. unfold needInsertBlock.
  destruct (insertBlock g); by intros [= <- <-].
Qed.

Lemma keeps_terminated : keeps terminated.
Proof.
  intros g a g'. unfold terminated.
  destruct (insertBlock g); by intros [= <- <-].
Qed.

Lemma keeps_insertBlockParent : keeps insertBlockParent.
Proof.
  intros g a g'. unfold insertBlockParent.
  destruct (insertBlock g); by intros [= <- <-].
Qed.

Lemma keeps_getEntryBlock function : keeps (getEntryBlock function).
Proof.
  intros g a g'. unfold getEntryBlock.
  destruct (_ ≫= _); by intros [= <- <-].
Qed.

Lemma keeps_insertInto block function : keeps (insertInto block function).
Proof.
  intros g a g'. unfold insertInto.
  destruct function; by intros [= <- <-].
Qed.

Lemma keeps_BasicBlockCreate label function :
  keeps (BasicBlockCreate label function).
Proof.
  intros g a g'. unfold BasicBlockCreate.
  destruct function; by intros [= <- <-].
Qed.

Lemma keeps_FunctionCreate {naming : Naming} name ret arity :
  keeps (FunctionCreate name ret arity).
Proof. by intros g a g' [= <- <-]. Qed.

Lemma add_Done place req g n g' :
  add place req g = Done n g' →
  n = length (emitted g) ∧ emitted g' = emitted g ++ [emit place req].
Proof. by intros [= <- <-]. Qed.

Lemma grows_add place req : grows (add place req).
Proof. intros g n g' [_ ->]%add_Done. eauto. Qed.

Lemma grows_Insert req ty : grows (Insert req ty).
Proof.
  intros g v g' H. unfold Insert in H. step H n g1 E.
  injection H as _ <-. eapply grows_add, E.
Qed.

Create HintDb grows.

#[local] Hint Resolve keeps_grows keeps_ret keeps_read keeps_fault
  keeps_getCurrentValue keeps_getNamedValues
  keeps_setFunctions keeps_setBasicBlocks keeps_SetInsertPoint
  keeps_setNamedValues keeps_setCurrentValue keeps_report
  keeps_namedValuesAt keeps_bindName keeps_typeOf keeps_needInsertBlock
  keeps_terminated keeps_insertBlockParent keeps_getEntryBlock
  keeps_insertInto keeps_BasicBlockCreate keeps_FunctionCreate
  grows_add grows_Insert grows_ret : grows.

(** Goes through a computation made of binds, tests and the steps above. *)
Ltac grows :=
  repeat first
    [ assumption
    | solve [auto with grows]
    | apply grows_bind; [|intros]
    | match goal with
      | |- grows (if ?b then _ else _) => destruct b
      | |- grows (match ?x with _ => _ end) => destruct x
      end ].

Lemma grows_Fold req ty : grows (Fold req ty).
Proof. unfold Fold. grows. Qed.

Lemma grows_createArithmetic req l r : grows (createArithmetic req l r).
Proof. pose proof grows_Fold. unfold createArithmetic. grows. Qed.

Lemma grows_createCompare req l r : grows (createCompare req l r).
Proof. pose proof grows_Fold. unfold createCompare. grows. Qed.

Lemma grows_createStore val ptr : grows (createStore val ptr).
Proof. unfold createStore. grows. Qed.

Lemma grows_createLoad ptr name : grows (createLoad ptr name).
Proof. unfold createLoad. grows. Qed.

Lemma grows_createAlloca name : grows (createAlloca name).
Proof. unfold createAlloca. grows. Qed.

Lemma grows_createAllocaAtStart entry name :
  grows (createAllocaAtStart entry name).
Proof. unfold createAllocaAtStart. grows. Qed.

Lemma grows_createGlobalStringPtr str name :
  grows (createGlobalStringPtr str name).
Proof. unfold createGlobalStringPtr. grows. Qed.

Lemma grows_createCall callee args name : grows (createCall callee args name).
Proof.
  intros g v g'. unfold createCall. destruct callee as [f|]; [|done].
  destruct (functions g !! f); [apply grows_Insert | done].
Qed.

Lemma grows_createBr dest : grows (createBr dest).
Proof. unfold createBr. grows. Qed.

Lemma grows_createCondBr cond ifTrue ifFalse :
  grows (createCondBr cond ifTrue ifFalse).
Proof. unfold createCondBr. grows. Qed.

Lemma grows_createRet v : grows (createRet v).
Proof. unfold createRet. grows. Qed.

#[local] Hint Resolve grows_Fold grows_createArithmetic grows_createCompare
  grows_createStore grows_createLoad grows_createAlloca
  grows_createAllocaAtStart grows_createGlobalStringPtr grows_createCall
  grows_createBr grows_createCondBr grows_createRet : grows.

Section Visit.
Context {naming : Naming}.

Lemma grows_condition v name : grows (condition v name).
Proof. unfold condition. grows. Qed.

Lemma grows_acceptEach accept statements :
  Forall (λ node, grows (accept node)) statements →
  grows (acceptEach accept statements).
Proof. induction 1; simpl; grows. Qed.

Lemma grows_acceptArguments accept arguments argsV :
  Forall (λ node, grows (accept node)) arguments →
  grows (acceptArguments accept arguments argsV).
Proof. intros H. revert argsV. induction H; intros argsV; simpl; grows. Qed.

Lemma grows_acceptBlock accept block :
  from_option (Forall (λ node, grows (accept node))) True block →
  grows (acceptBlock accept block).
Proof.
  destruct block; simpl; [apply grows_acceptEach | intros _; grows].
Qed.

Lemma grows_bindArguments function parameters given idx :
  grows (bindArguments function parameters given idx).
Proof.
  revert idx. induction parameters as [|p rest IH]; intros idx; simpl; grows.
Qed.

Lemma grows_enterLoop : grows enterLoop.
Proof. unfold enterLoop. grows. Qed.

#[local] Hint Resolve grows_condition grows_acceptEach grows_acceptArguments
  grows_acceptBlock grows_bindArguments grows_enterLoop : grows.

(** A visit only adds requests. *)
Lemma grows_visit node : grows (visit node).
Proof.
  induction node as
    [ statements IH | statements IH | name isConstant init IH
    | operation l r IHl IHr | value | value | name
    | name parameters body IH | callee arguments IH
    | cond thenBlock elseBlock IHc IHt IHe | cond body IHc IHb
    | expression IH | value IH ] using Node_ind.
  - by apply grows_acceptEach.
  - by apply grows_acceptEach.
  - change (grows (visitVariableDeclaration visit name init)).
    unfold visitVariableDeclaration. destruct init; simpl in IH; grows.
  - change (grows (visitBinaryOp visit operation l r)).
    unfold visitBinaryOp, generateBinaryOp. grows.
  - change (grows (visitNumber value)). unfold visitNumber. grows.
  - change (grows (visitString value)). unfold visitString. grows.
  - change (grows (visitIdentifier name)). unfold visitIdentifier. grows.
  - change (grows (visitFunction visit name parameters body)).
    unfold visitFunction. pose proof (grows_acceptBlock visit body IH). grows.
  - change (grows (visitCall visit callee arguments)).
    unfold visitCall.
    pose proof (λ argsV, grows_acceptArguments visit arguments argsV IH).
    grows.
  - change (grows (visitIf visit cond thenBlock elseBlock)).
    unfold visitIf.
    pose proof (grows_acceptBlock visit thenBlock IHt).
    pose proof (grows_acceptBlock visit elseBlock IHe). grows.
  - change (grows (visitWhile visit cond body)).
    unfold visitWhile. pose proof (grows_acceptBlock visit body IHb). grows.
  - change (grows (visitPrint visit expression)).
    unfold visitPrint. destruct expression; simpl in IH; grows.
  - change (grows (visitReturn visit value)).
    unfold visitReturn. destruct value; simpl in IH; grows.
Qed.

Lemma grows_acceptBlock_visit block : grows (acceptBlock visit block).
Proof.
  apply grows_acceptBlock. destruct block as [statements|]; [|done].
  apply Forall_true, grows_visit.
Qed.

(** *** The coercion of a condition *)

Lemma condition_Done v name g c g' :
  condition v name g = Done c g' →
  ∃ ty, getType v = Some ty
        ∧ branchesOn v ty (length (emitted g)) c
        ∧ requests g' = requests g ++ coercion v ty name.
Proof.
  unfold condition, createCompare, typeOf, branchesOn, coercion, requests.
  destruct (getType v) as [ty|] eqn:Hty; [|done]. intros H. exists ty.
  split; [done|].
  step H ty' g1 E. injection E as <- <-.
  destruct (decide (ty = Int1Ty)) as [->|Hne].
  - injection H as <- <-. by rewrite app_nil_r.
  - rewrite bool_decide_eq_true_2 in H by done.
    rewrite bool_decide_eq_false_2 by done.
    step H ty' g1 E. injection E as _ <-.
    destruct (isConstantDouble v && isConstantDouble (ConstantFP 0));
      injection H as <- <-; cbn; rewrite fmap_app; auto.
Qed.

Lemma createCondBr_Done c ifTrue ifFalse g u g' :
  createCondBr c ifTrue ifFalse g = Done u g' →
  requests g' = requests g ++ [CreateCondBr c ifTrue ifFalse].
Proof.
  intros H. unfold createCondBr in H. step H v g1 E.
  unfold Insert in E. step E n g2 E2.
  apply add_Done in E2 as [_ E2]. unfold mret, G_ret in *. simplify_eq.
  unfold requests. by rewrite E2, fmap_app.
Qed.

(** The requests of a visit of an If node, around its branch. *)
Lemma visitIf_requests cond thenBlock elseBlock g g' :
  visit (IfNode cond thenBlock elseBlock) g = Done tt g' →
  ∃ g1 ty c thenBB elseBB rest,
    visit cond g = Done tt g1
    ∧ getType (currentValue g1) = Some ty
    ∧ branchesOn (currentValue g1) ty (length (emitted g1)) c
    ∧ requests g' = requests g1 ++ coercion (currentValue g1) ty "ifcond"
                    ++ CreateCondBr c thenBB elseBB :: rest.
Proof.
  intros H.
  change (visitIf visit cond thenBlock elseBlock g = Done tt g') in H.
  unfold visitIf in H.
  step H u1 g1 Hcond. destruct u1.
  step H v g1' Hv. injection Hv as <- <-.
  step H c g2 Hc.
  step H function g3 Hparent.
  step H thenBB g4 Hthen.
  step H elseBB g5 Helse.
  step H mergeBB g6 Hmerge.
  step H u7 g7 Hbr.
  apply condition_Done in Hc as (ty & Hty & Hon & Hreq).
  apply createCondBr_Done in Hbr.
  apply keeps_insertBlockParent in Hparent.
  apply keeps_BasicBlockCreate in Hthen, Helse, Hmerge.
  pose proof grows_acceptBlock_visit as Hblock.
  apply grows_run in H as [more Hmore]; [|grows].
  exists g1, ty, c, thenBB, elseBB, (request <$> more).
  repeat split; [done..|].
  unfold requests in *.
  rewrite Hmore, fmap_app, Hbr, Hmerge, Helse, Hthen, Hparent, Hreq.
  by rewrite <- !app_assoc.
Qed.

(** The requests of a visit of a While node, around its branch. *)
Lemma visitWhile_requests cond body g g' :
  visit (WhileNode cond body) g = Done tt g' →
  ∃ function condBB loopBB afterBB g0 g1 ty c rest,
    enterLoop g = Done (function, condBB, loopBB, afterBB) g0
    ∧ visit cond g0 = Done tt g1
    ∧ getType (currentValue g1) = Some ty
    ∧ branchesOn (currentValue g1) ty (length (emitted g1)) c
    ∧ requests g' = requests g1 ++ coercion (currentValue g1) ty "loopcond"
                    ++ CreateCondBr c loopBB afterBB :: rest.
Proof.
  intros H.
  change (visitWhile visit cond body g = Done tt g') in H.
  unfold visitWhile in H.
  step H blocks g0 Henter.
  destruct blocks as [[[function condBB] loopBB] afterBB].
  step H u1 g1 Hcond. destruct u1.
  step H v g1' Hv. injection Hv as <- <-.
  step H c g2 Hc.
  step H u3 g3 Hbr.
  apply condition_Done in Hc as (ty & Hty & Hon & Hreq).
  apply createCondBr_Done in Hbr.
  pose proof grows_acceptBlock_visit as Hblock.
  apply grows_run in H as [more Hmore]; [|grows].
  exists function, condBB, loopBB, afterBB, g0, g1, ty, c, (request <$> more).
  repeat split; [done..|].
  unfold requests in *.
  rewrite Hmore, fmap_app, Hbr, Hreq.
  by rewrite <- !app_assoc.
Qed.

End Visit.

End GeneratorFacts.

(** C9. A visit of a Function node that returns leaves [namedValues] as it
    found it: the map is saved and cleared on entry (the arguments are
    bound and the body is visited starting from the empty map) and the
    saved map is put back on exit, so the bindings of parameters and
    variables made inside do not leak out. *)
Theorem function_visit_restores_namedValues {naming : IR.Naming}
    name parameters body g g' :
  CodeGenerator.visit (FunctionNode name parameters body) g
  = CodeGenerator.Done tt g' →
  CodeGenerator.namedValues g' = CodeGenerator.namedValues g
  ∧ ∃ function g0 g1 g2,
      CodeGenerator.namedValues g0 = ∅
      ∧ CodeGenerator.bindArguments function parameters
          (IR.argumentNames parameters) 0 g0
        = CodeGenerator.Done tt g1
      ∧ CodeGenerator.acceptBlock CodeGenerator.visit body g1
        = CodeGenerator.Done tt g2.
Proof.
  intros H.
  change (CodeGenerator.visitFunction CodeGenerator.visit name parameters body g
          = CodeGenerator.Done tt g') in H.
  unfold CodeGenerator.visitFunction in H.
  GeneratorFacts.step H function g1 Hcreate.
  GeneratorFacts.step H entryBB g2 Hentry.
  GeneratorFacts.step H u3 g3 Hpoint.
  GeneratorFacts.step H old g4 Hsave.
  GeneratorFacts.step H u5 g5 Hclear.
  GeneratorFacts.step H u6 g6 Hargs. destruct u6.
  GeneratorFacts.step H u7 g7 Hbody. destruct u7.
  GeneratorFacts.step H isTerminated g8 Hterm.
  GeneratorFacts.step H u9 g9 Hret.
  unfold CodeGenerator.setNamedValues in H, Hclear.
  unfold CodeGenerator.getNamedValues in Hsave.
  unfold CodeGenerator.SetInsertPoint in Hpoint.
  simplify_eq. simpl. split.
  - rewrite (GeneratorFacts.BasicBlockCreate_namedValues _ _ _ _ _ Hentry).
    apply (GeneratorFacts.FunctionCreate_namedValues _ _ _ _ _ _ Hcreate).
  - eexists function, _, g6, g7. split; [|split; [exact Hargs | exact Hbody]].
    reflexivity.
Qed.

(** C7. In a visit of an If node that returns, the condition is visited
    first; with [v] the value it leaves, of type [ty], the requests that
    follow those of the condition are: nothing if [ty] is the 1-bit
    boolean type, else the one comparison [v != 0.0] named [ifcond]; then
    the conditional branch, on [v] itself in the first case and on the
    answer to the comparison in the second.  A While node does the same,
    under the name [loopcond], once it has branched to its condition
    block. *)
Theorem condition_is_coerced_once {naming : IR.Naming} :
  (∀ cond thenBlock elseBlock g g',
     CodeGenerator.visit (IfNode cond thenBlock elseBlock) g
     = CodeGenerator.Done tt g' →
     ∃ g1 ty c thenBB elseBB rest,
       CodeGenerator.visit cond g = CodeGenerator.Done tt g1
       ∧ IR.getType (CodeGenerator.currentValue g1) = Some ty
       ∧ CodeGenerator.branchesOn (CodeGenerator.currentValue g1) ty
           (length (CodeGenerator.emitted g1)) c
       ∧ CodeGenerator.requests g'
         = CodeGenerator.requests g1
           ++ CodeGenerator.coercion (CodeGenerator.currentValue g1) ty "ifcond"
           ++ IR.CreateCondBr c thenBB elseBB :: rest)
  ∧ (∀ cond body g g',
     CodeGenerator.visit (WhileNode cond body) g
     = CodeGenerator.Done tt g' →
     ∃ function condBB loopBB afterBB g0 g1 ty c rest,
       CodeGenerator.enterLoop g
       = CodeGenerator.Done (function, condBB, loopBB, afterBB) g0
       ∧ CodeGenerator.visit cond g0 = CodeGenerator.Done tt g1
       ∧ IR.getType (CodeGenerator.currentValue g1) = Some ty
       ∧ CodeGenerator.branchesOn (CodeGenerator.currentValue g1) ty
           (length (CodeGenerator.emitted g1)) c
       ∧ CodeGenerator.requests g'
         = CodeGenerator.requests g1
           ++ CodeGenerator.coercion (CodeGenerator.currentValue g1) ty
                "loopcond"
           ++ IR.CreateCondBr c loopBB afterBB :: rest).
Proof.
  split; [apply GeneratorFacts.visitIf_requests
        | apply GeneratorFacts.visitWhile_requests].
Qed.

(** *** The generator at work inside a function *)

(** [insideFunction] is where [visit(FunctionNode&)] stands when it turns
    to the body of [function f(x) { .. }]. *)
Example insideFunction_reached :
  (CodeGenerator.declareStandardFunctions (naming := IR.namesAsAsked);;
   function ← CodeGenerator.FunctionCreate (naming := IR.namesAsAsked)
                "f" IR.DoubleTy 1;
   entryBB ← CodeGenerator.BasicBlockCreate "entry" (Some function);
   CodeGenerator.SetInsertPoint entryBB;;
   CodeGenerator.setNamedValues ∅;;
   CodeGenerator.bindArguments function ["x"] ["x"] 0)
    (CodeGenerator.mk [] [] None [] ∅ IR.Null [])
  = CodeGenerator.Done tt insideFunction.
Proof. by vm_compute. Qed.

(** The value of [x] is a [double]: one comparison with 0.0, and the
    branch is on its answer. *)
Example ifOnNumber_requests :
  drop 2 (CodeGenerator.requests afterIfOnNumber)
  = [ IR.CreateLoad (IR.Instruction 0 IR.PointerTy) "x";
      IR.CreateFCmpONE (IR.Instruction 2 IR.DoubleTy) (IR.ConstantFP 0)
        "ifcond";
      IR.CreateCondBr (IR.Instruction 3 IR.Int1Ty) 1 2;
      IR.CreateCall 0 [IR.ConstantFP 1] "";
      IR.CreateBr 3;
      IR.CreateBr 3 ].
Proof. reflexivity. Qed.

(** The value of [x less than 3] is a 1-bit boolean: the branch is on it,
    with no comparison added. *)
Example whileOnComparison_requests :
  drop 2 (CodeGenerator.requests afterWhileOnComparison)
  = [ IR.CreateBr 1;
      IR.CreateLoad (IR.Instruction 0 IR.PointerTy) "x";
      IR.CreateFCmpOLT (IR.Instruction 3 IR.DoubleTy) (IR.ConstantFP 3)
        "lttmp";
      IR.CreateCondBr (IR.Instruction 4 IR.Int1Ty) 2 3;
      IR.CreateLoad (IR.Instruction 0 IR.PointerTy) "x";
      IR.CreateCall 0 [IR.Instruction 6 IR.DoubleTy] "";
      IR.CreateBr 1 ].
Proof. reflexivity. Qed.

(** The theorem at work on [if x { print 1 }] and on
    [while x less than 3 { print x }], inside [function f(x) {]. *)
Lemma condition_is_coerced_once_witness :
  (∃ g1 ty c thenBB elseBB rest,
     CodeGenerator.visit (naming := IR.namesAsAsked)
       (IdentifierNode "x") insideFunction = CodeGenerator.Done tt g1
     ∧ IR.getType (CodeGenerator.currentValue g1) = Some ty
     ∧ CodeGenerator.branchesOn (CodeGenerator.currentValue g1) ty
         (length (CodeGenerator.emitted g1)) c
     ∧ CodeGenerator.requests afterIfOnNumber
       = CodeGenerator.requests g1
         ++ CodeGenerator.coercion (CodeGenerator.currentValue g1) ty "ifcond"
         ++ IR.CreateCondBr c thenBB elseBB :: rest)
  ∧ (∃ function condBB loopBB afterBB g0 g1 ty c rest,
     CodeGenerator.enterLoop insideFunction
     = CodeGenerator.Done (function, condBB, loopBB, afterBB) g0
     ∧ CodeGenerator.visit (naming := IR.namesAsAsked)
         (BinaryOpNode Less (IdentifierNode "x") (NumberNode 3)) g0
       = CodeGenerator.Done tt g1
     ∧ IR.getType (CodeGenerator.currentValue g1) = Some ty
     ∧ CodeGenerator.branchesOn (CodeGenerator.currentValue g1) ty
         (length (CodeGenerator.emitted g1)) c
     ∧ CodeGenerator.requests afterWhileOnComparison
       = CodeGenerator.requests g1
         ++ CodeGenerator.coercion (CodeGenerator.currentValue g1) ty
              "loopcond"
         ++ IR.CreateCondBr c loopBB afterBB :: rest).
Proof.
  split.
  - apply (proj1 (condition_is_coerced_once (naming := IR.namesAsAsked))
             (IdentifierNode "x") (Some [PrintNode (Some (NumberNode 1))])
             None insideFunction afterIfOnNumber).
    vm_compute. reflexivity.
  - apply (proj2 (condition_is_coerced_once (naming := IR.namesAsAsked))
             (BinaryOpNode Less (IdentifierNode "x") (NumberNode 3))
             (Some [PrintNode (Some (IdentifierNode "x"))])
             insideFunction afterWhileOnComparison).
    vm_compute. reflexivity.
Defined.

Example afterUnknownVariable_reached :
  CodeGenerator.generate (naming := IR.namesAsAsked)
    (ProgramNode [IdentifierNode "y"])
  = CodeGenerator.Done tt afterUnknownVariable.
Proof. by vm_compute. Qed.

(** The theorem at work on [function f(a) { var x is a  return x }],
    visited with [y] in the symbol table: [a] and [x] are gone after the
    visit and [y] is back. *)
Lemma function_visit_restores_namedValues_witness :
  CodeGenerator.visit (naming := IR.namesAsAsked)
    functionWithLocal afterUnknownVariable
  = CodeGenerator.Done tt afterFunctionWithLocal
  ∧ CodeGenerator.namedValues afterFunctionWithLocal = {[ "y" := IR.Null ]}.
Proof.
  assert (CodeGenerator.visit (naming := IR.namesAsAsked)
            functionWithLocal afterUnknownVariable
          = CodeGenerator.Done tt afterFunctionWithLocal) as H
    by (vm_compute; reflexivity).
  exact (conj H
           (proj1 (function_visit_restores_namedValues
                     (naming := IR.namesAsAsked)
                     "f" ["a"] _ afterUnknownVariable afterFunctionWithLocal
                     H))).
Defined.

(** The same two statements inside a function are lowered: the slot, the
    store of the folded sum, the load and the call of [printDouble]. *)
Example scenario_1_inside_a_function :
  (match compile (naming := IR.namesAsAsked)
           "function main() { var x is 40 plus 2 print x }" with
   | Some (CodeGenerator.Done _ g) => Some (CodeGenerator.emitted g)
   | _ => None
   end)
  = Some
      [ IR.emit IR.Nowhere
          (IR.CreateFAdd (IR.ConstantFP 40) (IR.ConstantFP 2) "addtmp");
        IR.emit (IR.AtStart 0) (IR.CreateAlloca "x");
        IR.emit (IR.AtEnd 0)
          (IR.CreateStore (IR.Constant 0 IR.DoubleTy)
             (IR.Instruction 1 IR.PointerTy));
        IR.emit (IR.AtEnd 0)
          (IR.CreateLoad (IR.Instruction 1 IR.PointerTy) "x");
        IR.emit (IR.AtEnd 0)
          (IR.CreateCall 0 [IR.Instruction 3 IR.DoubleTy] "");
        IR.emit (IR.AtEnd 0) (IR.CreateRet (IR.ConstantFP 0)) ].
Proof. by vm_compute. Qed.

(** C1 (the code does otherwise). The program [var x is 40 plus 2],
    newline, [print x] lexes and parses, to a declaration and a print at
    top level.  The generator then visits the declaration with a builder
    that has no insertion block (only the visit of a Function node sets
    one), and [builder->GetInsertBlock()->getParent()] dereferences a null
    pointer: no module is handed to the interpreter and nothing is
    printed.  This holds whatever names LLVM gives. *)
Theorem scenario_1_faults_in_code_generation (naming : IR.Naming) :
  parseSource ("var x is 40 plus 2" +:+ nl +:+ "print x")
  = Parser.Ok
      (ProgramNode
         [ VariableDeclarationNode "x" false
             (Some (BinaryOpNode Add (NumberNode 40) (NumberNode 2)));
           PrintNode (Some (IdentifierNode "x")) ],
       [])
  ∧ compile ("var x is 40 plus 2" +:+ nl +:+ "print x")
    = Some CodeGenerator.Fault.
Proof.
  split; [vm_compute; reflexivity|].
  unfold compile.
  replace (parseSource ("var x is 40 plus 2" +:+ nl +:+ "print x"))
    with (Parser.Ok (A := Node * list Parser.Diagnostic)
            (ProgramNode
               [ VariableDeclarationNode "x" false
                   (Some (BinaryOpNode Add (NumberNode 40) (NumberNode 2)));
                 PrintNode (Some (IdentifierNode "x")) ],
             []))
    by (vm_compute; reflexivity).
  reflexivity.
Qed.

(** ** Lexer: what every token list has *)

Module LexerMore.
Import Lexer LexerFacts.

(** The turns of the main loop, by the branch taken. *)
Inductive stepCase (lx : t) : t → TokenList → Prop :=
  | step_space lx' :
      isspace (currentChar lx) = true →
      skipWhitespace lx = Some lx' → stepCase lx lx' []
  | step_word lx' tok :
      isalpha (currentChar lx) || Ascii.eqb (currentChar lx) "_" = true →
      identifier lx = Some (lx', tok) → stepCase lx lx' [tok]
  | step_number lx' tok :
      isdigit (currentChar lx) = true →
      number lx = Some (lx', tok) → stepCase lx lx' [tok]
  | step_punct ty :
      ty ∈ [LEFT_BRACE; RIGHT_BRACE; LEFT_PAREN; RIGHT_PAREN; COMMA; UNKNOWN] →
      stepCase lx (advance lx)
        [Token.mk ty (string1 (currentChar lx)) (line lx) (column lx)]
  | step_string lx' tok :
      currentChar lx = QUOTE →
      string lx = Some (lx', tok) → stepCase lx lx' [tok]
  | step_comment lx' :
      skipComment lx = Some lx' → stepCase lx lx' [].

Lemma tokenizeStep_cases lx lx' pushed :
  tokenizeStep lx = Some (lx', pushed) → stepCase lx lx' pushed.
Proof.
  unfold tokenizeStep.
  destruct (isspace (currentChar lx)) eqn:Hsp.
  { destruct (skipWhitespace lx) eqn:E; [|done]. intros [= <- <-].
    by apply step_space. }
  destruct (isalpha (currentChar lx) || Ascii.eqb (currentChar lx) "_") eqn:Hw.
  { destruct (identifier lx) as [[lx1 tok]|] eqn:E; [|done].
    intros [= <- <-]. by apply step_word. }
  destruct (isdigit (currentChar lx)) eqn:Hd.
  { destruct (number lx) as [[lx1 tok]|] eqn:E; [|done].
    intros [= <- <-]. by apply step_number. }
  rewrite (isspace_LF _ Hsp). unfold punct.
  destruct (Ascii.eqb (currentChar lx) "{") eqn:E1.
  { apply Ascii.eqb_eq in E1. intros [= <- <-]. rewrite <- E1.
    apply step_punct. set_solver. }
  destruct (Ascii.eqb (currentChar lx) "}") eqn:E2.
  { apply Ascii.eqb_eq in E2. intros [= <- <-]. rewrite <- E2.
    apply step_punct. set_solver. }
  destruct (Ascii.eqb (currentChar lx) "(") eqn:E3.
  { apply Ascii.eqb_eq in E3. intros [= <- <-]. rewrite <- E3.
    apply step_punct. set_solver. }
  destruct (Ascii.eqb (currentChar lx) ")") eqn:E4.
  { apply Ascii.eqb_eq in E4. intros [= <- <-]. rewrite <- E4.
    apply step_punct. set_solver. }
  destruct (Ascii.eqb (currentChar lx) ",") eqn:E5.
  { apply Ascii.eqb_eq in E5. intros [= <- <-]. rewrite <- E5.
    apply step_punct. set_solver. }
  destruct (Ascii.eqb (currentChar lx) QUOTE) eqn:E6.
  { apply Ascii.eqb_eq in E6.
    destruct (string lx) as [[lx1 tok]|] eqn:E; [|done].
    intros [= <- <-]. by apply step_string. }
  destruct (Ascii.eqb (currentChar lx) "#").
  { destruct (skipComment lx) eqn:E; [|done]. intros [= <- <-].
    by apply step_comment. }
  intros [= <- <-]. apply step_punct. set_solver.
Qed.

(** A property of the lexer and the tokens pushed that every turn keeps
    holds when the loop returns. *)
Lemma tokenizeLoop_invariant (I : t → TokenList → Prop) :
  (∀ lx tokens lx' pushed,
     I lx tokens → Ascii.eqb (currentChar lx) NUL = false →
     tokenizeStep lx = Some (lx', pushed) → I lx' (tokens ++ pushed)) →
  ∀ fuel lx tokens lx' tokens',
    I lx tokens → tokenizeLoop fuel lx tokens = Some (lx', tokens') →
    I lx' tokens'.
Proof.
  intros Hstep fuel. induction fuel as [|fuel IH]; intros lx tokens lx' tokens';
    simpl; destruct (Ascii.eqb (currentChar lx) NUL) eqn:Hc;
    try (intros; by simplify_eq).
  destruct (tokenizeStep lx) as [[lx1 pushed]|] eqn:E; [|done].
  cbn [mbind option_bind]. intros HI Hloop.
  apply (IH _ _ _ _ (Hstep _ _ _ _ HI Hc E) Hloop).
Qed.

(** *** Lines and columns *)

Lemma advance_cursor lx :
  line lx ≤ line (advance lx)
  ∧ (1 ≤ column lx → 1 ≤ column (advance lx)).
Proof.
  unfold advance.
  destruct (String.get _ _) as [c|]; [destruct (Ascii.eqb c LF)|]; simpl; lia.
Qed.

Lemma scan_cursor p fuel lx acc lx' r :
  scan p fuel lx acc = Some (lx', r) →
  line lx ≤ line lx' ∧ (1 ≤ column lx → 1 ≤ column lx').
Proof.
  revert lx acc; induction fuel as [|fuel IH]; intros lx acc; simpl;
    destruct (negb _ && p _); try (intros; simplify_eq; lia).
  intros H%IH. pose proof (advance_cursor lx). lia.
Qed.

(** A turn never takes the cursor up a line; its token is stamped with the
    column the turn began at and a line the turn went through. *)
Lemma step_cursor lx lx' pushed :
  tokenizeStep lx = Some (lx', pushed) →
  line lx ≤ line lx'
  ∧ (1 ≤ column lx → 1 ≤ column lx')
  ∧ Forall (λ tok, line lx ≤ Token.line tok ≤ line lx'
                   ∧ Token.column tok = column lx) pushed.
Proof.
  intros H%tokenizeStep_cases.
  destruct H as [lx' Hc E|lx' tok Hc E|lx' tok Hc E|ty Hty|lx' tok Hc E|lx' E].
  - unfold skipWhitespace in E.
    destruct (scan _ _ _ _) as [[lx1 r]|] eqn:Es; [|done].
    injection E as <-. apply scan_cursor in Es.
    split; [lia|]. split; [tauto | constructor].
  - unfold identifier in E.
    destruct (scan _ _ _ _) as [[lx1 r]|] eqn:Es; [|done].
    cbn [mbind option_bind] in E. apply scan_cursor in Es.
    destruct (keywords !! r); injection E as <- <-;
      (split; [lia|]; split; [tauto | repeat constructor; simpl; lia]).
  - unfold number in E.
    destruct (scan _ _ _ _) as [[lx1 r1]|] eqn:Es1; [|done].
    cbn [mbind option_bind] in E. apply scan_cursor in Es1.
    destruct (Ascii.eqb (currentChar lx1) ".").
    + destruct (scan _ _ _ _) as [[lx2 r2]|] eqn:Es2; [|done].
      cbn [mbind option_bind] in E. apply scan_cursor in Es2.
      pose proof (advance_cursor lx1). injection E as <- <-.
      split; [lia|]; split; [tauto | repeat constructor; simpl; lia].
    + cbn [mbind option_bind] in E. injection E as <- <-.
      split; [lia|]; split; [tauto | repeat constructor; simpl; lia].
  - pose proof (advance_cursor lx).
    split; [lia|]; split; [tauto | repeat constructor; simpl; lia].
  - unfold string in E.
    destruct (scan _ _ _ _) as [[lx1 r]|] eqn:Es; [|done].
    cbn [mbind option_bind] in E. apply scan_cursor in Es.
    pose proof (advance_cursor lx). pose proof (advance_cursor lx1).
    injection E as <- <-.
    destruct (Ascii.eqb (currentChar lx1) QUOTE);
      (split; [lia|]; split; [tauto | repeat constructor; simpl; lia]).
  - unfold skipComment in E.
    destruct (scan _ _ _ _) as [[lx1 r]|] eqn:Es; [|done].
    injection E as <-. apply scan_cursor in Es.
    split; [lia|]. split; [tauto | constructor].
Qed.

Lemma lines_nondecreasing_snoc tokens tok :
  lines_nondecreasing tokens = true →
  Forall (λ t, Token.line t ≤ Token.line tok) tokens →
  lines_nondecreasing (tokens ++ [tok]) = true.
Proof.
  induction tokens as [|a [|b rest] IH]; [done|..].
  - intros _ Ha. apply Forall_cons_1 in Ha as [Ha _]. simpl.
    rewrite andb_true_r. by apply Z.leb_le.
  - intros Hs Hall. apply Forall_cons_1 in Hall as [_ Hall].
    change (lines_nondecreasing (a :: b :: rest)) with
      ((Token.line a <=? Token.line b) && lines_nondecreasing (b :: rest)) in Hs.
    apply andb_true_iff in Hs as [Hab Hs].
    change (lines_nondecreasing ((a :: b :: rest) ++ [tok])) with
      ((Token.line a <=? Token.line b)
       && lines_nondecreasing ((b :: rest) ++ [tok])).
    rewrite Hab. by apply IH.
Qed.

(** *** Kinds *)

Lemma keywords_kind w kw : keywords !! w = Some kw → keywordKind kw = true.
Proof.
  intros H%elem_of_list_to_map_2.
  repeat (apply elem_of_cons in H as [H|H]; [by simplify_eq|]).
  by apply elem_of_nil in H.
Qed.

(** The kinds a turn can push. *)
Lemma step_kinds lx lx' pushed :
  tokenizeStep lx = Some (lx', pushed) →
  Forall (λ tok, keywordKind (Token.type tok) = true
                 ∨ Token.type tok ∈
                     [IDENTIFIER; NUMBER; STRING; LEFT_BRACE; RIGHT_BRACE;
                      LEFT_PAREN; RIGHT_PAREN; COMMA; UNKNOWN]) pushed.
Proof.
  intros H%tokenizeStep_cases.
  destruct H as [lx' Hc E|lx' tok Hc E|lx' tok Hc E|ty Hty|lx' tok Hc E|lx' E].
  - constructor.
  - apply Forall_singleton. unfold identifier in E.
    destruct (scan _ _ _ _) as [[lx1 r]|]; [|done].
    cbn [mbind option_bind] in E.
    destruct (keywords !! r) as [kw|] eqn:Hkw; injection E as <- <-.
    + left. by apply keywords_kind in Hkw.
    + right. set_solver.
  - apply Forall_singleton. unfold number in E.
    destruct (scan _ _ _ _) as [[lx1 r1]|]; [|done].
    cbn [mbind option_bind] in E.
    destruct (if Ascii.eqb (currentChar lx1) "." then _ else _)
      as [[lx2 r2]|]; [|done].
    injection E as <- <-. right. set_solver.
  - apply Forall_singleton. right. simpl. revert Hty.
    rewrite !elem_of_cons, !elem_of_nil. tauto.
  - apply Forall_singleton. unfold string in E.
    destruct (scan _ _ _ _) as [[lx1 r]|]; [|done].
    injection E as <- <-. right. set_solver.
  - constructor.
Qed.

(** *** Lexemes *)

Lemma before_forall stop (s : String.string) :
  string_forall (λ c, negb (stop c)) (before stop s) = true.
Proof.
  induction s as [|c s IH]; [done|]. simpl.
  destruct (stop c) eqn:Hc; [done|]. simpl. by rewrite Hc.
Qed.

Lemma string_forall_impl (p q : ascii → bool) (s : String.string) :
  (∀ c, p c = true → q c = true) →
  string_forall p s = true → string_forall q s = true.
Proof.
  intros Hpq. induction s as [|c s IH]; [done|]. simpl.
  intros [Hc Hs]%andb_true_iff. by rewrite (Hpq _ Hc), IH.
Qed.

Lemma from_none stop (s : String.string) :
  string_forall (λ c, negb (stop c)) s = true → from stop s = EmptyString.
Proof.
  induction s as [|c s IH]; [done|]. simpl.
  destruct (stop c); [done | apply IH].
Qed.

Lemma before_all stop (s : String.string) :
  string_forall (λ c, negb (stop c)) s = true → before stop s = s.
Proof.
  induction s as [|c s IH]; [done|]. simpl.
  destruct (stop c); [done|]. intros H. by rewrite IH.
Qed.

(** The text under a cursor that is not at the end starts with the current
    character. *)
Lemma text_under_cursor lx :
  wf lx → Ascii.eqb (currentChar lx) NUL = false →
  ∃ rest, string_drop (position lx) (source lx) = String (currentChar lx) rest.
Proof.
  intros Hwf Hc. pose proof Hwf as Hcur. unfold wf in Hcur.
  rewrite get_drop in Hcur.
  destruct (string_drop (position lx) (source lx)) as [|c rest].
  - simpl in Hcur. rewrite Hcur in Hc. done.
  - simpl in Hcur. subst c. eauto.
Qed.

(** A scan entered on a character it accepts reads that character first,
    then only characters it accepts. *)
Lemma scan_lexeme p lx acc :
  wf lx → Ascii.eqb (currentChar lx) NUL = false → p (currentChar lx) = true →
  ∃ lx' more,
    scan p (remaining lx) lx acc
    = Some (lx', acc +:+ String (currentChar lx) more)
    ∧ moves lx lx' ∧ string_forall p more = true.
Proof.
  intros Hwf Hc Hp.
  destruct (text_under_cursor lx Hwf Hc) as [rest Htext].
  destruct (scan_reads p (remaining lx) lx acc Hwf) as (lx' & E & Hm & _);
    [done|].
  rewrite Htext in E. simpl in E. unfold isNUL in E.
  rewrite Hc, Hp in E. simpl in E.
  exists lx', (before (λ c, Ascii.eqb c NUL || negb (p c)) rest).
  split; [done|]. split; [done|].
  eapply string_forall_impl; [|apply before_forall].
  intros c. simpl. destruct (p c); [done|]. by rewrite orb_true_r.
Qed.

Lemma isalpha_isalnum c :
  isalpha c || Ascii.eqb c "_" = true → isWordChar c = true.
Proof.
  unfold isWordChar, isalnum. destruct (isalpha c); [done|].
  simpl. intros ->. by rewrite orb_true_r.
Qed.

Lemma word_not_NUL c :
  isalpha c || Ascii.eqb c "_" = true → Ascii.eqb c NUL = false.
Proof. destruct c as [[] [] [] [] [] [] [] []]; done. Qed.

Lemma digit_not_NUL c : isdigit c = true → Ascii.eqb c NUL = false.
Proof. destruct c as [[] [] [] [] [] [] [] []]; done. Qed.

(** [identifier()], entered on a letter or an underscore. *)
Lemma identifier_word lx lx' tok :
  wf lx →
  isalpha (currentChar lx) || Ascii.eqb (currentChar lx) "_" = true →
  identifier lx = Some (lx', tok) →
  isWord (Token.value tok) = true
  ∧ Token.type tok = default IDENTIFIER (keywords !! Token.value tok).
Proof.
  intros Hwf Hc. unfold identifier.
  destruct (scan_lexeme isWordChar lx EmptyString Hwf)
    as (lx1 & more & E & _ & Hmore);
    [by apply word_not_NUL | by apply isalpha_isalnum |].
  unfold isWordChar in E at 1. rewrite E. cbn [mbind option_bind].
  change (EmptyString +:+ String (currentChar lx) more)
    with (String (currentChar lx) more).
  destruct (keywords !! String (currentChar lx) more) as [kw|] eqn:Hkw;
    intros [= <- <-]; cbn [Token.value Token.type]; rewrite Hkw;
    (split; [|done]); simpl; by rewrite Hc, Hmore.
Qed.

Lemma digits_count (s : String.string) acc count :
  (count ≤ (digits s acc count).1.2)%nat.
Proof.
  revert acc count; induction s as [|c s IH]; intros acc count; simpl; [done|].
  destruct (isdigit c); [|done].
  etrans; [|apply IH]. lia.
Qed.

(** [std::stod] accepts every text that starts with a digit. *)
Lemma stod_digit c (rest : String.string) :
  isdigit c = true → is_Some (stod (String c rest)).
Proof.
  intros Hc. unfold stod. simpl. rewrite Hc.
  pose proof (digits_count rest (10 * 0 + (N.of_nat (code c) - 48))%N 1) as Hn.
  destruct (digits rest _ 1) as [[whole n] r]. simpl in Hn.
  destruct n as [|n]; [lia|]. simpl.
  destruct r as [|[[] [] [] [] [] [] [] []] frac]; try done.
  by destruct (digits frac whole 0) as [[all k] r'].
Qed.

(** [number()], entered on a digit. *)
Lemma number_lexeme lx lx' tok :
  wf lx → isdigit (currentChar lx) = true →
  number lx = Some (lx', tok) →
  Token.type tok = NUMBER ∧ is_Some (stod (Token.value tok)).
Proof.
  intros Hwf Hc. unfold number.
  destruct (scan_lexeme isdigit lx EmptyString Hwf)
    as (lx1 & more & E & Hm & Hmore); [by apply digit_not_NUL | done |].
  rewrite E. cbn [mbind option_bind].
  change (EmptyString +:+ String (currentChar lx) more)
    with (String (currentChar lx) more).
  destruct (Ascii.eqb (currentChar lx1) ".").
  - destruct (scan_reads isdigit (remaining (advance lx1)) (advance lx1)
                (String (currentChar lx) more +:+ string1 (currentChar lx1)))
      as (lx2 & E2 & _); [apply wf_advance | done |].
    rewrite E2. cbn [mbind option_bind]. intros [= <- <-].
    split; [done|]. simpl. rewrite !append_cons. by apply stod_digit.
  - cbn [mbind option_bind]. intros [= <- <-]. split; [done|].
    by apply stod_digit.
Qed.

(** *** Inputs that one scan reads to the end *)

(** A scan that accepts all the text under the cursor reads it all and
    stops at the end of the input. *)
Lemma scan_all p lx acc :
  wf lx →
  string_forall (λ c, negb (isNUL c) && p c)
    (string_drop (position lx) (source lx)) = true →
  ∃ lx', scan p (remaining lx) lx acc
         = Some (lx', acc +:+ string_drop (position lx) (source lx))
         ∧ moves lx lx' ∧ currentChar lx' = NUL.
Proof.
  intros Hwf Hall.
  destruct (scan_reads p (remaining lx) lx acc Hwf) as (lx' & E & Hm & Hfrom);
    [done|].
  assert (string_forall (λ c, negb (isNUL c || negb (p c)))
            (string_drop (position lx) (source lx)) = true) as Hstop.
  { eapply string_forall_impl; [|exact Hall]. intros c. simpl.
    destruct (isNUL c), (p c); done. }
  rewrite (before_all _ _ Hstop) in E. rewrite (from_none _ _ Hstop) in Hfrom.
  exists lx'. split; [done|]. split; [done|].
  destruct Hm as [Hwf' Hsrc _]. unfold wf in Hwf'.
  by rewrite Hsrc, get_drop, Hfrom in Hwf'.
Qed.

Lemma space_not_NUL c : isspace c = true → negb (isNUL c) && isspace c = true.
Proof. destruct c as [[] [] [] [] [] [] [] []]; done. Qed.

Lemma wordChar_not_NUL c :
  isWordChar c = true → negb (isNUL c) && isWordChar c = true.
Proof. destruct c as [[] [] [] [] [] [] [] []]; done. Qed.

Lemma word_not_space c :
  isalpha c || Ascii.eqb c "_" = true → isspace c = false.
Proof. destruct c as [[] [] [] [] [] [] [] []]; done. Qed.

(** White space only: the loop pushes nothing. *)
Lemma whitespace_loop (src : String.string) :
  string_forall isspace src = true →
  ∃ lx', tokenizeLoop (remaining (new src)) (new src) [] = Some (lx', []).
Proof.
  destruct src as [|c s]; [by eexists|]. intros Hall.
  pose proof Hall as [Hc _]%andb_true_iff.
  pose proof (space_not_NUL c Hc) as [Hnul _]%andb_true_iff.
  apply negb_true_iff in Hnul. unfold isNUL in Hnul.
  destruct (scan_all isspace (new (String c s)) EmptyString (wf_new _))
    as (lx' & E & _ & Hend).
  { eapply string_forall_impl; [|exact Hall]. apply space_not_NUL. }
  exists lx'.
  change (remaining (new (String c s))) with (S (String.length s)) in *.
  cbn [tokenizeLoop]. change (currentChar (new (String c s))) with c.
  rewrite Hnul. unfold tokenizeStep, skipWhitespace.
  change (currentChar (new (String c s))) with c. rewrite Hc.
  change (remaining (new (String c s))) with (S (String.length s)).
  rewrite E. cbn [fmap option_fmap option_map mbind option_bind fst app].
  destruct (String.length s); cbn [tokenizeLoop]; by rewrite Hend.
Qed.

(** One word: the loop pushes the word as one token. *)
Lemma word_loop (w : String.string) :
  isWord w = true →
  ∃ lx', tokenizeLoop (remaining (new w)) (new w) []
         = Some (lx', [Token.mk (default IDENTIFIER (keywords !! w)) w
                         (line lx') 1]).
Proof.
  destruct w as [|c s]; [done|]. intros Hword.
  pose proof Hword as [Hc Hs]%andb_true_iff.
  pose proof (word_not_NUL c Hc) as Hnul.
  destruct (scan_all isWordChar (new (String c s)) EmptyString (wf_new _))
    as (lx' & E & _ & Hend).
  { simpl. rewrite (wordChar_not_NUL c (isalpha_isalnum c Hc)). simpl.
    eapply string_forall_impl; [|exact Hs]. apply wordChar_not_NUL. }
  exists lx'.
  change (remaining (new (String c s))) with (S (String.length s)) in *.
  cbn [tokenizeLoop]. change (currentChar (new (String c s))) with c.
  rewrite Hnul. unfold tokenizeStep, identifier.
  change (currentChar (new (String c s))) with c.
  rewrite (word_not_space c Hc), Hc.
  change (remaining (new (String c s))) with (S (String.length s)).
  unfold isWordChar in E at 1. rewrite E.
  change (string_drop (position (new (String c s)))
            (source (new (String c s)))) with (String c s).
  change (EmptyString +:+ String c s) with (String c s).
  cbn [mbind option_bind].
  destruct (keywords !! String c s); cbn [mbind option_bind app default];
    (destruct (String.length s); cbn [tokenizeLoop]; by rewrite Hend).
Qed.

(** *** A string literal that is closed *)

Lemma before_from_app stop (s : String.string) c r :
  string_forall (λ c, negb (stop c)) s = true → stop c = true →
  before stop (s +:+ String c r) = s
  ∧ from stop (s +:+ String c r) = String c r.
Proof.
  intros Hs Hc. induction s as [|c' s IH]; simpl.
  - by rewrite Hc.
  - simpl in Hs. apply andb_true_iff in Hs as [Hc' Hs].
    apply negb_true_iff in Hc'. rewrite Hc'.
    destruct (IH Hs) as [-> ->]. done.
Qed.

(** The first turn on a quote, a text without quote or NUL, and a quote
    pushes the text as a [STRING] and goes past the second quote. *)
Lemma string_closed (s rest : String.string) :
  string_forall (λ c, negb (isNUL c) && negb (Ascii.eqb c QUOTE)) s = true →
  let src := String QUOTE (s +:+ String QUOTE rest) in
  ∃ lx', tokenizeStep (new src)
         = Some (lx', [Token.mk STRING s (line lx') 1])
         ∧ moves (new src) lx'.
Proof.
  intros Hs src.
  destruct (scan_reads (λ c, negb (Ascii.eqb c QUOTE))
              (remaining (advance (new src))) (advance (new src)) EmptyString)
    as (lx1 & E & Hm & Hfrom); [apply wf_advance | done |].
  rewrite source_advance, position_advance in E, Hfrom.
  change (string_drop (S (position (new src))) (source (new src)))
    with (s +:+ String QUOTE rest) in E, Hfrom.
  destruct (before_from_app
              (λ c, isNUL c || negb (negb (Ascii.eqb c QUOTE))) s QUOTE rest)
    as [Hbefore Hafter]; [|done|].
  { eapply string_forall_impl; [|exact Hs]. intros c. simpl.
    by destruct (isNUL c), (Ascii.eqb c QUOTE). }
  rewrite Hbefore in E. rewrite Hafter in Hfrom.
  change (EmptyString +:+ s) with s in E.
  assert (currentChar lx1 = QUOTE) as Hcur.
  { destruct Hm as [Hwf1 Hsrc1 _]. unfold wf in Hwf1.
    rewrite source_advance in Hsrc1.
    by rewrite Hsrc1, get_drop, Hfrom in Hwf1. }
  exists (advance lx1). split.
  - unfold tokenizeStep. change (currentChar (new src)) with QUOTE.
    change (isspace QUOTE) with false. cbv iota.
    change (isalpha QUOTE || Ascii.eqb QUOTE "_") with false. cbv iota.
    change (isdigit QUOTE) with false. cbv iota.
    change (Ascii.eqb QUOTE "{") with false.
    change (Ascii.eqb QUOTE "}") with false.
    change (Ascii.eqb QUOTE "(") with false.
    change (Ascii.eqb QUOTE ")") with false.
    change (Ascii.eqb QUOTE ",") with false.
    change (Ascii.eqb QUOTE QUOTE) with true. cbv iota.
    unfold string. rewrite E. cbn [mbind option_bind]. by rewrite Hcur.
  - eauto using moves_trans, moves_advance.
Qed.

(** *** From the turns to the token list *)

(** What every turn gives its tokens, every token pushed has; the cursor
    stays at line and column 1 or more. *)
Lemma pushed_Forall (P : Token → Prop) :
  (∀ lx lx' pushed,
     wf lx → 1 ≤ line lx → 1 ≤ column lx →
     tokenizeStep lx = Some (lx', pushed) → Forall P pushed) →
  ∀ src lx' pushed,
    tokenizeLoop (remaining (new src)) (new src) [] = Some (lx', pushed) →
    Forall P pushed ∧ wf lx' ∧ 1 ≤ line lx' ∧ 1 ≤ column lx'.
Proof.
  intros Hstep src lx' pushed Hloop.
  pose (I := λ (lx : t) (tokens : TokenList),
          Forall P tokens ∧ wf lx ∧ 1 ≤ line lx ∧ 1 ≤ column lx).
  refine (tokenizeLoop_invariant I _ _ _ _ _ _ _ Hloop).
  - clear -Hstep. intros lx tokens lx' pushed (Hall & Hwf & Hl & Hc) Hnul E.
    pose proof (Hstep _ _ _ Hwf Hl Hc E) as Hpushed.
    destruct (tokenizeStep_total lx Hwf Hnul) as (lx1 & p1 & E1 & [Hwf1 _ _] & _).
    rewrite E in E1. simplify_eq.
    apply step_cursor in E as (Hline & Hcol & _).
    split; [by apply Forall_app|]. split; [done|]. split; [lia | tauto].
  - split; [constructor|]. split; [apply wf_new|]. done.
Qed.

End LexerMore.

(** X1. For every input, the line numbers of the tokens returned never go
    down along the list: a token is stamped with a line the cursor is on
    during its turn, and the cursor never goes up a line. *)
Theorem token_lines_nondecreasing (src : string) :
  lines_nondecreasing <$> tokenize src = Some true.
Proof.
  destruct (LexerFacts.tokenizeFrom_total (Lexer.new src))
    as (lx' & pushed & Hloop & E); [apply LexerFacts.wf_new|].
  unfold tokenize. rewrite E. simpl. f_equal.
  assert (lines_nondecreasing pushed = true
          ∧ Forall (λ tok, Token.line tok ≤ Lexer.line lx') pushed)
    as [Hsorted Hbelow].
  { refine (LexerMore.tokenizeLoop_invariant
              (λ lx tokens,
                 lines_nondecreasing tokens = true
                 ∧ Forall (λ tok, Token.line tok ≤ Lexer.line lx) tokens)
              _ _ (Lexer.new src) [] _ _ _ Hloop);
      [|split; [done | constructor]].
    clear. intros lx tokens lx1 pushed [Hsorted Hbelow] _ Hstep.
    pose proof Hstep as Hcase%LexerMore.tokenizeStep_cases.
    apply LexerMore.step_cursor in Hstep as (Hline & _ & Hpushed).
    assert (Forall (λ tok, Token.line tok ≤ Lexer.line lx1) tokens) as Hbelow1
      by (eapply Forall_impl; [exact Hbelow|]; simpl; intros; lia).
    assert (∀ tok, pushed = [tok] →
              lines_nondecreasing (tokens ++ [tok]) = true
              ∧ Forall (λ t, Token.line t ≤ Lexer.line lx1) (tokens ++ [tok]))
      as Hone.
    { intros tok ->. apply Forall_singleton in Hpushed as [[H1 H2] _].
      split.
      - apply LexerMore.lines_nondecreasing_snoc; [done|].
        eapply Forall_impl; [exact Hbelow|]. simpl. intros. lia.
      - apply Forall_app. split; [done|]. by apply Forall_singleton. }
    destruct Hcase; try (by apply Hone); by rewrite app_nil_r. }
  by apply LexerMore.lines_nondecreasing_snoc.
Qed.

(** X2. For every input, every token returned has a line and a column of
    1 or more. *)
Theorem token_positions_are_one_based (src : string) :
  forallb oneBased <$> tokenize src = Some true.
Proof.
  destruct (LexerFacts.tokenizeFrom_total (Lexer.new src))
    as (lx' & pushed & Hloop & E); [apply LexerFacts.wf_new|].
  unfold tokenize. rewrite E. simpl. f_equal.
  apply (LexerMore.pushed_Forall (λ tok, oneBased tok = true))
    in Hloop as (Hall & _ & Hl & Hc).
  - rewrite forallb_app. apply andb_true_iff. split.
    + apply forallb_forall. intros tok Htok%list_elem_of_In.
      by apply (proj1 (Forall_forall _ _) Hall).
    + unfold oneBased. simpl. rewrite andb_true_r.
      apply andb_true_iff. split; by apply Z.leb_le.
  - clear. intros lx lx' pushed _ Hl Hc (_ & _ & Hpushed)%LexerMore.step_cursor.
    eapply Forall_impl; [exact Hpushed|]. simpl. intros tok [[H1 _] H2].
    unfold oneBased. apply andb_true_iff. split; apply Z.leb_le; lia.
Qed.


(** X4. For every input, keywords are reserved: a token of kind
    [IDENTIFIER] carries a word ([[A-Za-z_][A-Za-z0-9_]*]) that is not in
    the keyword table, and a token of a keyword kind carries the keyword
    of that kind. *)
Theorem keywords_are_reserved (src : string) :
  ∃ tokens, tokenize src = Some tokens ∧ Forall wordToken tokens.
Proof.
  destruct (LexerFacts.tokenizeFrom_total (Lexer.new src))
    as (lx' & pushed & Hloop & E); [apply LexerFacts.wf_new|].
  unfold tokenize. rewrite E. eexists. split; [done|].
  apply Forall_app. split; [|by repeat constructor].
  apply (LexerMore.pushed_Forall wordToken) in Hloop as (Hall & _); [done|].
  clear. intros lx lx' pushed Hwf _ _ Hstep.
  pose proof (LexerMore.step_kinds _ _ _ Hstep) as Hkinds.
  apply LexerMore.tokenizeStep_cases in Hstep.
  destruct Hstep
    as [lx' Hc E|lx' tok Hc E|lx' tok Hc E|ty Hty|lx' tok Hc E|lx' E].
  - constructor.
  - apply Forall_singleton.
    destruct (LexerMore.identifier_word _ _ _ Hwf Hc E) as [Hword Hty].
    split.
    + intros Hid. split; [done|]. rewrite Hid in Hty.
      destruct (Lexer.keywords !! Token.value tok) as [kw|] eqn:Hkw; [|done].
      apply LexerMore.keywords_kind in Hkw. simpl in Hty. by subst kw.
    + intros Hk. rewrite Hty in Hk |- *.
      by destruct (Lexer.keywords !! Token.value tok).
  - apply Forall_singleton.
    destruct (LexerMore.number_lexeme _ _ _ Hwf Hc E) as [Hty _].
    unfold wordToken. by rewrite Hty.
  - apply Forall_singleton. revert Hty.
    rewrite !elem_of_cons, elem_of_nil. unfold wordToken.
    cbn [Token.type Token.value].
    intros [->|[->|[->|[->|[->|[->|[]]]]]]]; done.
  - apply Forall_singleton. unfold Lexer.string in E.
    destruct (Lexer.scan _ _ _ _) as [[lx1 r]|]; [|done].
    injection E as <- <-. by unfold wordToken.
  - constructor.
Qed.


(** X6. For every input of white space only (newlines among it), the
    lexer returns [END_OF_FILE] alone, the parser the empty program with
    nothing on [std::cerr], and the generator, whatever names LLVM gives, a
    module to which no request was made and that has no basic block. *)
Theorem white_space_compiles_to_nothing {naming : IR.Naming} (src : string) :
  string_forall isspace src = true →
  ∃ l c g,
    tokenize src = Some [Token.mk END_OF_FILE "" l c]
    ∧ parseSource src = Parser.Ok (ProgramNode [], [])
    ∧ compile src = Some (CodeGenerator.Done tt g)
    ∧ CodeGenerator.emitted g = []
    ∧ CodeGenerator.basicBlocks g = [].
Proof.
  intros [lx' Hloop]%LexerMore.whitespace_loop.
  assert (tokenize src
          = Some [Token.mk END_OF_FILE "" (Lexer.line lx') (Lexer.column lx')])
    as Htok by (unfold tokenize, Lexer.tokenizeFrom; by rewrite Hloop).
  assert (parseSource src = Parser.Ok (ProgramNode [], [])) as Hparse
    by (unfold parseSource; by rewrite Htok).
  eexists _, _, _. split; [exact Htok|]. split; [exact Hparse|].
  unfold compile. rewrite Hparse. by repeat split.
Qed.

(** On two spaces, a newline and a tab. *)
Lemma white_space_compiles_to_nothing_witness :
  ∃ l c g,
    tokenize ("  " +:+ nl +:+ string1 "009")
    = Some [Token.mk END_OF_FILE "" l c]
    ∧ parseSource ("  " +:+ nl +:+ string1 "009")
      = Parser.Ok (ProgramNode [], [])
    ∧ compile (naming := IR.namesAsAsked) ("  " +:+ nl +:+ string1 "009")
      = Some (CodeGenerator.Done tt g)
    ∧ CodeGenerator.emitted g = []
    ∧ CodeGenerator.basicBlocks g = [].
Proof.
  exact (white_space_compiles_to_nothing (naming := IR.namesAsAsked)
           ("  " +:+ nl +:+ string1 "009") eq_refl).
Defined.

(** X7. For every word [w] (a letter or an underscore, then letters,
    digits and underscores), the lexer returns one token whose lexeme is
    [w], at column 1, of the kind the keyword table gives [w] or
    [IDENTIFIER] when it gives none, and then [END_OF_FILE]. *)
Theorem a_word_is_one_token (w : string) :
  isWord w = true →
  ∃ l eof,
    tokenize w
    = Some [Token.mk (default IDENTIFIER (Lexer.keywords !! w)) w l 1; eof]
    ∧ Token.type eof = END_OF_FILE.
Proof.
  intros [lx' Hloop]%LexerMore.word_loop.
  unfold tokenize, Lexer.tokenizeFrom. rewrite Hloop.
  by eexists _, _.
Qed.

(** On [while] and on [x_1]. *)
Lemma a_word_is_one_token_witness :
  (∃ l eof, tokenize "while" = Some [Token.mk WHILE "while" l 1; eof]
            ∧ Token.type eof = END_OF_FILE)
  ∧ (∃ l eof, tokenize "x_1" = Some [Token.mk IDENTIFIER "x_1" l 1; eof]
              ∧ Token.type eof = END_OF_FILE).
Proof.
  split.
  - exact (a_word_is_one_token "while" eq_refl).
  - exact (a_word_is_one_token "x_1" eq_refl).
Defined.

(** X18. A string literal is one token: for every text [s] without a
    double quote and without a NUL byte, an input that starts with a quote,
    [s] and a quote gives first a [STRING] token at column 1 whose lexeme
    is [s], the two quotes dropped and nothing in [s] changed (a backslash
    escapes nothing). *)
Theorem string_literal_is_one_STRING_token (s rest : string) :
  string_forall (λ c, negb (isNUL c) && negb (Ascii.eqb c QUOTE)) s = true →
  ∃ l more,
    tokenize (String QUOTE (s +:+ String QUOTE rest))
    = Some (Token.mk STRING s l 1 :: more).
Proof.
  intros Hs. set (src := String QUOTE (s +:+ String QUOTE rest)).
  destruct (LexerMore.string_closed s rest Hs) as (lx1 & Hstep & Hm).
  fold src in Hstep, Hm. destruct Hm as [Hwf1 Hsrc1 Hpos1].
  destruct (LexerFacts.tokenizeLoop_total (Lexer.remaining lx1) lx1
              [Token.mk STRING s (Lexer.line lx1) 1] Hwf1)
    as (lx' & pushed & Hloop); [done|].
  assert (Lexer.tokenizeLoop (Lexer.remaining (Lexer.new src)) (Lexer.new src) []
          = Some (lx', Token.mk STRING s (Lexer.line lx1) 1 :: pushed))
    as Hall.
  { apply (LexerFacts.reaches_tokenizeLoop src lx1
             [Token.mk STRING s (Lexer.line lx1) 1]); [|done].
    apply (Lexer.reaches_turn src (Lexer.new src) [] lx1
             [Token.mk STRING s (Lexer.line lx1) 1]);
      [apply Lexer.reaches_start | done | done]. }
  unfold tokenize, Lexer.tokenizeFrom. rewrite Hall.
  cbn [mbind option_bind]. by eexists _, _.
Qed.

(** On a quote, [a\b c], a quote and [ x]. *)
Lemma string_literal_is_one_STRING_token_witness :
  ∃ l more,
    tokenize (String QUOTE ("a\b c" +:+ String QUOTE " x"))
    = Some (Token.mk STRING "a\b c" l 1 :: more).
Proof.
  exact (string_literal_is_one_STRING_token "a\b c" " x" eq_refl).
Defined.

(** ** Parser: every run ends, with a program of the grammar *)

Module ParserFacts.
Import Parser.
#[local] Open Scope nat_scope.

(** [currentToken()] *)
Definition current (p : t) : Token :=
  default (Token.mk END_OF_FILE "" 0 0) (tokens p !! position p).

(** A run of [m] from [p] ends within its fuel: with a value and a state
    that satisfy [Q], or with an exception in a state that satisfies
    [E]. *)
Definition wp {A} (m : M A) (p : t) (Q : A → t → Prop) (E : t → Prop)
  : Prop :=
  match m p with
  | (Ok a, p') => Q a p'
  | (Throw _, p') => E p'
  | (OutOfFuel, _) => False
  end.

Lemma wp_ret {A} (a : A) p (Q : A → t → Prop) E : Q a p → wp (mret a) p Q E.
Proof. done. Qed.

Lemma wp_throw {A} what p (Q : A → t → Prop) (E : t → Prop) :
  E p → wp (throw what) p Q E.
Proof. done. Qed.

Lemma wp_bind {A B} (m : M A) (k : A → M B) p Q' E' Q (E : t → Prop) :
  wp m p Q' E' →
  (∀ a p', Q' a p' → wp (k a) p' Q E) →
  (∀ p', E' p' → E p') →
  wp (m ≫= k) p Q E.
Proof.
  intros Hm Hk HE. unfold wp in Hm |- *. unfold mbind, M_bind.
  destruct (m p) as [[a| |] p']; [by apply Hk | by apply HE | done].
Qed.

Lemma wp_mono {A} (m : M A) p Q' E' (Q : A → t → Prop) (E : t → Prop) :
  wp m p Q' E' →
  (∀ a p', Q' a p' → Q a p') →
  (∀ p', E' p' → E p') →
  wp m p Q E.
Proof.
  unfold wp. destruct (m p) as [[a| |] p']; eauto.
Qed.

Lemma wp_currentToken {B} (k : Token → M B) p Q E :
  wp (k (current p)) p Q E → wp (currentToken ≫= k) p Q E.
Proof. done. Qed.

Lemma wp_advance {B} (k : unit → M B) p Q E :
  (∀ p', tokens p' = tokens p → position p' = S (position p) →
         wp (k tt) p' Q E) →
  wp (advance ≫= k) p Q E.
Proof. intros H. by apply (H (mk (tokens p) (S (position p)))). Qed.

Lemma wp_ret_bind {A B} (a : A) (k : A → M B) p Q E :
  wp (k a) p Q E → wp (mret a ≫= k) p Q E.
Proof. done. Qed.

Lemma wp_assoc {A B C} (m : M A) (k : A → M B) (k' : B → M C) p Q E :
  wp (m ≫= λ a, k a ≫= k') p Q E → wp ((m ≫= k) ≫= k') p Q E.
Proof.
  unfold wp, mbind, M_bind. by destruct (m p) as [[a| |] p'].
Qed.

Lemma wp_throw_bind {A B} what (k : A → M B) p Q (E : t → Prop) :
  E p → wp (throw what ≫= k) p Q E.
Proof. done. Qed.

Lemma wp_tokensLeft {B} (k : nat → M B) p Q E :
  wp (k (length (tokens p) - position p)) p Q E → wp (tokensLeft ≫= k) p Q E.
Proof. done. Qed.

Section Runs.
Variable ts : TokenList.

(** The tokens are those the parser was given, and [position] is at or
    past [n]. *)
Definition reached (n : nat) (p : t) : Prop :=
  tokens p = ts ∧ n ≤ position p.

(** A token that is not [END_OF_FILE] is one of the list. *)
Lemma seen p ty :
  tokens p = ts → Token.type (current p) = ty → ty ≠ END_OF_FILE →
  position p < length ts.
Proof.
  unfold current. intros <- <- H.
  destruct (tokens p !! position p) eqn:E; [by eapply lookup_lt_Some | done].
Qed.

Lemma seen_typeIs p ty :
  tokens p = ts → typeIs ty (current p) = true → ty ≠ END_OF_FILE →
  position p < length ts.
Proof.
  unfold typeIs. intros Hts H%bool_decide_eq_true. eauto using seen.
Qed.

Lemma seen_op {A} (f : TokenType → option A) p op :
  tokens p = ts → f (Token.type (current p)) = Some op →
  f END_OF_FILE = None → position p < length ts.
Proof.
  intros Hts Hop Hf. apply (seen p _ Hts eq_refl). intros E. congruence.
Qed.

(** Between a token that is not [END_OF_FILE] and one that is, the
    parser has moved. *)
Lemma moved p p' :
  tokens p = ts → reached (position p) p' →
  typeIs END_OF_FILE (current p') = true →
  Token.type (current p) ≠ END_OF_FILE → position p < position p'.
Proof.
  intros Hts [Hts' Hpos] Heof%bool_decide_eq_true Hne.
  destruct (decide (position p = position p')) as [E|]; [|lia].
  contradict Hne. unfold current in *. by rewrite Hts, E, <- Hts'.
Qed.

(** The loops that run on the number of tokens left. *)
Lemma advanceWhile_ends cond fuel p :
  cond (Token.mk END_OF_FILE "" 0 0) = false →
  tokens p = ts → length ts - position p ≤ fuel →
  wp (advanceWhile cond fuel) p
     (λ _ p', reached (position p) p' ∧ cond (current p') = false)
     (λ _, False).
Proof.
  intros Hcond. revert p. induction fuel as [|fuel IH]; intros p Hts Hfuel.
  all: cbn [advanceWhile]; apply wp_currentToken.
  all: destruct (cond (current p)) eqn:Hc; [|by apply wp_ret].
  all: assert (position p < length ts).
  1,3: unfold current in Hc; rewrite <- Hts;
       destruct (tokens p !! position p) eqn:E;
       [by eapply lookup_lt_Some | simpl in Hc; congruence].
  - lia.
  - apply wp_advance. intros p1 Hts1 Hpos1.
    eapply wp_mono; [apply IH; [congruence | lia] | | done].
    intros [] p' [[Hts' Hpos] Hc']. simpl in *.
    split; [split; [done | lia] | done].
Qed.

Lemma expression_statement node :
  expression node = true → statement node = true.
Proof. by destruct node. Qed.

Lemma forallb_snoc {A} (f : A → bool) l x :
  forallb f l = true → f x = true → forallb f (l ++ [x]) = true.
Proof. intros Hl Hx. rewrite forallb_app. simpl. by rewrite Hl, Hx. Qed.

Ltac note H :=
  let T := type of H in
  lazymatch goal with
  | _ : T |- _ => fail
  | _ => pose proof H
  end.

(** Closes what is left of a run: the positions, the fuel of a call, the
    shape of the tree. *)
Ltac side :=
  unfold reached in *; cbn [asBlock] in *;
  repeat match goal with
    | H : _ ∧ _ |- _ => destruct H
    | H : ∃ _, _ |- _ => destruct H
    | H : negb _ = false |- _ => apply negb_false_iff in H
    | H : negb _ = true |- _ => apply negb_true_iff in H
    | H : _ && _ = true |- _ => apply andb_true_iff in H
    end;
  repeat match goal with
    | H : ?x = BlockNode _ |- _ => is_var x; subst x; cbn [asBlock] in *
    | H : Some ?a = Some ?b |- _ =>
        injection H as H; first [subst b | subst a]
    | H : None = Some _ |- _ => discriminate H
    end;
  repeat match goal with
    | H : tokens ?p1 = tokens ?p, H' : tokens ?p = ts |- _ =>
        rewrite H' in H
    end;
  repeat match goal with
    | Hts : tokens ?p = ts, H : typeIs ?ty (current ?p) = true |- _ =>
        note (seen_typeIs p ty Hts H ltac:(discriminate))
    | Hts : tokens ?p = ts, H : Token.type (current ?p) = ?ty |- _ =>
        note (seen p ty Hts H ltac:(discriminate))
    | Hts : tokens ?p = ts, H : ?f (Token.type (current ?p)) = Some ?op |- _ =>
        note (seen_op f p op Hts H eq_refl)
    end;
  cbn [statement expression forallb from_option];
  repeat match goal with
    | |- _ ∧ _ => split
    | |- forallb _ (_ ++ [_]) = true => apply forallb_snoc
    | |- _ && _ = true => apply andb_true_intro; split
    end;
  first [ done | congruence | lia | by apply expression_statement | eauto ].

(** Runs through the assignments, tests and throws of a routine up to its
    next call. *)
Ltac go :=
  repeat match goal with
    | |- wp (mret _) _ _ _ => apply wp_ret
    | |- wp (mret _ ≫= _) _ _ _ => apply wp_ret_bind
    | |- wp ((_ ≫= _) ≫= _) _ _ _ => apply wp_assoc
    | |- wp (throw _) _ _ _ => apply wp_throw
    | |- wp (throw _ ≫= _) _ _ _ => apply wp_throw_bind
    | |- wp outOfFuel _ _ _ => exfalso
    | |- wp (currentToken ≫= _) _ _ _ => apply wp_currentToken
    | |- wp (advance ≫= _) _ _ _ => apply wp_advance; intros ? ? ?
    | |- wp (tokensLeft ≫= _) _ _ _ => apply wp_tokensLeft
    | |- wp (if ?b then _ else _) _ _ _ => destruct b eqn:?
    | |- wp ((if ?b then _ else _) ≫= _) _ _ _ => destruct b eqn:?
    | |- wp (match ?x with _ => _ end) _ _ _ => destruct x eqn:?
    end;
  try solve [side].

(** A call of a routine whose run is known. *)
Tactic Notation "call" constr(H) :=
  lazymatch goal with
  | |- wp (_ ≫= _) _ _ _ =>
      eapply wp_bind;
        [apply H; solve [side] | intros ? ? ? | intros ? ?; side]
  | |- _ =>
      eapply wp_mono;
        [apply H; solve [side] | intros ? ? ?; side | intros ? ?; side]
  end.

Lemma parseParameters_ends fuel parameters p :
  tokens p = ts → length ts - position p ≤ fuel →
  wp (parseParameters fuel parameters) p
     (λ _ p', reached (position p) p') (reached (position p)).
Proof.
  revert parameters p.
  induction fuel as [|fuel IH]; intros parameters p Hts Hfuel;
    cbn [parseParameters]; go.
  call IH.
Qed.

(** What a routine needs and gives: with [7 * left + c] units of fuel,
    where [left] tokens are left, its run ends, having moved [position] on
    by [k] at least and, when it returns, with a value that satisfies
    [Q]. *)
Definition fits {A} (c k : nat) (m : M A) (Q : A → Prop) (fuel : nat)
  : Prop :=
  ∀ p, tokens p = ts → 7 * (length ts - position p) + c ≤ fuel →
       wp m p (λ a p', reached (k + position p) p' ∧ Q a)
          (reached (position p)).

Definition isExpression (node : Node) : Prop := expression node = true.
Definition isStatement (node : Node) : Prop := statement node = true.
Definition areExpressions (l : list Node) : Prop :=
  forallb expression l = true.
Definition areStatements (l : list Node) : Prop :=
  forallb statement l = true.

Record good (fuel : nat) : Prop := {
  good_statement : ∀ p,
    tokens p = ts → 7 * (length ts - position p) + 6 ≤ fuel →
    wp (parseStatement fuel) p
       (λ r p', reached (position p) p'
                ∧ (Token.type (current p) ≠ END_OF_FILE →
                   position p < position p')
                ∧ from_option isStatement True r)
       (reached (position p));
  good_block :
    fits 1 1 (parseBlock fuel)
      (λ node, ∃ l, node = BlockNode l ∧ areStatements l) fuel;
  good_blockLoop : ∀ l, areStatements l →
    fits 7 0 (parseBlockLoop fuel l) areStatements fuel;
  good_variableDeclaration :
    fits 5 1 (parseVariableDeclaration fuel) isStatement fuel;
  good_expression : fits 4 1 (parseExpression fuel) isExpression fuel;
  good_expressionLoop : ∀ l, isExpression l →
    fits 1 0 (parseExpressionLoop fuel l) isExpression fuel;
  good_term : fits 3 1 (parseTerm fuel) isExpression fuel;
  good_termLoop : ∀ l, isExpression l →
    fits 1 0 (parseTermLoop fuel l) isExpression fuel;
  good_factor : fits 2 1 (parseFactor fuel) isExpression fuel;
  good_factorLoop : ∀ l, isExpression l →
    fits 1 0 (parseFactorLoop fuel l) isExpression fuel;
  good_primary : fits 1 1 (parsePrimary fuel) isExpression fuel;
  good_arguments : ∀ l, areExpressions l →
    fits 1 0 (parseArguments fuel l) areExpressions fuel;
  good_function : fits 5 1 (parseFunction fuel) isStatement fuel;
  good_ifStatement : fits 5 1 (parseIfStatement fuel) isStatement fuel;
  good_whileLoop : fits 5 1 (parseWhileLoop fuel) isStatement fuel;
  good_printStatement : fits 5 1 (parsePrintStatement fuel) isStatement fuel
}.

Lemma good_all fuel : good fuel.
Proof.
  induction fuel as [|fuel [HS HB HBL HV HE HEL HT HTL HF HFL HP HA HFn HI HW HPr]].
  { split; unfold fits; intros; lia. }
  unfold fits, isExpression, isStatement, areExpressions, areStatements in *.
  split; unfold fits, isExpression, isStatement, areExpressions, areStatements.
  - (* parseStatement *)
    intros p Hts Hfuel. cbn [parseStatement]. go.
    eapply wp_bind with (E' := λ _, False);
      [apply (advanceWhile_ends (typeIs EOL)); [done | done | rewrite Hts; lia]
      | | done].
    intros [] p1 [Hp1 Hc1]. go.
    { pose proof (moved p p1 Hts Hp1 Heqb). side. }
    all: by first [call HFn | call HV | call HI | call HW | call HPr
                  | call HE | call HB]; go.
  - (* parseBlock *)
    intros p Hts Hfuel. cbn [parseBlock]. go. call HBL. go.
  - (* parseBlockLoop *)
    intros l Hl p Hts Hfuel. cbn [parseBlockLoop]. go.
    apply andb_true_iff in Heqb
      as [_ Hne%negb_true_iff%bool_decide_eq_false].
    pose proof (seen p _ Hts eq_refl Hne).
    eapply wp_bind; [apply HS; solve [side] | | intros ? ?; side].
    intros a p' (Hr & Hmv & Ha). specialize (Hmv Hne).
    destruct a as [node|]; call HBL.
  - (* parseVariableDeclaration *)
    intros p Hts Hfuel. cbn [parseVariableDeclaration]. go. call HE. go.
  - (* parseExpression *)
    intros p Hts Hfuel. cbn [parseExpression]. call HT. call HEL.
  - intros l Hl p Hts Hfuel. cbn [parseExpressionLoop]. go.
    all: call HT; call HEL.
  - intros p Hts Hfuel. cbn [parseTerm]. call HF. call HTL.
  - intros l Hl p Hts Hfuel. cbn [parseTermLoop]. go.
    all: call HF; call HTL.
  - intros p Hts Hfuel. cbn [parseFactor]. call HP. call HFL.
  - intros l Hl p Hts Hfuel. cbn [parseFactorLoop]. go.
    all: call HP; call HFL.
  - (* parsePrimary *)
    intros p Hts Hfuel. cbn [parsePrimary]. go.
    + call HE. go.
    + call HE. call HA. go.
  - (* parseArguments *)
    intros l Hl p Hts Hfuel. cbn [parseArguments]. go. call HE. call HA.
  - (* parseFunction *)
    intros p Hts Hfuel. cbn [parseFunction]. go.
    + eapply wp_bind; [apply parseParameters_ends | | intros ? ?; side].
      * side.
      * match goal with
        | |- _ ≤ length (tokens ?q) - _ =>
            assert (tokens q = ts) as E by side; rewrite E; lia
        end.
      * intros ? ? ?. go. call HB. go.
    + call HB. go.
  - (* parseIfStatement *)
    intros p Hts Hfuel. cbn [parseIfStatement]. go.
    call HE. call HB. go. call HB. go.
  - (* parseWhileLoop *)
    intros p Hts Hfuel. cbn [parseWhileLoop]. go.
    call HE. call HB. go.
  - (* parsePrintStatement *)
    intros p Hts Hfuel. cbn [parsePrintStatement]. go. call HE. go.
Qed.

(** The token under the cursor is one of the list or the default
    [END_OF_FILE]. *)
Lemma current_notEOL p :
  tokens p = ts → forallb notEOL ts = true → typeIs EOL (current p) = false.
Proof.
  intros <- Hall. unfold current.
  destruct (tokens p !! position p) as [tok|] eqn:E; [|done].
  apply list_elem_of_lookup_2 in E.
  rewrite forallb_forall in Hall. apply list_elem_of_In, Hall in E.
  unfold notEOL in E. by apply negb_true_iff in E.
Qed.

Lemma parseProgramLoop_at_END_OF_FILE turns statements cerr p :
  typeIs END_OF_FILE (current p) = true →
  parseProgramLoop turns statements cerr p = (Ok (statements, cerr), p).
Proof.
  intros H. unfold current in H.
  destruct turns; cbn [parseProgramLoop]; by rewrite H.
Qed.

(** The loop of [parseProgram] ends within its turns, every exception
    caught; without [EOL] tokens, the first exception is the last. *)
Lemma parseProgramLoop_ends turns statements cerr p :
  tokens p = ts → length ts - position p < turns →
  forallb statement statements = true →
  ∃ statements' cerr' p',
    parseProgramLoop turns statements cerr p = (Ok (statements', cerr'), p')
    ∧ forallb statement statements' = true
    ∧ (forallb notEOL ts = true → length cerr' ≤ S (length cerr)).
Proof.
  revert statements cerr p.
  induction turns as [|turns IH]; intros statements cerr p Hts Hturns Hst;
    [lia|].
  destruct (typeIs END_OF_FILE (current p)) eqn:Heof.
  { rewrite parseProgramLoop_at_END_OF_FILE by done.
    eexists _, _, _. split; [done|]. split; [done | lia]. }
  cbn [parseProgramLoop]. fold (current p). rewrite Heof.
  pose proof Heof as Hne%bool_decide_eq_false.
  pose proof (seen p _ Hts eq_refl Hne) as Hlt.
  pose proof (good_statement _ (good_all (statementFuel p)) p Hts) as Hrun.
  unfold wp in Hrun.
  destruct (parseStatement (statementFuel p) p) as [[[node|]|what|] p1].
  - destruct Hrun as ([Hts1 Hpos1] & Hmv & Hnode);
      [unfold statementFuel; rewrite Hts; lia|].
    specialize (Hmv Hne).
    apply IH; [done | lia | by apply forallb_snoc].
  - destruct Hrun as ([Hts1 Hpos1] & Hmv & _);
      [unfold statementFuel; rewrite Hts; lia|].
    specialize (Hmv Hne). apply IH; [done | lia | done].
  - destruct Hrun as [Hts1 Hpos1]; [unfold statementFuel; rewrite Hts; lia|].
    pose proof (advanceWhile_ends
                  (λ tok, negb (typeIs EOL tok) && negb (typeIs END_OF_FILE tok))
                  (length (tokens p1) - position p1) p1 eq_refl Hts1) as Hskip.
    unfold wp in Hskip.
    destruct (advanceWhile _ _ p1) as [[[]|what'|] p2];
      [|by exfalso; apply Hskip; rewrite Hts1..].
    destruct Hskip as [[Hts2 Hpos2] Hstop]; [by rewrite Hts1|].
    cbv beta in Hstop.
    fold (current p1) (current p2).
    set (p3 := if typeIs EOL (current p2) then _ else p2).
    assert (tokens p3 = ts ∧ position p < position p3) as [Hts3 Hpos3].
    { subst p3. destruct (typeIs EOL (current p2)) eqn:Heol; simpl;
        [split; [done | lia]|].
      split; [done|]. simpl in Hstop. apply negb_false_iff in Hstop.
      apply (moved p p2); [done | split; [done | lia] | done | done]. }
    destruct (IH statements
                (cerr ++ [diagnostic (Token.line (current p1))
                            (Token.column (current p1)) what]) p3)
      as (statements' & cerr' & p' & Hloop & Hst' & _); [done | lia | done |].
    eexists _, _, _. split; [exact Hloop|]. split; [done|].
    intros Hall.
    assert (typeIs END_OF_FILE (current p3) = true) as Heof3.
    { subst p3. rewrite (current_notEOL p2 Hts2 Hall) in Hstop |- *.
      simpl in Hstop. by apply negb_false_iff in Hstop. }
    rewrite parseProgramLoop_at_END_OF_FILE in Hloop by done.
    injection Hloop as _ <- _. rewrite length_app. simpl. lia.
  - destruct Hrun. unfold statementFuel. rewrite Hts. lia.
Qed.

End Runs.
End ParserFacts.

(** X8. Whatever the token list, [parse] returns a Program node: the
    recursive descent ends (the fuel [parseProgram] hands out in this model
    always suffices), and every exception a routine throws, the
    [std::invalid_argument] of [std::stod] included, is caught by the loop
    of [parseProgram] and turned into a line of [std::cerr]. *)
Theorem parse_always_returns_a_Program (tokens : TokenList) :
  ∃ statements cerr, parse tokens = Parser.Ok (ProgramNode statements, cerr).
Proof.
  destruct (ParserFacts.parseProgramLoop_ends tokens
              (S (length tokens - 0)) [] [] (Parser.mk tokens 0) eq_refl)
    as (statements & cerr & p' & Hloop & _); [simpl; lia | done |].
  exists statements, cerr. unfold parse, Parser.parseProgram.
  cbn [Parser.tokens Parser.position]. by rewrite Hloop.
Qed.

(** X9. The statements of a program [parse] returns are trees of the
    grammar: no pointer to a child is null (a declaration has its initial
    value, a function its body, an If its then-block, a While its body, a
    Print and a Return their expression); conditions, initial values,
    operands, arguments, printed and returned values are expressions
    (operators over numbers, strings, names and calls); and no Program node
    is nested. *)
Theorem parsed_statements_are_well_formed
    (tokens : TokenList) statements cerr :
  parse tokens = Parser.Ok (ProgramNode statements, cerr) →
  forallb statement statements = true.
Proof.
  destruct (ParserFacts.parseProgramLoop_ends tokens
              (S (length tokens - 0)) [] [] (Parser.mk tokens 0) eq_refl)
    as (statements' & cerr' & p' & Hloop & Hst & _); [simpl; lia | done |].
  unfold parse, Parser.parseProgram.
  cbn [Parser.tokens Parser.position]. rewrite Hloop. by intros [= <- _].
Qed.

(** On the tokens of [if x { return 1 }]. *)
Lemma parsed_statements_are_well_formed_witness :
  forallb statement
    [IfNode (IdentifierNode "x") (Some [ReturnNode (Some (NumberNode 1))])
       None]
  = true.
Proof.
  exact (parsed_statements_are_well_formed
           [ Token.mk IF "if" 1 1; Token.mk IDENTIFIER "x" 1 4;
             Token.mk LEFT_BRACE "{" 1 6; Token.mk RETURN "return" 1 8;
             Token.mk NUMBER "1" 1 15; Token.mk RIGHT_BRACE "}" 1 17;
             Token.mk END_OF_FILE "" 1 18 ]
           _ [] eq_refl).
Defined.

(** X10. Lexing then parsing never fails and reports at most one error:
    for every program text the parser returns a Program node and writes at
    most one line to [std::cerr].  The lexer gives no [EOL] token, so the
    recovery after the first exception skips to [END_OF_FILE] and the loop
    of [parseProgram] ends there. *)
Theorem at_most_one_parse_error (src : string) :
  ∃ statements cerr,
    parseSource src = Parser.Ok (ProgramNode statements, cerr)
    ∧ (length cerr ≤ 1)%nat.
Proof.
  destruct (LexerFacts.tokenizeFrom_total (Lexer.new src))
    as (lx' & pushed & Hloop & Htok); [apply LexerFacts.wf_new|].
  set (tokens := pushed ++ [Token.mk END_OF_FILE "" (Lexer.line lx')
                              (Lexer.column lx')]) in *.
  assert (forallb notEOL tokens = true) as Hall.
  { subst tokens. rewrite forallb_app.
    by rewrite (LexerFacts.tokenizeLoop_notEOL _ _ _ _ _ Hloop). }
  destruct (ParserFacts.parseProgramLoop_ends tokens
              (S (length tokens - 0)) [] [] (Parser.mk tokens 0) eq_refl)
    as (statements & cerr & p' & Hparse & _ & Hcerr); [simpl; lia | done |].
  exists statements, cerr. split; [|by apply Hcerr].
  unfold parseSource, tokenize. rewrite Htok.
  unfold parse, Parser.parseProgram.
  cbn [Parser.tokens Parser.position]. by rewrite Hparse.
Qed.

(** ** Parser: trees read back from their tokens *)
Module ParserRoundTrip.
Import Parser ParserFacts.
#[local] Open Scope nat_scope.

(** The token under the cursor when the tokens [l] are left. *)
Definition next (l : TokenList) : Token :=
  match l with
  | tok :: _ => tok
  | [] => Token.mk END_OF_FILE "" 0 0
  end.

(** The tokens from [position] on are [l]. *)
Definition reads (p : t) (l : TokenList) : Prop :=
  drop (position p) (tokens p) = l.

Lemma reads_current p l : reads p l → current p = next l.
Proof.
  unfold reads, current. intros <-.
  rewrite <- (Nat.add_0_r (position p)) at 1. rewrite <- lookup_drop.
  by destruct (drop (position p) (tokens p)).
Qed.

Lemma reads_advance p p' tok l :
  reads p (tok :: l) → tokens p' = tokens p → position p' = S (position p) →
  reads p' l.
Proof.
  unfold reads. intros H -> ->.
  assert (tokens p !! position p = Some tok) as E.
  { by rewrite <- (Nat.add_0_r (position p)), <- lookup_drop, H. }
  apply drop_S in E. congruence.
Qed.

Lemma reads_left p l : reads p l → length (tokens p) - position p = length l.
Proof. unfold reads. intros <-. by rewrite length_drop. Qed.

(** The run of [m] from [p] returns [a], with the tokens [rest] left. *)
Definition gives {A} (m : M A) (p : t) (a : A) (rest : TokenList) : Prop :=
  wp m p (λ a' p', a' = a ∧ reads p' rest) (λ _, False).

Lemma gives_bind {A B} (m : M A) (k : A → M B) p a rest Q (E : t → Prop) :
  gives m p a rest →
  (∀ p', reads p' rest → wp (k a) p' Q E) →
  wp (m ≫= k) p Q E.
Proof.
  intros Hm Hk. eapply wp_bind; [exact Hm | | done].
  by intros a' p' [-> Hr]; apply Hk.
Qed.

Lemma gives_last {A} (m : M A) p a rest (Q : A → t → Prop) (E : t → Prop) :
  gives m p a rest →
  (∀ p', reads p' rest → Q a p') →
  wp m p Q E.
Proof.
  intros Hm HQ. eapply wp_mono; [exact Hm | | done].
  by intros a' p' [-> Hr]; apply HQ.
Qed.

(** No operator comes next. *)
Definition quiet (l : TokenList) : Prop :=
  expressionOp (Token.type (next l)) = None
  ∧ termOp (Token.type (next l)) = None
  ∧ factorOp (Token.type (next l)) = None.

(** The list in cons cells as far as it is known. *)
Ltac flat H :=
  unfold parenthesised, braced in H;
  repeat (progress (rewrite <- ?app_assoc in H; cbn [app] in H)).

Ltac afford :=
  unfold parenthesised, braced in *;
  repeat (progress (cbn [length] in *; rewrite ?length_app in * ));
  lia.

Ltac settle := first [done | by left | by right | by intros [?|?]].

Ltac run :=
  repeat first
    [ progress cbn [next Token.type Token.value token
                    operatorToken expressionOp termOp factorOp typeIs
                    negb andb]
    | match goal with
      | |- wp (mret _) _ _ _ => apply wp_ret
      | |- wp (mret _ ≫= _) _ _ _ => apply wp_ret_bind
      | |- wp ((_ ≫= _) ≫= _) _ _ _ => apply wp_assoc
      | H : reads ?p _ |- wp (currentToken ≫= _) ?p _ _ =>
          apply wp_currentToken; rewrite (reads_current _ _ H)
      | H : reads ?p (_ :: _) |- wp (advance ≫= _) ?p _ _ =>
          let p' := fresh "p" in
          let Ht := fresh "Ht" in
          let Hp := fresh "Hp" in
          apply wp_advance; intros p' Ht Hp;
          apply (reads_advance _ p' _ _) in H; [|exact Ht|exact Hp];
          clear Ht Hp
      | H : ?f (Token.type (next ?rest)) = None
        |- context [?f (Token.type (next ?rest))] => rewrite H
      | |- context [typeIs _ _] => unfold typeIs
      | |- context [bool_decide ?P] =>
          first [ rewrite (bool_decide_eq_true_2 P) by settle
                | rewrite (bool_decide_eq_false_2 P) by settle ]
      end ].

(** Into the body of a routine: its fuel is not used up. *)
#[local] Tactic Notation "enter" constr(R) :=
  try match goal with
      | |- context [R ?f] =>
          is_var f; destruct f as [|f]; [exfalso; afford|]
      end;
  match goal with
  | |- context [R (S ?f)] =>
      let body := eval cbn [R] in (λ g, R (S g)) in
      change (R (S f)) with (body f); cbv beta
  end.

(** A call whose run is known. *)
#[local] Tactic Notation "call" uconstr(H) :=
  cbv beta;
  repeat match goal with
         | |- wp ((_ ≫= _) ≫= _) _ _ _ => apply wp_assoc
         end;
  lazymatch goal with
  | |- wp (_ ≫= _) _ _ _ => eapply gives_bind; [eapply H|]
  | |- gives _ _ _ _ => eapply H
  | |- _ => eapply gives_last; [eapply H|]
  end.

Section Expressions.
Variable lexeme : Q → string.

Lemma parseFactorLoop_quiet fuel left p rest :
  reads p rest → factorOp (Token.type (next rest)) = None → 1 ≤ fuel →
  gives (parseFactorLoop fuel left) p left rest.
Proof.
  intros Hr Hq Hf. unfold gives. enter parseFactorLoop. run. done.
Qed.

Lemma parseTermLoop_quiet fuel left p rest :
  reads p rest → termOp (Token.type (next rest)) = None → 1 ≤ fuel →
  gives (parseTermLoop fuel left) p left rest.
Proof.
  intros Hr Hq Hf. unfold gives. enter parseTermLoop. run. done.
Qed.

Lemma parseExpressionLoop_quiet fuel left p rest :
  reads p rest → expressionOp (Token.type (next rest)) = None → 1 ≤ fuel →
  gives (parseExpressionLoop fuel left) p left rest.
Proof.
  intros Hr Hq Hf. unfold gives. enter parseExpressionLoop. run. done.
Qed.

(** [parsePrimary] reads the tokens [l] as [e] and leaves [rest]. *)
Definition primary (l : TokenList) (e : Node) (rest : TokenList) : Prop :=
  ∀ fuel p, reads p l → 7 * length l + 1 ≤ fuel →
            gives (parsePrimary fuel) p e rest.

(** [parseExpression] reads [e] written out, up to a token that is no
    operator. *)
Definition asExpression (e : Node) : Prop :=
  ∀ fuel p rest,
    reads p (written lexeme e ++ rest) → quiet rest →
    7 * length (written lexeme e ++ rest) + 4 ≤ fuel →
    gives (parseExpression fuel) p e rest.

Lemma parseFactor_primary l e rest fuel p :
  primary l e rest → factorOp (Token.type (next rest)) = None →
  reads p l → 7 * length l + 2 ≤ fuel →
  gives (parseFactor fuel) p e rest.
Proof.
  intros Hl Hq Hr Hf. unfold gives. enter parseFactor.
  call Hl; [done | lia |]. intros p1 Hr1.
  call parseFactorLoop_quiet; [done | done | lia | done].
Qed.

Lemma parseTerm_primary l e rest fuel p :
  primary l e rest → quiet rest →
  reads p l → 7 * length l + 3 ≤ fuel →
  gives (parseTerm fuel) p e rest.
Proof.
  intros Hl (_ & Hqt & Hqf) Hr Hf. unfold gives. enter parseTerm.
  call parseFactor_primary; [done | done | done | lia |]. intros p1 Hr1.
  call parseTermLoop_quiet; [done | done | lia | done].
Qed.

Lemma parseExpression_primary l e rest fuel p :
  primary l e rest → quiet rest →
  reads p l → 7 * length l + 4 ≤ fuel →
  gives (parseExpression fuel) p e rest.
Proof.
  intros Hl Hq Hr Hf. unfold gives. enter parseExpression.
  call parseTerm_primary; [done | done | done | lia |]. intros p1 Hr1.
  destruct Hq as (Hqe & _).
  call parseExpressionLoop_quiet; [done | done | lia | done].
Qed.

Lemma quiet_RIGHT_PAREN rest : quiet (token RIGHT_PAREN ")" :: rest).
Proof. done. Qed.

(** An expression in parentheses is a primary. *)
Lemma primary_parenthesised e rest :
  asExpression e →
  primary (token LEFT_PAREN "(" :: written lexeme e
             ++ token RIGHT_PAREN ")" :: rest) e rest.
Proof.
  intros He fuel p Hr Hf. unfold gives. enter parsePrimary. run.
  call He; [exact Hr | apply quiet_RIGHT_PAREN | afford |].
  clear Hr. intros p1 Hr. run. done.
Qed.

(** Through the levels of an expression whose operands are in
    parentheses. *)
Ltac operand :=
  match goal with
  | Hr : reads ?p _ |- wp (parsePrimary _ ≫= _) ?p _ _ =>
      call primary_parenthesised; [| exact Hr | |];
      [eassumption | afford | clear Hr; intros ? Hr]
  end.

Ltac level :=
  match goal with
  | |- wp (parseTerm _ ≫= _) _ _ _ => enter parseTerm
  | |- wp (parseFactor _ ≫= _) _ _ _ => enter parseFactor
  | |- wp (parseFactorLoop _ _ ≫= _) _ _ _ => enter parseFactorLoop
  | |- wp (parseTermLoop _ _ ≫= _) _ _ _ => enter parseTermLoop
  | |- wp (parseExpressionLoop _ _ ≫= _) _ _ _ => enter parseExpressionLoop
  | |- wp (parseFactorLoop _ _) _ _ _ => enter parseFactorLoop
  | |- wp (parseTermLoop _ _) _ _ _ => enter parseTermLoop
  | |- wp (parseExpressionLoop _ _) _ _ _ => enter parseExpressionLoop
  end.

Ltac drive := repeat first [progress run | operand | level].

Lemma one_operator op l r rest fuel p :
  asExpression l → asExpression r → quiet rest →
  reads p (token LEFT_PAREN "(" :: written lexeme l
           ++ token RIGHT_PAREN ")" :: operatorToken op
           :: token LEFT_PAREN "(" :: written lexeme r
           ++ token RIGHT_PAREN ")" :: rest) →
  7 * length (token LEFT_PAREN "(" :: written lexeme l
              ++ token RIGHT_PAREN ")" :: operatorToken op
              :: token LEFT_PAREN "(" :: written lexeme r
              ++ token RIGHT_PAREN ")" :: rest) + 4 ≤ fuel →
  gives (parseExpression fuel) p (BinaryOpNode op l r) rest.
Proof.
  intros Hl Hr' (Hqe & Hqt & Hqf) Hr Hf. unfold gives.
  enter parseExpression. destruct op; drive; done.
Qed.

Lemma parseExpression_parenthesised e rest fuel p :
  asExpression e → quiet rest →
  reads p (token LEFT_PAREN "(" :: written lexeme e
           ++ token RIGHT_PAREN ")" :: rest) →
  7 * length (token LEFT_PAREN "(" :: written lexeme e
              ++ token RIGHT_PAREN ")" :: rest) + 4 ≤ fuel →
  gives (parseExpression fuel) p e rest.
Proof.
  intros He Hq Hr Hf.
  by eapply parseExpression_primary; [apply primary_parenthesised | ..].
Qed.

Lemma quiet_arguments (more : list Node) rest :
  quiet (flat_map (λ item, token COMMA "," :: item)
           ((λ a, parenthesised (written lexeme a)) <$> more)
         ++ token RIGHT_PAREN ")" :: rest).
Proof. by destruct more. Qed.

(** The arguments of a call after the first. *)
Lemma parseArguments_written more :
  Forall asExpression more →
  ∀ args fuel p rest,
    reads p (flat_map (λ item, token COMMA "," :: item)
               ((λ a, parenthesised (written lexeme a)) <$> more)
             ++ token RIGHT_PAREN ")" :: rest) →
    7 * length (flat_map (λ item, token COMMA "," :: item)
                  ((λ a, parenthesised (written lexeme a)) <$> more)
                ++ token RIGHT_PAREN ")" :: rest) + 1 ≤ fuel →
    gives (parseArguments fuel args) p (args ++ more)
      (token RIGHT_PAREN ")" :: rest).
Proof.
  induction 1 as [|a more Ha _ IH]; intros args fuel p rest Hr Hf;
    cbn [fmap list_fmap flat_map] in *; flat Hr; unfold gives;
    enter parseArguments; run.
  { by rewrite app_nil_r. }
  call parseExpression_parenthesised;
    [done | apply quiet_arguments | exact Hr | afford |].
  clear Hr. intros p1 Hr.
  call IH; [exact Hr | afford |]. intros p2 Hr2.
  by rewrite <- app_assoc.
Qed.

Lemma Forall_forallb (f g : Node → bool) (P : Node → Prop) l :
  Forall (λ e, f e = true → g e = true → P e) l →
  forallb f l = true → forallb g l = true →
  Forall P l.
Proof.
  induction 1 as [|e l He _ IH]; cbn [forallb]; [done|].
  intros [? ?]%andb_true_iff [? ?]%andb_true_iff. constructor; auto.
Qed.

(** [parseExpression] reads every expression back from its tokens. *)
Lemma expression_written e :
  expression e = true → legible lexeme e = true → asExpression e.
Proof.
  induction e as [| | | op l IHl r IHr | value | value | name | | callee args IH
                  | | | |] using Node_ind;
    try done; cbn [expression legible];
    intros Hex Hleg fuel p rest Hr Hq Hf; cbn [written] in *; flat Hr.
  - (* an operation *)
    apply andb_true_iff in Hex as [? ?], Hleg as [? ?].
    apply one_operator; auto. afford.
  - (* a number *)
    apply bool_decide_eq_true in Hleg.
    eapply parseExpression_primary; [|done|exact Hr|afford].
    clear dependent p. clear dependent fuel.
    intros fuel p Hr Hf. unfold gives. enter parsePrimary. run.
    rewrite Hleg. run. done.
  - (* a string *)
    eapply parseExpression_primary; [|done|exact Hr|afford].
    clear dependent p. clear dependent fuel.
    intros fuel p Hr Hf. unfold gives. enter parsePrimary. run. done.
  - (* a name *)
    eapply parseExpression_primary; [|done|exact Hr|afford].
    clear dependent p. clear dependent fuel.
    intros fuel p Hr Hf. unfold gives. enter parsePrimary. run.
    enter parseExpression. drive. enter parsePrimary. drive. done.
  - (* a call *)
    pose proof (Forall_forallb _ _ _ _ IH Hex Hleg) as Hargs.
    eapply parseExpression_primary; [|done|exact Hr|afford].
    clear dependent p. clear dependent fuel.
    intros fuel p Hr Hf. unfold gives. enter parsePrimary.
    destruct Hargs as [|a more Ha Hmore];
      cbn [fmap list_fmap commas] in *; flat Hr; run; [done|].
    call parseExpression_parenthesised;
      [done | apply quiet_arguments | exact Hr | afford |].
    clear Hr. intros ? Hr.
    call parseArguments_written; [done | exact Hr | afford |].
    clear Hr. intros ? Hr. run. done.
Qed.








Lemma wp_advanceWhile_stop {B} cond n (k : unit → M B) p Q E :
  cond (current p) = false →
  wp (k tt) p Q E → wp (advanceWhile cond n ≫= k) p Q E.
Proof.
  intros Hc Hk. unfold wp, mbind, M_bind in *.
  replace (advanceWhile cond n p) with (Ok tt, p); [done|].
  destruct n; cbn [advanceWhile]; unfold mbind, M_bind, currentToken;
    fold (current p); by rewrite Hc.
Qed.















(** Two operators in a row: the tighter one takes the operand between
    them, and of two equally tight ones the first. *)
Lemma two_operators op1 op2 a b c rest fuel p :
  asExpression a → asExpression b → asExpression c → quiet rest →
  reads p (token LEFT_PAREN "(" :: written lexeme a
           ++ token RIGHT_PAREN ")" :: operatorToken op1
           :: token LEFT_PAREN "(" :: written lexeme b
           ++ token RIGHT_PAREN ")" :: operatorToken op2
           :: token LEFT_PAREN "(" :: written lexeme c
           ++ token RIGHT_PAREN ")" :: rest) →
  7 * length (token LEFT_PAREN "(" :: written lexeme a
              ++ token RIGHT_PAREN ")" :: operatorToken op1
              :: token LEFT_PAREN "(" :: written lexeme b
              ++ token RIGHT_PAREN ")" :: operatorToken op2
              :: token LEFT_PAREN "(" :: written lexeme c
              ++ token RIGHT_PAREN ")" :: rest) + 4 ≤ fuel →
  gives (parseExpression fuel) p
    (if tightness op1 <? tightness op2
     then BinaryOpNode op1 a (BinaryOpNode op2 b c)
     else BinaryOpNode op2 (BinaryOpNode op1 a b) c) rest.
Proof.
  intros Ha Hb Hc (Hqe & Hqt & Hqf) Hr Hf. unfold gives.
  enter parseExpression. destruct op1, op2; drive; done.
Qed.

(** The word after [greater], [less] and [divided] is skipped. *)
Lemma glued op word a b rest fuel p :
  glue op = Some word →
  asExpression a → asExpression b → quiet rest →
  reads p (token LEFT_PAREN "(" :: written lexeme a
           ++ token RIGHT_PAREN ")" :: operatorToken op
           :: token IDENTIFIER word
           :: token LEFT_PAREN "(" :: written lexeme b
           ++ token RIGHT_PAREN ")" :: rest) →
  7 * length (token LEFT_PAREN "(" :: written lexeme a
              ++ token RIGHT_PAREN ")" :: operatorToken op
              :: token IDENTIFIER word
              :: token LEFT_PAREN "(" :: written lexeme b
              ++ token RIGHT_PAREN ")" :: rest) + 4 ≤ fuel →
  gives (parseExpression fuel) p (BinaryOpNode op a b) rest.
Proof.
  intros Hg Ha Hb (Hqe & Hqt & Hqf) Hr Hf. unfold gives.
  enter parseExpression.
  destruct op; try done; injection Hg as <-; drive; done.
Qed.

(** A program of one expression that begins with a parenthesis. *)
Lemma expression_program l e :
  Token.type (next l) = LEFT_PAREN →
  (∀ fuel p,
     reads p l → 7 * length l + 4 ≤ fuel →
     gives (parseExpression fuel) p e [token END_OF_FILE ""]) →
  parse l = Ok (ProgramNode [e], []).
Proof.
  intros Hhead He. unfold parse, parseProgram.
  set (p := mk l 0). assert (reads p l) as Hr by done.
  rewrite (reads_left _ _ Hr). clearbody p.
  generalize (length l) at 1. intros turns.
  cbn [parseProgramLoop]. fold (current p).
  rewrite (reads_current _ _ Hr).
  unfold typeIs at 1. rewrite bool_decide_eq_false_2 by (by rewrite Hhead).
  assert (gives (parseStatement (statementFuel p)) p (Some e)
            [token END_OF_FILE ""]) as Hrun.
  { assert (7 * length l + 6 ≤ statementFuel p) as Hf.
    { unfold statementFuel. rewrite (reads_left _ _ Hr). lia. }
    generalize dependent (statementFuel p). intros fuel Hf.
    unfold gives. enter parseStatement. apply wp_tokensLeft.
    apply wp_advanceWhile_stop.
    { rewrite (reads_current _ _ Hr). unfold typeIs. by rewrite Hhead. }
    apply wp_currentToken. rewrite (reads_current _ _ Hr), Hhead.
    unfold typeIs. rewrite Hhead. run.
    call He; [exact Hr | afford |]. intros ? ?. run. done. }
  unfold gives, wp in Hrun.
  destruct (parseStatement (statementFuel p) p) as [[node| |] p1];
    try done.
  destruct Hrun as [-> Hr1].
  rewrite parseProgramLoop_at_END_OF_FILE; [done|].
  by rewrite (reads_current _ _ Hr1).
Qed.

End Expressions.
End ParserRoundTrip.



(** X21.  Precedence and associativity: between two operators, each over
    operands in parentheses, the one of the tighter loop takes the operand
    in the middle, and of two operators of the same loop the first does. *)
Theorem operators_bind_by_level_then_to_the_left (lexeme : Q → string)
    (op1 op2 : Op) (a b c : Node) :
  forallb expression [a; b; c] = true →
  forallb (legible lexeme) [a; b; c] = true →
  parse (parenthesised (written lexeme a) ++ operatorToken op1
         :: parenthesised (written lexeme b) ++ operatorToken op2
         :: parenthesised (written lexeme c) ++ [token END_OF_FILE ""])
  = Parser.Ok
      (ProgramNode
         [if (tightness op1 <? tightness op2)%nat
          then BinaryOpNode op1 a (BinaryOpNode op2 b c)
          else BinaryOpNode op2 (BinaryOpNode op1 a b) c], []).
Proof.
  cbn [forallb]. rewrite !andb_true_r.
  intros [Ha [Hb Hc]%andb_true_iff]%andb_true_iff
         [Hla [Hlb Hlc]%andb_true_iff]%andb_true_iff.
  unfold parenthesised.
  repeat (rewrite <- ?app_assoc; cbn [app]).
  apply ParserRoundTrip.expression_program; [done|].
  intros fuel p Hr Hf.
  apply (ParserRoundTrip.two_operators lexeme);
    auto using ParserRoundTrip.expression_written.
  done.
Qed.

(** On [(a) plus (2) times (g())]. *)
Lemma operators_bind_by_level_then_to_the_left_witness :
  parse
    (parenthesised (written (λ _, "2") (IdentifierNode "a"))
     ++ operatorToken Add
     :: parenthesised (written (λ _, "2") (NumberNode 2))
     ++ operatorToken Multiply
     :: parenthesised (written (λ _, "2") (CallNode "g" []))
     ++ [token END_OF_FILE ""])
  = Parser.Ok
      (ProgramNode
         [BinaryOpNode Add (IdentifierNode "a")
            (BinaryOpNode Multiply (NumberNode 2) (CallNode "g" []))], []).
Proof.
  exact (operators_bind_by_level_then_to_the_left (λ _, "2") Add Multiply
           (IdentifierNode "a") (NumberNode 2) (CallNode "g" [])
           eq_refl eq_refl).
Defined.

(** X22.  The words [than] after [greater] and [less] and [by] after
    [divided] are skipped: with the word or without it, the operation is
    parsed to the same tree. *)
Theorem glue_word_is_skipped (lexeme : Q → string)
    (op : Op) (word : string) (a b : Node) :
  glue op = Some word →
  forallb expression [a; b] = true →
  forallb (legible lexeme) [a; b] = true →
  parse (parenthesised (written lexeme a) ++ operatorToken op
         :: token IDENTIFIER word
         :: parenthesised (written lexeme b) ++ [token END_OF_FILE ""])
  = Parser.Ok (ProgramNode [BinaryOpNode op a b], [])
  ∧ parse (parenthesised (written lexeme a) ++ operatorToken op
           :: parenthesised (written lexeme b) ++ [token END_OF_FILE ""])
    = Parser.Ok (ProgramNode [BinaryOpNode op a b], []).
Proof.
  cbn [forallb]. rewrite !andb_true_r.
  intros Hg [Ha Hb]%andb_true_iff [Hla Hlb]%andb_true_iff.
  unfold parenthesised.
  repeat (rewrite <- ?app_assoc; cbn [app]).
  split; (apply ParserRoundTrip.expression_program; [done|]);
    intros fuel p Hr Hf.
  - apply (ParserRoundTrip.glued lexeme op word);
      auto using ParserRoundTrip.expression_written.
    done.
  - apply (ParserRoundTrip.one_operator lexeme);
      auto using ParserRoundTrip.expression_written.
    done.
Qed.

(** On [(a) divided by (2)] and [(a) divided (2)]. *)
Lemma glue_word_is_skipped_witness :
  parse
    (parenthesised (written (λ _, "2") (IdentifierNode "a"))
     ++ operatorToken Divide :: token IDENTIFIER "by"
     :: parenthesised (written (λ _, "2") (NumberNode 2))
     ++ [token END_OF_FILE ""])
  = Parser.Ok
      (ProgramNode [BinaryOpNode Divide (IdentifierNode "a") (NumberNode 2)],
       [])
  ∧ parse
      (parenthesised (written (λ _, "2") (IdentifierNode "a"))
       ++ operatorToken Divide
       :: parenthesised (written (λ _, "2") (NumberNode 2))
       ++ [token END_OF_FILE ""])
    = Parser.Ok
        (ProgramNode
           [BinaryOpNode Divide (IdentifierNode "a") (NumberNode 2)], []).
Proof.
  exact (glue_word_is_skipped (λ _, "2") Divide "by"
           (IdentifierNode "a") (NumberNode 2) eq_refl eq_refl eq_refl).
Defined.

(** ** Code generator: outside a function, and what a visit keeps *)

Module GeneratorMore.
Import IR CodeGenerator GeneratorFacts.

Lemma getTerminator_snoc g g' b req :
  emitted g' = emitted g ++ [emit (AtEnd b) req] →
  getTerminator g' b = isTerminator req.
Proof.
  intros E. unfold getTerminator. rewrite E, filter_app.
  rewrite (filter_cons_True _ (emit (AtEnd b) req)) by done.
  by rewrite filter_nil, last_snoc.
Qed.

Section Visit.
Context {naming : Naming}.

Lemma visitFunction_terminated accept name parameters body g g' :
  visitFunction accept name parameters body g = Done tt g' →
  ∃ b, insertBlock g' = Some b ∧ getTerminator g' b = true.
Proof.
  intros H. unfold visitFunction in H.
  step H function g1 E1. step H entryBB g2 E2. step H u3 g3 E3.
  step H old g4 E4. step H u5 g5 E5. step H u6 g6 E6. step H u7 g7 E7.
  step H isTerminated g8 E8. step H u9 g9 E9.
  unfold terminated in E8.
  destruct (insertBlock g7) as [b|] eqn:Hb; [|done].
  injection E8 as <- <-. exists b.
  injection H as <-. unfold getTerminator. cbn [insertBlock emitted].
  fold (getTerminator g9 b).
  destruct (getTerminator g7 b) eqn:Ht; simpl in E9.
  - injection E9 as _ <-. by rewrite Hb, Ht.
  - unfold createRet in E9. step E9 v g10 E10. injection E9 as _ <-.
    unfold Insert in E10. rewrite Hb in E10. simpl in E10.
    injection E10 as _ <-. split; [done|].
    by apply (getTerminator_snoc g7 _ b (CreateRet (ConstantFP 0))).
Qed.

End Visit.

(** *** The generator outside every function *)

(** From [g] to [g'] the builder has had no insertion block, and what was
    requested of it is in no block. *)
Definition floats (g g' : t) : Prop :=
  insertBlock g' = None ∧ basicBlocks g' = basicBlocks g
  ∧ functions g' = functions g
  ∧ ∃ more, emitted g' = emitted g ++ more ∧ forallb nowhere more = true.

(** Started without an insertion block, [m] leaves the builder without
    one; and it dereferences a null pointer. *)
Definition outs {A} (m : G A) : Prop :=
  ∀ g a g', insertBlock g = None → m g = Done a g' → floats g g'.

Definition never {A} (m : G A) : Prop :=
  ∀ g, insertBlock g = None → m g = Fault.

Lemma floats_refl g : insertBlock g = None → floats g g.
Proof.
  intros H. repeat split; [done|]. exists []. by rewrite app_nil_r.
Qed.

Lemma floats_trans g1 g2 g3 : floats g1 g2 → floats g2 g3 → floats g1 g3.
Proof.
  intros (_ & Hb & Hf & l & He & Hl) (Hi & Hb' & Hf' & l' & He' & Hl').
  split; [done|]. split; [congruence|]. split; [congruence|].
  exists (l ++ l'). rewrite He', He, app_assoc, forallb_app, Hl, Hl'. done.
Qed.

Lemma never_outs {A} (m : G A) : never m → outs m.
Proof. intros H g a g' Hg E. by rewrite H in E. Qed.

Lemma never_fault {A} : never (@fault A).
Proof. done. Qed.

Lemma outs_ret {A} (a : A) : outs (mret a).
Proof. intros g a' g' Hg [= <- <-]. by apply floats_refl. Qed.

Lemma outs_bind {A B} (m : G A) (k : A → G B) :
  outs m → (∀ a, outs (k a)) → outs (m ≫= k).
Proof.
  intros Hm Hk g b g' Hg H. step H a g1 E.
  pose proof (Hm _ _ _ Hg E) as H1.
  eapply floats_trans; [done|]. eapply Hk; [apply H1 | done].
Qed.

Lemma never_bind_l {A B} (m : G A) (k : A → G B) :
  never m → never (m ≫= k).
Proof. intros Hm g Hg. unfold mbind, G_bind. by rewrite Hm. Qed.

Lemma never_bind_r {A B} (m : G A) (k : A → G B) :
  outs m → (∀ a, never (k a)) → never (m ≫= k).
Proof.
  intros Hm Hk g Hg. unfold mbind, G_bind.
  destruct (m g) as [a g1|] eqn:E; [|done].
  apply Hk, (Hm _ _ _ Hg E).
Qed.

Lemma outs_read {A} (f : t → A) : outs (λ g, Done (f g) g).
Proof. intros g a g' Hg [= <- <-]. by apply floats_refl. Qed.

Lemma outs_getCurrentValue : outs getCurrentValue.
Proof. apply outs_read. Qed.

Lemma outs_quiet {A} (m : G A) :
  (∀ g a g', m g = Done a g' →
     insertBlock g' = insertBlock g ∧ basicBlocks g' = basicBlocks g
     ∧ functions g' = functions g ∧ emitted g' = emitted g) →
  outs m.
Proof.
  intros H g a g' Hg E. destruct (H _ _ _ E) as (Hi & Hb & Hf & He).
  split; [congruence|]. split; [done|]. split; [done|].
  exists []. by rewrite app_nil_r.
Qed.

Lemma outs_setNamedValues m : outs (setNamedValues m).
Proof. apply outs_quiet. by intros g a g' [= <- <-]. Qed.

Lemma outs_setCurrentValue v : outs (setCurrentValue v).
Proof. apply outs_quiet. by intros g a g' [= <- <-]. Qed.

Lemma outs_report line : outs (report line).
Proof. apply outs_quiet. by intros g a g' [= <- <-]. Qed.

Lemma outs_bindName name v : outs (bindName name v).
Proof. apply outs_quiet. by intros g a g' [= <- <-]. Qed.

Lemma outs_namedValuesAt name : outs (namedValuesAt name).
Proof.
  apply outs_quiet. intros g a g'. unfold namedValuesAt.
  destruct (namedValues g !! name); by intros [= <- <-].
Qed.

Lemma outs_typeOf v : outs (typeOf v).
Proof.
  unfold typeOf. destruct (getType v); [apply outs_ret | done].
Qed.

Lemma outs_add req : outs (add Nowhere req).
Proof.
  intros g n g' Hg [= <- <-]. repeat split; [done|].
  by exists [emit Nowhere req].
Qed.

Lemma outs_Insert req ty : outs (Insert req ty).
Proof.
  intros g v g' Hg. unfold Insert. rewrite Hg. simpl.
  intros H. step H n g1 E. injection H as _ <-. by eapply outs_add.
Qed.

Lemma never_needInsertBlock : never needInsertBlock.
Proof. intros g Hg. unfold needInsertBlock. by rewrite Hg. Qed.

Lemma never_terminated : never terminated.
Proof. intros g Hg. unfold terminated. by rewrite Hg. Qed.

Lemma never_insertBlockParent : never insertBlockParent.
Proof. intros g Hg. unfold insertBlockParent. by rewrite Hg. Qed.

Create HintDb outside.

#[local] Hint Resolve never_outs never_fault outs_ret outs_read
  outs_getCurrentValue outs_setNamedValues outs_setCurrentValue outs_report
  outs_bindName outs_namedValuesAt outs_typeOf outs_add outs_Insert
  never_needInsertBlock never_terminated never_insertBlockParent : outside.

Ltac outs :=
  repeat first
    [ assumption
    | solve [auto with outside]
    | apply outs_bind; [|intros]
    | match goal with
      | |- outs (if ?b then _ else _) => destruct b
      | |- outs (match ?x with _ => _ end) => destruct x
      end ].

(** A null dereference on the way: at the first step, or after steps
    that leave the builder without an insertion block. *)
Ltac never :=
  first
    [ assumption
    | solve [auto with outside]
    | apply never_bind_l; never
    | apply never_bind_r; [solve [outs] | intros; never] ].

Lemma outs_Fold req ty : outs (Fold req ty).
Proof. unfold Fold. outs. Qed.

#[local] Hint Resolve outs_Fold : outside.

Lemma outs_createArithmetic req l r : outs (createArithmetic req l r).
Proof. unfold createArithmetic. outs. Qed.

Lemma outs_createCompare req l r : outs (createCompare req l r).
Proof. unfold createCompare. outs. Qed.

Lemma outs_createCall callee args name : outs (createCall callee args name).
Proof.
  intros g v g' Hg. unfold createCall. destruct callee as [f|]; [|done].
  destruct (functions g !! f); [by apply outs_Insert | done].
Qed.

Lemma outs_createRet v : outs (createRet v).
Proof. unfold createRet. outs. Qed.

Lemma never_createStore val ptr : never (createStore val ptr).
Proof. unfold createStore. never. Qed.

Lemma never_createLoad ptr name : never (createLoad ptr name).
Proof. unfold createLoad. never. Qed.

Lemma never_createGlobalStringPtr str name :
  never (createGlobalStringPtr str name).
Proof. unfold createGlobalStringPtr. never. Qed.

#[local] Hint Resolve outs_createArithmetic outs_createCompare
  outs_createCall outs_createRet never_createStore never_createLoad
  never_createGlobalStringPtr : outside.

Section Outside.
Context {naming : Naming}.

Lemma outs_condition v name : outs (condition v name).
Proof. unfold condition. outs. Qed.

Lemma never_enterLoop : never enterLoop.
Proof. unfold enterLoop. never. Qed.

#[local] Hint Resolve outs_condition never_enterLoop : outside.

Lemma outs_acceptEach accept statements :
  Forall (λ node, outs (accept node)) statements →
  outs (acceptEach accept statements).
Proof. induction 1; simpl; outs. Qed.

Lemma never_acceptEach accept statements :
  Forall (λ node, outs (accept node)) statements →
  Exists (λ node, never (accept node)) statements →
  never (acceptEach accept statements).
Proof.
  induction 1 as [|node rest Hnode Hrest IH]; intros Hex; simpl.
  - by apply Exists_nil in Hex.
  - apply Exists_cons in Hex as [Hn|Hex]; [by apply never_bind_l|].
    apply never_bind_r; [done | intros; by apply IH].
Qed.

Lemma outs_acceptArguments accept arguments argsV :
  Forall (λ node, outs (accept node)) arguments →
  outs (acceptArguments accept arguments argsV).
Proof. intros H. revert argsV. induction H; intros argsV; simpl; outs. Qed.

Lemma each_outside statements :
  Forall (λ node, functionFree node = true →
            outs (visit node) ∧ (needsBlock node = true → never (visit node)))
    statements →
  forallb functionFree statements = true →
  Forall (λ node, outs (visit node)) statements
  ∧ (existsb needsBlock statements = true →
     Exists (λ node, never (visit node)) statements).
Proof.
  induction 1 as [|node rest Hnode _ IH]; simpl.
  - intros _. split; [constructor | done].
  - intros [Hn Hrest]%andb_true_iff.
    destruct (Hnode Hn) as [Ho Hnever], (IH Hrest) as [Hos Hnevers].
    split; [by constructor|].
    intros [?|?]%orb_true_iff; [left | right]; auto.
Qed.

(** Outside every function, the visit of a tree that defines none leaves
    the builder without an insertion block; and it comes to a null
    dereference if it comes to a declaration, a string, an If or a
    While. *)
Lemma visit_outside node :
  functionFree node = true →
  outs (visit node) ∧ (needsBlock node = true → never (visit node)).
Proof.
  induction node as
    [ statements IH | statements IH | name isConstant init IH
    | operation l r IHl IHr | value | value | name
    | name parameters body IH | callee arguments IH
    | cond thenBlock elseBlock IHc IHt IHe | cond body IHc IHb
    | expression IH | value IH ] using Node_ind; intros Hfree.
  - destruct (each_outside statements IH Hfree) as [Ho Hn].
    split; [by apply outs_acceptEach|].
    intros Hneeds. by apply never_acceptEach; [|apply Hn].
  - destruct (each_outside statements IH Hfree) as [Ho Hn].
    split; [by apply outs_acceptEach|].
    intros Hneeds. by apply never_acceptEach; [|apply Hn].
  - change (visit (VariableDeclarationNode name isConstant init))
      with (visitVariableDeclaration visit name init).
    destruct init as [init|]; simpl in *; [|split; [outs | done]].
    destruct (IH Hfree) as [Ho _].
    assert (never (visitVariableDeclaration visit name (Some init)))
      by (unfold visitVariableDeclaration; never).
    split; [by apply never_outs | done].
  - change (visit (BinaryOpNode operation l r))
      with (visitBinaryOp visit operation l r).
    simpl in Hfree. apply andb_true_iff in Hfree as [Hl Hr].
    destruct (IHl Hl) as [Hol Hnl], (IHr Hr) as [Hor Hnr].
    unfold visitBinaryOp, generateBinaryOp. split.
    + clear Hnl Hnr. outs.
    + simpl. intros [H%Hnl|H%Hnr]%orb_true_iff; never.
  - split; [|done]. change (outs (visitNumber value)).
    unfold visitNumber. outs.
  - change (visit (StringNode value)) with (visitString value).
    assert (never (visitString value)) by (unfold visitString; never).
    split; [by apply never_outs | done].
  - split; [|done]. change (outs (visitIdentifier name)).
    unfold visitIdentifier. outs.
  - done.
  - split; [|done]. change (outs (visitCall visit callee arguments)).
    simpl in Hfree. destruct (each_outside arguments IH Hfree) as [Ho _].
    pose proof (λ argsV, outs_acceptArguments visit arguments argsV Ho).
    unfold visitCall. outs.
  - change (visit (IfNode cond thenBlock elseBlock))
      with (visitIf visit cond thenBlock elseBlock).
    simpl in Hfree.
    apply andb_true_iff in Hfree as [[Hc _]%andb_true_iff _].
    destruct (IHc Hc) as [Ho _].
    assert (never (visitIf visit cond thenBlock elseBlock))
      by (unfold visitIf; never).
    split; [by apply never_outs | done].
  - change (visit (WhileNode cond body)) with (visitWhile visit cond body).
    assert (never (visitWhile visit cond body))
      by (unfold visitWhile; never).
    split; [by apply never_outs | done].
  - change (visit (PrintNode expression)) with (visitPrint visit expression).
    destruct expression as [expr|]; simpl in *; [|split; [outs | done]].
    destruct (IH Hfree) as [Ho Hn]. unfold visitPrint. split; [outs|].
    intros H%Hn. never.
  - change (visit (ReturnNode value)) with (visitReturn visit value).
    destruct value as [expr|]; simpl in *; [|split; [outs | done]].
    destruct (IH Hfree) as [Ho Hn]. unfold visitReturn. split; [outs|].
    intros H%Hn. never.
Qed.

(** [CodeGenerator::generate] on a program that defines no function. *)
Lemma generate_floats ast g :
  functionFree ast = true → generate ast = Done tt g →
  insertBlock g = None ∧ basicBlocks g = []
  ∧ forallb nowhere (emitted g) = true.
Proof.
  intros Hfree H. unfold generate in H. step H u g0 E.
  injection E as _ <-.
  destruct (visit_outside ast Hfree) as [Ho _].
  destruct (λ Hg, Ho _ _ _ Hg H) as (Hi & Hb & _ & more & He & Hmore);
    [done|].
  split; [done|]. split; [done|]. by rewrite He.
Qed.

Lemma generate_never ast :
  functionFree ast = true → needsBlock ast = true → generate ast = Fault.
Proof.
  intros Hfree Hneeds. unfold generate.
  destruct (visit_outside ast Hfree) as [_ Hn].
  unfold mbind, G_bind.
  destruct (declareStandardFunctions _) as [u g0|] eqn:E; [|done].
  injection E as _ <-. by apply Hn.
Qed.

(** The value of an expression that failed is a null pointer, and the
    statements that use the value dereference it. *)
Lemma null_value_faults expr g g1 :
  visit expr g = Done tt g1 → currentValue g1 = Null →
  visit (PrintNode (Some expr)) g = Fault
  ∧ (∀ name isConstant,
       visit (VariableDeclarationNode name isConstant (Some expr)) g = Fault)
  ∧ (∀ thenBlock elseBlock,
       visit (IfNode expr thenBlock elseBlock) g = Fault).
Proof.
  intros H Hnull. split; [|split; intros].
  - change (visitPrint visit (Some expr) g = Fault).
    unfold visitPrint, mbind, G_bind. rewrite H.
    unfold getCurrentValue. by rewrite Hnull.
  - change (visitVariableDeclaration visit name (Some expr) g = Fault).
    unfold visitVariableDeclaration, mbind, G_bind. rewrite H.
    unfold getCurrentValue. rewrite Hnull.
    destruct (insertBlockParent g1) as [function g2|] eqn:E2; [|done].
    destruct (getEntryBlock function g2) as [entry g3|] eqn:E3; [|done].
    unfold createAllocaAtStart, createStore, mbind, G_bind. simpl.
    by destruct (needInsertBlock _).
  - change (visitIf visit expr thenBlock elseBlock g = Fault).
    unfold visitIf, mbind, G_bind. rewrite H.
    unfold getCurrentValue. by rewrite Hnull.
Qed.

End Outside.

(** *** What a visit keeps *)

(** [m] takes the generator to one that [R] relates it to. *)
Definition preserves (R : t → t → Prop) {A} (m : G A) : Prop :=
  ∀ g a g', m g = Done a g' → R g g'.

(** What makes every visit preserve [R]: the steps that change the
    generator do, and [R] looks through the scope of a function (the symbol
    table cleared on entry, the saved one put back on exit). *)
Record Kept {naming : Naming} (R : t → t → Prop) : Prop := {
  kept_refl : ∀ g, R g g;
  kept_trans : ∀ g1 g2 g3, R g1 g2 → R g2 g3 → R g1 g3;
  kept_FunctionCreate :
    ∀ name ret arity, preserves R (FunctionCreate name ret arity);
  kept_BasicBlockCreate :
    ∀ label function, preserves R (BasicBlockCreate label function);
  kept_insertInto :
    ∀ block function, preserves R (insertInto block function);
  kept_SetInsertPoint : ∀ block, preserves R (SetInsertPoint block);
  kept_setCurrentValue : ∀ v, preserves R (setCurrentValue v);
  kept_report : ∀ line, preserves R (report line);
  kept_namedValuesAt : ∀ name, preserves R (namedValuesAt name);
  kept_bindName :
    ∀ name n ty, preserves R (bindName name (Instruction n ty));
  kept_add : ∀ place req, preserves R (add place req);
  kept_scope : ∀ g g1 g2 g3,
    setNamedValues ∅ g = Done tt g1 → R g1 g2 →
    setNamedValues (namedValues g) g2 = Done tt g3 → R g g3
}.

Section Preserved.
Context {naming : Naming} (R : t → t → Prop) (HR : Kept R).

#[local] Abbreviation pres := (preserves R).

Let R_refl := kept_refl R HR.
Let R_trans := kept_trans R HR.
Let R_FunctionCreate := kept_FunctionCreate R HR.
Let R_BasicBlockCreate := kept_BasicBlockCreate R HR.
Let R_insertInto := kept_insertInto R HR.
Let R_SetInsertPoint := kept_SetInsertPoint R HR.
Let R_setCurrentValue := kept_setCurrentValue R HR.
Let R_report := kept_report R HR.
Let R_namedValuesAt := kept_namedValuesAt R HR.
Let R_bindName := kept_bindName R HR.
Let R_add := kept_add R HR.
Let R_scope := kept_scope R HR.

Lemma pres_ret {A} (a : A) : pres (mret a).
Proof. intros g a' g' [= <- <-]. apply R_refl. Qed.

Lemma pres_bind {A B} (m : G A) (k : A → G B) :
  pres m → (∀ a, pres (k a)) → pres (m ≫= k).
Proof.
  intros Hm Hk g b g' H. step H a g1 E.
  eapply R_trans; [by eapply Hm | by eapply Hk].
Qed.

Lemma pres_fault {A} : pres (@fault A).
Proof. by intros g a g'. Qed.

Lemma pres_read {A} (f : t → A) : pres (λ g, Done (f g) g).
Proof. intros g a g' [= <- <-]. apply R_refl. Qed.

Lemma pres_getCurrentValue : pres getCurrentValue.
Proof. apply pres_read. Qed.

Lemma pres_getNamedValues : pres getNamedValues.
Proof. apply pres_read. Qed.

Lemma pres_typeOf v : pres (typeOf v).
Proof.
  unfold typeOf. destruct (getType v); [apply pres_ret | apply pres_fault].
Qed.

Lemma pres_needInsertBlock : pres needInsertBlock.
Proof.
  intros g a g'. unfold needInsertBlock.
  destruct (insertBlock g); [|done]. intros [= <- <-]. apply R_refl.
Qed.

Lemma pres_terminated : pres terminated.
Proof.
  intros g a g'. unfold terminated.
  destruct (insertBlock g); [|done]. intros [= <- <-]. apply R_refl.
Qed.

Lemma pres_insertBlockParent : pres insertBlockParent.
Proof.
  intros g a g'. unfold insertBlockParent.
  destruct (insertBlock g); [|done]. intros [= <- <-]. apply R_refl.
Qed.

Lemma pres_getEntryBlock function : pres (getEntryBlock function).
Proof.
  intros g a g'. unfold getEntryBlock.
  destruct (_ ≫= _); [|done]. intros [= <- <-]. apply R_refl.
Qed.

Lemma pres_Insert req ty : pres (Insert req ty).
Proof.
  intros g v g' H. unfold Insert in H. step H n g1 E.
  injection H as _ <-. by eapply R_add.
Qed.

#[local] Hint Resolve pres_ret pres_fault pres_read pres_getCurrentValue
  pres_getNamedValues pres_typeOf pres_needInsertBlock pres_terminated
  pres_insertBlockParent pres_getEntryBlock pres_Insert
  R_FunctionCreate R_BasicBlockCreate R_insertInto R_SetInsertPoint
  R_setCurrentValue R_report R_namedValuesAt R_bindName R_add : core.

Ltac pres :=
  repeat first
    [ assumption
    | solve [auto]
    | apply pres_bind; [|intros]
    | match goal with
      | |- pres (if ?b then _ else _) => destruct b
      | |- pres (match ?x with _ => _ end) => destruct x
      end ].

Lemma pres_Fold req ty : pres (Fold req ty).
Proof. unfold Fold. pres. Qed.

#[local] Hint Resolve pres_Fold : core.

Lemma pres_createArithmetic req l r : pres (createArithmetic req l r).
Proof. unfold createArithmetic. pres. Qed.

Lemma pres_createCompare req l r : pres (createCompare req l r).
Proof. unfold createCompare. pres. Qed.

Lemma pres_createStore val ptr : pres (createStore val ptr).
Proof. unfold createStore. pres. Qed.

Lemma pres_createLoad ptr name : pres (createLoad ptr name).
Proof. unfold createLoad. pres. Qed.

Lemma pres_createGlobalStringPtr str name :
  pres (createGlobalStringPtr str name).
Proof. unfold createGlobalStringPtr. pres. Qed.

Lemma pres_createCall callee args name : pres (createCall callee args name).
Proof.
  intros g v g'. unfold createCall. destruct callee as [f|]; [|done].
  destruct (functions g !! f); [apply pres_Insert | done].
Qed.

Lemma pres_createBr dest : pres (createBr dest).
Proof. unfold createBr. pres. Qed.

Lemma pres_createCondBr cond ifTrue ifFalse :
  pres (createCondBr cond ifTrue ifFalse).
Proof. unfold createCondBr. pres. Qed.

Lemma pres_createRet v : pres (createRet v).
Proof. unfold createRet. pres. Qed.

(** A slot is an instruction, never null. *)
Lemma pres_createAlloca_bind {B} name (k : Value → G B) :
  (∀ n, pres (k (Instruction n PointerTy))) →
  pres (createAlloca name ≫= k).
Proof.
  intros Hk g b g' H. step H alloca g1 E.
  unfold createAlloca in E. step E b' g2 E2.
  apply pres_needInsertBlock in E2.
  pose proof (pres_Insert _ _ _ _ _ E) as E3.
  unfold Insert in E. step E n g3 E4. injection E as <- <-.
  eapply R_trans; [done|]. eapply R_trans; [done|]. by eapply Hk.
Qed.

Lemma pres_createAllocaAtStart_bind {B} entry name (k : Value → G B) :
  (∀ n, pres (k (Instruction n PointerTy))) →
  pres (createAllocaAtStart entry name ≫= k).
Proof.
  intros Hk g b g' H. step H alloca g1 E.
  unfold createAllocaAtStart in E. step E n g2 E2. injection E as <- <-.
  eapply R_trans; [by eapply R_add | by eapply Hk].
Qed.

#[local] Hint Resolve pres_createArithmetic pres_createCompare
  pres_createStore pres_createLoad pres_createGlobalStringPtr
  pres_createCall pres_createBr pres_createCondBr pres_createRet : core.

Lemma pres_condition v name : pres (condition v name).
Proof. unfold condition. pres. Qed.

Lemma pres_acceptEach accept statements :
  Forall (λ node, pres (accept node)) statements →
  pres (acceptEach accept statements).
Proof. induction 1; simpl; pres. Qed.

Lemma pres_acceptArguments accept arguments argsV :
  Forall (λ node, pres (accept node)) arguments →
  pres (acceptArguments accept arguments argsV).
Proof. intros H. revert argsV. induction H; intros argsV; simpl; pres. Qed.

Lemma pres_acceptBlock accept block :
  from_option (Forall (λ node, pres (accept node))) True block →
  pres (acceptBlock accept block).
Proof.
  destruct block; simpl; [apply pres_acceptEach | intros _; pres].
Qed.

Lemma pres_bindArguments function parameters given idx :
  pres (bindArguments function parameters given idx).
Proof.
  revert idx. induction parameters as [|p rest IH]; intros idx; simpl;
    [pres|].
  apply pres_createAlloca_bind. intros n. pres.
Qed.

Lemma pres_enterLoop : pres enterLoop.
Proof. unfold enterLoop. pres. Qed.

#[local] Hint Resolve pres_condition pres_acceptEach pres_acceptArguments
  pres_acceptBlock pres_bindArguments pres_enterLoop : core.

(** Every visit keeps [R]. *)
Lemma pres_visit node : pres (visit node).
Proof.
  induction node as
    [ statements IH | statements IH | name isConstant init IH
    | operation l r IHl IHr | value | value | name
    | name parameters body IH | callee arguments IH
    | cond thenBlock elseBlock IHc IHt IHe | cond body IHc IHb
    | expression IH | value IH ] using Node_ind.
  - by apply pres_acceptEach.
  - by apply pres_acceptEach.
  - change (pres (visitVariableDeclaration visit name init)).
    unfold visitVariableDeclaration. destruct init; simpl in IH; [|pres].
    do 4 (apply pres_bind; [pres | intros]).
    apply pres_createAllocaAtStart_bind. intros slot. pres.
  - change (pres (visitBinaryOp visit operation l r)).
    unfold visitBinaryOp, generateBinaryOp. pres.
  - change (pres (visitNumber value)). unfold visitNumber. pres.
  - change (pres (visitString value)). unfold visitString. pres.
  - change (pres (visitIdentifier name)). unfold visitIdentifier. pres.
  - change (pres (visitFunction visit name parameters body)).
    pose proof (pres_acceptBlock visit body IH) as Hbody.
    intros g u g' H. unfold visitFunction in H.
    step H function g1 E1. step H entryBB g2 E2. step H u3 g3 E3.
    step H old g4 E4. injection E4 as <- <-.
    step H u5 g5 E5. destruct u5.
    step H u6 g6 E6. step H u7 g7 E7. step H isTerminated g8 E8.
    step H u9 g9 E9. destruct u.
    apply R_FunctionCreate in E1. apply R_BasicBlockCreate in E2.
    apply R_SetInsertPoint in E3. apply pres_bindArguments in E6.
    apply Hbody in E7. apply pres_terminated in E8.
    assert (R g8 g9) as E9'.
    { destruct (negb isTerminated);
        [by eapply pres_createRet | by eapply (pres_ret tt)]. }
    eapply R_trans; [exact E1|]. eapply R_trans; [exact E2|].
    eapply R_trans; [exact E3|]. eapply (R_scope g3 g5 g9 g' E5); [|exact H].
    eauto.
  - change (pres (visitCall visit callee arguments)).
    unfold visitCall.
    pose proof (λ argsV, pres_acceptArguments visit arguments argsV IH).
    pres.
  - change (pres (visitIf visit cond thenBlock elseBlock)).
    unfold visitIf.
    pose proof (pres_acceptBlock visit thenBlock IHt).
    pose proof (pres_acceptBlock visit elseBlock IHe). pres.
  - change (pres (visitWhile visit cond body)).
    unfold visitWhile. pose proof (pres_acceptBlock visit body IHb). pres.
  - change (pres (visitPrint visit expression)).
    unfold visitPrint. destruct expression; simpl in IH; pres.
  - change (pres (visitReturn visit value)).
    unfold visitReturn. destruct value; simpl in IH; pres.
Qed.

(** A statement of a list is visited between two generators that [R]
    relates to the first and to the last. *)
Lemma acceptEach_inside pre node post g g' :
  acceptEach visit (pre ++ node :: post) g = Done tt g' →
  ∃ g1 g2, R g g1 ∧ visit node g1 = Done tt g2 ∧ R g2 g'.
Proof.
  revert g. induction pre as [|first pre IH]; intros g H; simpl in H.
  - step H u g2 E. destruct u. exists g, g2. split; [done|]. split; [done|].
    eapply pres_acceptEach; [|exact H]. apply Forall_true, pres_visit.
  - step H u g0 E. destruct (IH _ H) as (g1 & g2 & H1 & Hnode & H2).
    exists g1, g2. split; [|done].
    eapply R_trans; [|exact H1]. by eapply pres_visit.
Qed.

Lemma pres_acceptBlock_visit block : pres (acceptBlock visit block).
Proof.
  apply pres_acceptBlock. destruct block as [statements|]; [|done].
  apply Forall_true, pres_visit.
Qed.

(** The same in the blocks of an If and of a While. *)
Lemma visitIf_then_inside cond pre node post elseBlock g g' :
  visit (IfNode cond (Some (pre ++ node :: post)) elseBlock) g = Done tt g' →
  ∃ g1 g2, R g g1 ∧ visit node g1 = Done tt g2 ∧ R g2 g'.
Proof.
  intros H.
  change (visitIf visit cond (Some (pre ++ node :: post)) elseBlock g
          = Done tt g') in H.
  unfold visitIf in H.
  step H u1 g1 E1. step H v g2 E2. step H c g3 E3. step H f g4 E4.
  step H thenBB g5 E5. step H elseBB g6 E6. step H mergeBB g7 E7.
  step H u8 g8 E8. step H u9 g9 E9. step H u10 g10 E10. destruct u10.
  apply acceptEach_inside in E10 as (ga & gb & Ha & Hnode & Hb).
  pose proof pres_acceptBlock_visit as Hblock.
  exists ga, gb. split; [|split; [done|]].
  - apply pres_visit in E1. apply pres_getCurrentValue in E2.
    apply pres_condition in E3. apply pres_insertBlockParent in E4.
    apply R_BasicBlockCreate in E5, E6, E7. apply pres_createCondBr in E8.
    apply R_SetInsertPoint in E9. eauto 12.
  - eapply R_trans; [exact Hb|].
    match type of H with
    | ?m _ = _ => assert (pres m) as Hrest by pres
    end.
    by eapply Hrest.
Qed.

Lemma visitIf_else_inside cond thenBlock pre node post g g' :
  visit (IfNode cond thenBlock (Some (pre ++ node :: post))) g = Done tt g' →
  ∃ g1 g2, R g g1 ∧ visit node g1 = Done tt g2 ∧ R g2 g'.
Proof.
  intros H.
  change (visitIf visit cond thenBlock (Some (pre ++ node :: post)) g
          = Done tt g') in H.
  unfold visitIf in H.
  step H u1 g1 E1. step H v g2 E2. step H c g3 E3. step H f g4 E4.
  step H thenBB g5 E5. step H elseBB g6 E6. step H mergeBB g7 E7.
  step H u8 g8 E8. step H u9 g9 E9. step H u10 g10 E10.
  step H t11 g11 E11. step H u12 g12 E12. step H u13 g13 E13.
  step H u14 g14 E14. step H u15 g15 E15. destruct u15.
  apply acceptEach_inside in E15 as (ga & gb & Ha & Hnode & Hb).
  pose proof pres_acceptBlock_visit as Hblock.
  exists ga, gb. split; [|split; [done|]].
  - apply pres_visit in E1. apply pres_getCurrentValue in E2.
    apply pres_condition in E3. apply pres_insertBlockParent in E4.
    apply R_BasicBlockCreate in E5, E6, E7. apply pres_createCondBr in E8.
    apply R_SetInsertPoint in E9, E14. apply Hblock in E10.
    apply pres_terminated in E11. apply R_insertInto in E13.
    assert (R g11 g12)
      by (destruct (negb t11);
            [by eapply pres_createBr | by eapply (pres_ret tt)]).
    eauto 20.
  - eapply R_trans; [exact Hb|].
    match type of H with
    | ?m _ = _ => assert (pres m) as Hrest by pres
    end.
    by eapply Hrest.
Qed.

Lemma visitWhile_inside cond pre node post g g' :
  visit (WhileNode cond (Some (pre ++ node :: post))) g = Done tt g' →
  ∃ g1 g2, R g g1 ∧ visit node g1 = Done tt g2 ∧ R g2 g'.
Proof.
  intros H.
  change (visitWhile visit cond (Some (pre ++ node :: post)) g
          = Done tt g') in H.
  unfold visitWhile in H.
  step H blocks g1 E1. destruct blocks as [[[f condBB] loopBB] afterBB].
  step H u2 g2 E2. step H v g3 E3. step H c g4 E4. step H u5 g5 E5.
  step H u6 g6 E6. step H u7 g7 E7. step H u8 g8 E8. destruct u8.
  apply acceptEach_inside in E8 as (ga & gb & Ha & Hnode & Hb).
  exists ga, gb. split; [|split; [done|]].
  - apply pres_enterLoop in E1. apply pres_visit in E2.
    apply pres_getCurrentValue in E3. apply pres_condition in E4.
    apply pres_createCondBr in E5. apply R_insertInto in E6.
    apply R_SetInsertPoint in E7. eauto 12.
  - eapply R_trans; [exact Hb|].
    match type of H with
    | ?m _ = _ => assert (pres m) as Hrest by pres
    end.
    by eapply Hrest.
Qed.

End Preserved.

(** *** The functions of the module, by name *)

(** The names of the functions of the module, in the order of their
    creation. *)
Definition names (g : t) : list string := fname <$> functions g.

Definition namesGrow (g g' : t) : Prop :=
  ∃ more, names g' = names g ++ more.

Lemma namesGrow_same g g' : functions g' = functions g → namesGrow g g'.
Proof. intros E. exists []. unfold names. by rewrite E, app_nil_r. Qed.

Lemma names_alter h f (fs : list Function) :
  (∀ fn, fname (h fn) = fname fn) → fname <$> alter h f fs = fname <$> fs.
Proof.
  intros Hh. rewrite (list_fmap_alter fname h id).
  - apply list_alter_id. done.
  - by apply Forall_forall.
Qed.

Lemma namesGrow_insertInto block function g u g' :
  insertInto block function g = Done u g' → namesGrow g g'.
Proof.
  unfold insertInto. destruct function as [f|]; [|done].
  intros [= <- <-]. exists []. unfold names. simpl.
  by rewrite names_alter, app_nil_r.
Qed.

Lemma getFunction_names name g :
  getFunction name g
  = if bool_decide (name = "") then None
    else fst <$> list_find (λ n, n = name) (names g).
Proof.
  unfold getFunction, names. destruct (bool_decide (name = "")); [done|].
  rewrite list_find_fmap.
  by destruct (list_find _ (functions g)) as [[i fn]|].
Qed.

Lemma namesGrow_getFunction g g' name f :
  namesGrow g g' → getFunction name g = Some f → getFunction name g' = Some f.
Proof.
  intros [more E]. rewrite !getFunction_names, E.
  destruct (bool_decide (name = "")); [done|].
  destruct (list_find _ (names g)) as [[i n]|] eqn:Hfind; [|done].
  by rewrite (list_find_app_l _ _ _ _ _ Hfind).
Qed.

(** *** The names bound to a slot *)

Definition staysBound (g g' : t) : Prop :=
  ∀ name, bound g name → bound g' name.

Lemma staysBound_same g g' :
  namedValues g' = namedValues g → staysBound g g'.
Proof. intros E name. unfold bound. by rewrite E. Qed.

Section Kept.
Context {naming : Naming}.

Lemma namesGrow_kept : Kept namesGrow.
Proof.
  split.
  - intros g. by apply namesGrow_same.
  - intros g1 g2 g3 [l1 E1] [l2 E2]. exists (l1 ++ l2).
    by rewrite E2, E1, app_assoc.
  - intros name ret arity g f g' [= <- <-]. eexists.
    unfold names. simpl. by rewrite fmap_app.
  - intros label function g b g'. unfold BasicBlockCreate.
    destruct function as [f|]; intros [= <- <-]; [|by apply namesGrow_same].
    exists []. unfold names. simpl. by rewrite names_alter, app_nil_r.
  - intros block function g u g'. apply namesGrow_insertInto.
  - intros block g u g' [= <- <-]. by apply namesGrow_same.
  - intros v g u g' [= <- <-]. by apply namesGrow_same.
  - intros line g u g' [= <- <-]. by apply namesGrow_same.
  - intros name g v g'. unfold namedValuesAt.
    destruct (namedValues g !! name); intros [= <- <-];
      by apply namesGrow_same.
  - intros name n ty g u g' [= <- <-]. by apply namesGrow_same.
  - intros place req g n g' [= <- <-]. by apply namesGrow_same.
  - intros g g1 g2 g3 [= <-] [more E] [= <-]. by exists more.
Qed.

Lemma namesGrow_visit node g g' :
  visit node g = Done tt g' → namesGrow g g'.
Proof. apply (pres_visit namesGrow namesGrow_kept). Qed.

Lemma staysBound_kept : Kept staysBound.
Proof.
  split.
  - intros g. by apply staysBound_same.
  - intros g1 g2 g3 H1 H2 name. auto.
  - intros name ret arity g f g' [= <- <-]. by apply staysBound_same.
  - intros label function g b g'. unfold BasicBlockCreate.
    destruct function as [f|]; intros [= <- <-]; by apply staysBound_same.
  - intros block function g u g'. unfold insertInto.
    destruct function as [f|]; [|done].
    intros [= <- <-]. by apply staysBound_same.
  - intros block g u g' [= <- <-]. by apply staysBound_same.
  - intros v g u g' [= <- <-]. by apply staysBound_same.
  - intros line g u g' [= <- <-]. by apply staysBound_same.
  - intros name g v g'. unfold namedValuesAt.
    destruct (namedValues g !! name) eqn:Hname; intros [= <- <-];
      [by apply staysBound_same|].
    intros name' (v & Hv & Hnull). exists v. split; [|done]. simpl.
    rewrite lookup_insert_ne; [done | congruence].
  - intros name n ty g u g' [= <- <-] name' (v & Hv & Hnull).
    unfold bound. simpl. destruct (decide (name = name')) as [->|].
    + rewrite lookup_insert_eq. by eexists.
    + rewrite lookup_insert_ne by done. by exists v.
  - intros place req g n g' [= <- <-]. by apply staysBound_same.
  - intros g g1 g2 g3 [= <-] _ [= <-]. by apply staysBound_same.
Qed.

Lemma staysBound_visit node g g' :
  visit node g = Done tt g' → staysBound g g'.
Proof. apply (pres_visit staysBound staysBound_kept). Qed.

Lemma declaration_binds name isConstant init g g' :
  visit (VariableDeclarationNode name isConstant (Some init)) g = Done tt g' →
  bound g' name.
Proof.
  intros H.
  change (visitVariableDeclaration visit name (Some init) g = Done tt g') in H.
  unfold visitVariableDeclaration in H.
  step H u1 g1 E1. step H v g2 E2. step H f g3 E3. step H entry g4 E4.
  step H alloca g5 E5. step H u6 g6 E6.
  unfold createAllocaAtStart in E5. step E5 n g7 E7. injection E5 as <- _.
  injection H as <-. eexists. simpl. by rewrite lookup_insert_eq.
Qed.

Lemma declares_split name block :
  declares name block = true →
  ∃ pre isConstant init post,
    block = pre ++ VariableDeclarationNode name isConstant (Some init) :: post.
Proof.
  intros (node & Hin & Hnode)%existsb_exists.
  apply in_split in Hin as (pre & post & ->).
  destruct node as [| |x c [init|]| | | | | | | | | |]; try done.
  apply bool_decide_eq_true in Hnode as ->. by eexists _, _, _, _.
Qed.

(** A variable declared in a block is bound when the visit of the
    statement around the block is over. *)
Lemma declared_stays_bound name block cond other g g' :
  declares name block = true →
  visit (IfNode cond (Some block) other) g = Done tt g'
  ∨ visit (IfNode cond other (Some block)) g = Done tt g'
  ∨ visit (WhileNode cond (Some block)) g = Done tt g'
  ∨ visit (BlockNode block) g = Done tt g' →
  bound g' name.
Proof.
  intros (pre & c & init & post & ->)%declares_split H.
  assert (∃ g1 g2,
            staysBound g g1
            ∧ visit (VariableDeclarationNode name c (Some init)) g1
              = Done tt g2
            ∧ staysBound g2 g') as (g1 & g2 & _ & Hdecl & Hrest).
  { destruct H as [H|[H|[H|H]]]; revert H.
    - apply (visitIf_then_inside staysBound staysBound_kept).
    - apply (visitIf_else_inside staysBound staysBound_kept).
    - apply (visitWhile_inside staysBound staysBound_kept).
    - apply (acceptEach_inside staysBound staysBound_kept). }
  by apply Hrest, (declaration_binds _ _ _ _ _ Hdecl).
Qed.

End Kept.
End GeneratorMore.


(** X11. A program that defines no function produces no code: when
    [generate] returns on it, the builder has no insertion block, the
    module has no basic block, and every instruction requested of the
    builder is in no block (a call of [printDouble] at top level is made
    and then lost). *)
Theorem no_function_no_code {naming : IR.Naming} (ast : Node) g :
  functionFree ast = true →
  CodeGenerator.generate ast = CodeGenerator.Done tt g →
  CodeGenerator.insertBlock g = None
  ∧ CodeGenerator.basicBlocks g = []
  ∧ forallb nowhere (CodeGenerator.emitted g) = true.
Proof. apply GeneratorMore.generate_floats. Qed.

(** On the program [print 1 plus 2]. *)
Lemma no_function_no_code_witness :
  CodeGenerator.insertBlock afterTopLevelPrint = None
  ∧ CodeGenerator.basicBlocks afterTopLevelPrint = []
  ∧ forallb nowhere (CodeGenerator.emitted afterTopLevelPrint) = true.
Proof.
  apply (no_function_no_code (naming := IR.namesAsAsked) topLevelPrint);
    [reflexivity | vm_compute; reflexivity].
Defined.

(** X12. A program that defines no function and comes to a variable
    declaration with an initial value, a string, an If or a While (at top
    level, in a block, as an operand, or as what is printed or returned)
    makes [generate] dereference a null pointer: these visits read the
    insertion block of the builder, and only the visit of a Function node
    sets one. *)
Theorem outside_a_function_generate_faults {naming : IR.Naming} (ast : Node) :
  functionFree ast = true → needsBlock ast = true →
  CodeGenerator.generate ast = CodeGenerator.Fault.
Proof. apply GeneratorMore.generate_never. Qed.

(** On the program [var x is 42  print x]. *)
Lemma outside_a_function_generate_faults_witness :
  CodeGenerator.generate (naming := IR.namesAsAsked) topLevelDeclaration
  = CodeGenerator.Fault.
Proof.
  apply (outside_a_function_generate_faults (naming := IR.namesAsAsked)
           topLevelDeclaration); reflexivity.
Defined.

(** X13. When the visit of a Function node returns, the builder is left
    inside the function, at a block that ends in a terminator: the
    insertion point of before the function is not put back, so what is
    generated next goes after that terminator. *)
Theorem function_visit_leaves_terminated_block {naming : IR.Naming}
    name parameters body g g' :
  CodeGenerator.visit (FunctionNode name parameters body) g
  = CodeGenerator.Done tt g' →
  ∃ b, CodeGenerator.insertBlock g' = Some b
       ∧ CodeGenerator.getTerminator g' b = true.
Proof. apply GeneratorMore.visitFunction_terminated. Qed.

(** On [function f(a) { var x is a  return x }]. *)
Lemma function_visit_leaves_terminated_block_witness :
  ∃ b, CodeGenerator.insertBlock afterFunctionWithLocal = Some b
       ∧ CodeGenerator.getTerminator afterFunctionWithLocal b = true.
Proof.
  apply (function_visit_leaves_terminated_block (naming := IR.namesAsAsked)
           "f" ["a"]
           (Some [ VariableDeclarationNode "x" false (Some (IdentifierNode "a"));
                   ReturnNode (Some (IdentifierNode "x")) ])
           afterUnknownVariable).
  vm_compute. reflexivity.
Defined.

(** X14. When the visit of an expression returns with a null
    [currentValue] (the generator has reported an unknown variable, an
    unknown function, a wrong number of arguments or a bad assignment),
    printing the expression, declaring a variable with it and branching on
    it dereference the null pointer. *)
Theorem null_value_is_dereferenced {naming : IR.Naming} expr g g1 :
  CodeGenerator.visit expr g = CodeGenerator.Done tt g1 →
  CodeGenerator.currentValue g1 = IR.Null →
  CodeGenerator.visit (PrintNode (Some expr)) g = CodeGenerator.Fault
  ∧ (∀ name isConstant,
       CodeGenerator.visit
         (VariableDeclarationNode name isConstant (Some expr)) g
       = CodeGenerator.Fault)
  ∧ (∀ thenBlock elseBlock,
       CodeGenerator.visit (IfNode expr thenBlock elseBlock) g
       = CodeGenerator.Fault).
Proof. apply GeneratorMore.null_value_faults. Qed.

(** On the unknown variable [y], inside the function [f]. *)
Lemma null_value_is_dereferenced_witness :
  CodeGenerator.visit (naming := IR.namesAsAsked)
    (PrintNode (Some (IdentifierNode "y"))) insideFunction
  = CodeGenerator.Fault
  ∧ (∀ name isConstant,
       CodeGenerator.visit (naming := IR.namesAsAsked)
         (VariableDeclarationNode name isConstant (Some (IdentifierNode "y")))
         insideFunction
       = CodeGenerator.Fault)
  ∧ (∀ thenBlock elseBlock,
       CodeGenerator.visit (naming := IR.namesAsAsked)
         (IfNode (IdentifierNode "y") thenBlock elseBlock) insideFunction
       = CodeGenerator.Fault).
Proof.
  exact (null_value_is_dereferenced (naming := IR.namesAsAsked)
           (IdentifierNode "y") insideFunction afterUnknownInside
           eq_refl eq_refl).
Defined.

(** X15. The first function of a name is the one the name stands for:
    whatever is visited, a name that [module->getFunction] resolved before
    the visit resolves to the same function after it.  A later definition
    under the same name never replaces it, so calls keep going to the
    first. *)
Theorem first_definition_wins {naming : IR.Naming} node g g' name f :
  CodeGenerator.visit node g = CodeGenerator.Done tt g' →
  CodeGenerator.getFunction name g = Some f →
  CodeGenerator.getFunction name g' = Some f.
Proof.
  intros H. apply GeneratorMore.namesGrow_getFunction.
  by eapply GeneratorMore.namesGrow_visit.
Qed.

(** On a second definition of [f], met inside [f]. *)
Lemma first_definition_wins_witness :
  CodeGenerator.getFunction "f" afterRedefinition = Some 2%nat.
Proof.
  apply (first_definition_wins (naming := IR.namesAsAsked)
           functionWithLocal insideFunction);
    vm_compute; reflexivity.
Defined.

(** X16. Outside the scope of a function there is no way back: a name
    bound to a slot before a visit is bound to a slot after it (the same
    or, after another declaration of the name, a new one).  With C9: the
    names declared in a function go when the function ends, all others
    stay. *)
Theorem bound_names_stay_bound {naming : IR.Naming} node g g' name :
  CodeGenerator.visit node g = CodeGenerator.Done tt g' →
  bound g name → bound g' name.
Proof. intros H. by apply (GeneratorMore.staysBound_visit node). Qed.

(** On [if x { print 1 }] and the parameter [x] of [f]. *)
Lemma bound_names_stay_bound_witness : bound afterIfOnNumber "x".
Proof.
  apply (bound_names_stay_bound (naming := IR.namesAsAsked)
           ifOnNumber insideFunction).
  - vm_compute. reflexivity.
  - exists (IR.Instruction 0 IR.PointerTy). split; reflexivity.
Defined.

(** X17. Blocks open no scope: once the visit of an If, of a While or of
    a Block is over, a variable declared in its then-block, else-block,
    body or statements is bound in the symbol table, whichever path the
    program takes when it runs. *)
Theorem blocks_open_no_scope {naming : IR.Naming}
    name block cond other g g' :
  declares name block = true →
  CodeGenerator.visit (IfNode cond (Some block) other) g
  = CodeGenerator.Done tt g'
  ∨ CodeGenerator.visit (IfNode cond other (Some block)) g
    = CodeGenerator.Done tt g'
  ∨ CodeGenerator.visit (WhileNode cond (Some block)) g
    = CodeGenerator.Done tt g'
  ∨ CodeGenerator.visit (BlockNode block) g = CodeGenerator.Done tt g' →
  bound g' name.
Proof. apply GeneratorMore.declared_stays_bound. Qed.

(** On [if x { var y is 1 }], inside [f]. *)
Lemma blocks_open_no_scope_witness : bound afterIfDeclaring "y".
Proof.
  apply (blocks_open_no_scope (naming := IR.namesAsAsked) "y"
           [VariableDeclarationNode "y" false (Some (NumberNode 1))]
           (IdentifierNode "x") None insideFunction);
    [reflexivity | left; vm_compute; reflexivity].
Defined.

(** ** Code generator: programs that compile *)

Module GeneratorProgress.
Import IR CodeGenerator GeneratorFacts GeneratorMore.
#[local] Open Scope nat_scope.

(** The block [b] is in the function [f], and [f] has an entry block. *)
Definition childOf (f b : nat) (g : t) : Prop :=
  basicBlocks g !! b ≫= parent = Some f.

Definition hasBlocks (f : nat) (g : t) : Prop :=
  ∃ fn, functions g !! f = Some fn ∧ blockList fn ≠ [].

(** The builder is inside a function that has its entry block, the print
    helpers are there, and the variables of [env] have their slots. *)
Definition inBlock (g : t) : Prop :=
  ∃ b f, insertBlock g = Some b ∧ childOf f b g ∧ hasBlocks f g.

Definition ready (env : list string) (g : t) : Prop :=
  inBlock g ∧ printsKnown g ∧ Forall (bound g) env.

(** The generator but for the requests, the current value and
    [std::cerr]. *)
Definition frame (g : t) :=
  (functions g, basicBlocks g, insertBlock g, namedValues g).

Lemma ready_frame env g g' : frame g' = frame g → ready env g → ready env g'.
Proof.
  intros [= Hf Hb Hi Hn] (Hin & Hp & Henv).
  unfold ready, inBlock, childOf, hasBlocks, printsKnown, bound,
    getFunction in *.
  by rewrite Hf, Hb, Hi, Hn.
Qed.

Lemma frame_insertBlock g g' :
  frame g' = frame g → insertBlock g' = insertBlock g.
Proof. by intros [= _ _ ? _]. Qed.

Lemma frame_namedValues g g' :
  frame g' = frame g → namedValues g' = namedValues g.
Proof. by intros [= _ _ _ ?]. Qed.

(** Chains the equations between frames. *)
Ltac frames :=
  cbv beta in *;
  repeat match goal with
    | H : frame ?g' = frame _ |- context [frame ?g'] => rewrite H
    end;
  done.

(** [m] returns from [g], with a value and a generator that satisfy
    [Q]. *)
Definition returns {A} (m : G A) (g : t) (Q : A → t → Prop) : Prop :=
  ∃ a g', m g = Done a g' ∧ Q a g'.

Lemma returns_ret {A} (a : A) g (Q : A → t → Prop) :
  Q a g → returns (mret a) g Q.
Proof. intros H. by exists a, g. Qed.

Lemma returns_bind {A B} (m : G A) (k : A → G B) g Q' (Q : B → t → Prop) :
  returns m g Q' →
  (∀ a g1, Q' a g1 → returns (k a) g1 Q) →
  returns (m ≫= k) g Q.
Proof.
  intros (a & g1 & E & HQ') Hk.
  destruct (Hk a g1 HQ') as (b & g' & E' & HQ).
  exists b, g'. split; [|done]. unfold mbind, G_bind. by rewrite E.
Qed.

Lemma returns_mono {A} (m : G A) g Q' (Q : A → t → Prop) :
  returns m g Q' → (∀ a g1, Q' a g1 → Q a g1) → returns m g Q.
Proof. intros (a & g1 & E & HQ') H. exists a, g1. auto. Qed.

(** The steps of the generator that return whenever the builder has an
    insertion block and their operands are not null. *)
Definition value (g : t) (v : Value) (g' : t) : Prop :=
  frame g' = frame g ∧ isNull v = false.

Lemma getCurrentValue_returns g :
  returns getCurrentValue g (λ v g', v = currentValue g ∧ g' = g).
Proof. by eexists _, _. Qed.

Lemma setCurrentValue_returns v g :
  returns (setCurrentValue v) g
    (λ _ g', frame g' = frame g ∧ currentValue g' = v).
Proof. by eexists _, _. Qed.

Lemma typeOf_returns v g :
  isNull v = false → returns (typeOf v) g (λ _ g', g' = g).
Proof. intros H. destruct v; try done; by eexists _, _. Qed.

Lemma needInsertBlock_returns g b :
  insertBlock g = Some b → returns needInsertBlock g (λ _ g', g' = g).
Proof. intros H. exists b, g. unfold needInsertBlock. by rewrite H. Qed.

Lemma Insert_returns req ty g : returns (Insert req ty) g (value g).
Proof. by eexists _, _. Qed.

Lemma Fold_returns req ty g : returns (Fold req ty) g (value g).
Proof. by eexists _, _. Qed.

Lemma createArithmetic_returns req l r g :
  isNull l = false → returns (createArithmetic req l r) g (value g).
Proof.
  intros Hl. unfold createArithmetic.
  eapply returns_bind; [by apply typeOf_returns|]. intros ty g1 ->.
  destruct (_ && _); [apply Fold_returns | apply Insert_returns].
Qed.

Lemma createCompare_returns req l r g :
  isNull l = false → returns (createCompare req l r) g (value g).
Proof.
  intros Hl. unfold createCompare.
  eapply returns_bind; [by apply typeOf_returns|]. intros ty g1 ->.
  destruct (_ && _); [apply Fold_returns | apply Insert_returns].
Qed.

Lemma createStore_returns val ptr g b :
  insertBlock g = Some b → isNull val = false →
  returns (createStore val ptr) g (λ _ g', frame g' = frame g).
Proof.
  intros Hb Hval. unfold createStore.
  eapply returns_bind; [by eapply needInsertBlock_returns|]. intros ? g1 ->.
  eapply returns_bind; [by apply typeOf_returns|]. intros ty g1 ->.
  eapply returns_bind; [apply Insert_returns|]. intros v g1 [Hfr _].
  by apply returns_ret.
Qed.

Lemma createLoad_returns ptr name g b :
  insertBlock g = Some b → returns (createLoad ptr name) g (value g).
Proof.
  intros Hb. unfold createLoad.
  eapply returns_bind; [by eapply needInsertBlock_returns|]. intros ? g1 ->.
  apply Insert_returns.
Qed.

Lemma createAlloca_returns name g b :
  insertBlock g = Some b →
  returns (createAlloca name) g
    (λ v g', frame g' = frame g ∧ ∃ n, v = Instruction n PointerTy).
Proof.
  intros Hb. unfold createAlloca.
  eapply returns_bind; [by eapply needInsertBlock_returns|]. intros ? g1 ->.
  eexists _, _. split; [done|]. split; [done | by eexists].
Qed.

Lemma createGlobalStringPtr_returns str name g b :
  insertBlock g = Some b →
  returns (createGlobalStringPtr str name) g (value g).
Proof.
  intros Hb. unfold createGlobalStringPtr.
  eapply returns_bind; [by eapply needInsertBlock_returns|]. intros ? g1 ->.
  by eexists _, _.
Qed.

Lemma createBr_returns dest g :
  returns (createBr dest) g (λ _ g', frame g' = frame g).
Proof. by eexists _, _. Qed.

Lemma createCondBr_returns cond ifTrue ifFalse g :
  returns (createCondBr cond ifTrue ifFalse) g (λ _ g', frame g' = frame g).
Proof. by eexists _, _. Qed.

Lemma createRet_returns v g :
  returns (createRet v) g (λ _ g', frame g' = frame g).
Proof. by eexists _, _. Qed.

Lemma getFunction_lookup name g f :
  getFunction name g = Some f → is_Some (functions g !! f).
Proof.
  unfold getFunction. destruct (bool_decide _); [done|].
  destruct (list_find _ _) as [[i fn]|] eqn:E; [|done].
  intros [= <-]. apply list_find_Some in E as [E _]. by eexists.
Qed.

Lemma createCall_returns callee args name g :
  is_Some (functions g !! callee) →
  returns (createCall (Some callee) args name) g
    (λ _ g', frame g' = frame g).
Proof.
  intros [fn Hfn]. eexists _, _.
  split; [unfold createCall; rewrite Hfn; reflexivity | done].
Qed.

Lemma terminated_returns g b :
  insertBlock g = Some b → returns terminated g (λ _ g', g' = g).
Proof. intros H. eexists _, g. unfold terminated. by rewrite H. Qed.

Lemma ready_insertBlock env g : ready env g → is_Some (insertBlock g).
Proof. intros ((b & ? & Hb & _) & _). by eexists. Qed.

Lemma namedValuesAt_bound name g :
  bound g name →
  ∃ v, namedValuesAt name g = Done v g ∧ isNull v = false.
Proof.
  intros (v & Hv & Hnull). exists v. unfold namedValuesAt. by rewrite Hv.
Qed.

Section Progress.
Context {naming : Naming}.

(** An expression over variables that have their slots returns, with a
    value that is not null, and leaves the frame alone. *)
Lemma expression_returns env e g :
  usesOnly env e = true → ready env g →
  returns (visit e) g
    (λ _ g', frame g' = frame g ∧ isNull (currentValue g') = false).
Proof.
  revert g.
  induction e as
    [ statements IH | statements IH | name isConstant init IH
    | operation l r IHl IHr | q | str | name
    | name parameters body IH | callee arguments IH
    | cond thenBlock elseBlock IHc IHt IHe | cond body IHc IHb
    | expression IH | value IH ] using Node_ind;
    intros g Huses Hready; try done.
  - (* BinaryOpNode *)
    simpl in Huses.
    apply andb_true_iff in Huses as [[Hl Hr]%andb_true_iff Hassign].
    destruct (ready_insertBlock _ _ Hready) as [b Hb].
    change (visit (BinaryOpNode operation l r))
      with (visitBinaryOp visit operation l r).
    unfold visitBinaryOp, generateBinaryOp.
    eapply returns_bind with (Q' := value g).
    2:{ intros v g1 [Hfr Hv].
        eapply returns_mono; [apply setCurrentValue_returns|].
        intros _ g2 [Hfr2 ->]. split; [frames | done]. }
    eapply returns_bind; [by apply IHl|]. intros [] g1 [Hfr1 Hn1].
    eapply returns_bind; [apply getCurrentValue_returns|].
    intros left ? [-> ->].
    eapply returns_bind;
      [apply IHr; [done | by apply (ready_frame env g)]|].
    intros [] g2 [Hfr2 Hn2].
    eapply returns_bind; [apply getCurrentValue_returns|].
    intros right ? [-> ->].
    rewrite Hn1, Hn2. cbn [orb].
    assert (frame g2 = frame g) as Hfr by frames.
    assert (insertBlock g2 = Some b) as Hb2
      by (by rewrite (frame_insertBlock _ _ Hfr)).
    destruct operation.
    1-4: eapply returns_mono; [by apply createArithmetic_returns|];
         intros v g3 [Hfr3 Hv]; split; [frames | done].
    2-5: eapply returns_mono; [by apply createCompare_returns|];
         intros v g3 [Hfr3 Hv]; split; [frames | done].
    destruct l as [| | | | | |name| | | | | |]; try done.
    simpl in Hl. apply bool_decide_eq_true in Hl.
    destruct Hready as (_ & _ & Henv).
    pose proof (proj1 (Forall_forall _ _) Henv _ Hl) as Hbound.
    assert (bound g2 name) as Hbound2
      by (unfold bound; by rewrite (frame_namedValues _ _ Hfr)).
    destruct (namedValuesAt_bound _ _ Hbound2) as (v & Hv & Hnull).
    eapply returns_bind with (Q' := λ v' g', v' = v ∧ g' = g2);
      [by eexists _, _|].
    intros ? ? [-> ->]. rewrite Hnull.
    eapply returns_bind; [by eapply createStore_returns|]. intros [] g3 Hfr3.
    apply returns_ret. split; [frames | done].
  - (* NumberNode *)
    eexists _, _. by split.
  - (* StringNode *)
    destruct (ready_insertBlock _ _ Hready) as [b Hb].
    change (visit (StringNode str)) with (visitString str).
    unfold visitString.
    eapply returns_bind; [by eapply createGlobalStringPtr_returns|].
    intros v g1 [Hfr Hv].
    eapply returns_mono; [apply setCurrentValue_returns|].
    intros _ g2 [Hfr2 ->]. split; [frames | done].
  - (* IdentifierNode *)
    destruct (ready_insertBlock _ _ Hready) as [b Hb].
    simpl in Huses. apply bool_decide_eq_true in Huses.
    destruct Hready as (_ & _ & Henv).
    pose proof (proj1 (Forall_forall _ _) Henv _ Huses) as Hbound.
    destruct (namedValuesAt_bound _ _ Hbound) as (v & Hv & Hnull).
    change (visit (IdentifierNode name)) with (visitIdentifier name).
    unfold visitIdentifier.
    eapply returns_bind with (Q' := λ v' g', v' = v ∧ g' = g);
      [by eexists _, _|].
    intros ? ? [-> ->]. rewrite Hnull.
    eapply returns_bind; [by eapply createLoad_returns|].
    intros v' g1 [Hfr Hv'].
    eapply returns_mono; [apply setCurrentValue_returns|].
    intros _ g2 [Hfr2 ->]. split; [frames | done].
Qed.

(** *** The module only grows *)

Definition sizeGrows (g g' : t) : Prop :=
  length (functions g) ≤ length (functions g')
  ∧ length (basicBlocks g) ≤ length (basicBlocks g').

Lemma sizeGrows_kept : Kept sizeGrows.
Proof.
  split.
  - by intros g.
  - intros g1 g2 g3 [? ?] [? ?]. split; lia.
  - intros name ret arity g f g' [= <- <-]. split; simpl; [|done].
    rewrite length_app. lia.
  - intros label function g b g'. unfold BasicBlockCreate.
    destruct function as [f|]; intros [= <- <-]; split; simpl;
      rewrite ?length_alter, ?length_app; lia.
  - intros block function g u g'. unfold insertInto.
    destruct function as [f|]; [|done].
    intros [= <- <-]. split; simpl; by rewrite length_alter.
  - by intros block g u g' [= <- <-].
  - by intros v g u g' [= <- <-].
  - by intros line g u g' [= <- <-].
  - intros name g v g'. unfold namedValuesAt.
    by destruct (namedValues g !! name); intros [= <- <-].
  - by intros name n ty g u g' [= <- <-].
  - by intros place req g n g' [= <- <-].
  - intros g g1 g2 g3 [= <-] H [= <-]. done.
Qed.

(** The functions keep their names, the bound names their slots, and
    the functions and blocks their numbers. *)
Definition grown (g g' : t) : Prop :=
  namesGrow g g' ∧ staysBound g g' ∧ sizeGrows g g'.

Lemma grown_kept : Kept grown.
Proof.
  pose proof namesGrow_kept as [].
  pose proof staysBound_kept as [].
  pose proof sizeGrows_kept as [].
  split; unfold grown, preserves in *; by intuition eauto.
Qed.

Lemma grown_refl g : grown g g.
Proof. apply (kept_refl _ grown_kept). Qed.

Lemma grown_trans g1 g2 g3 : grown g1 g2 → grown g2 g3 → grown g1 g3.
Proof. apply (kept_trans _ grown_kept). Qed.

Lemma grown_frame g g' : frame g' = frame g → grown g g'.
Proof.
  intros [= Hf Hb Hi Hn]. split; [|split].
  - by apply namesGrow_same.
  - by apply staysBound_same.
  - unfold sizeGrows. by rewrite Hf, Hb.
Qed.

Lemma grown_printsKnown g g' : grown g g' → printsKnown g → printsKnown g'.
Proof.
  intros (Hnames & _) [[fd Hd] [fs Hs]].
  split; eexists; by eapply namesGrow_getFunction.
Qed.

Lemma grown_bound env g g' :
  grown g g' → Forall (bound g) env → Forall (bound g') env.
Proof. intros (_ & Hb & _) H. eapply Forall_impl; [exact H | exact Hb]. Qed.

Lemma returns_grown {A} (m : G A) g Q :
  preserves grown m → returns m g Q →
  returns m g (λ a g', Q a g' ∧ grown g g').
Proof. intros Hm (a & g' & E & HQ). exists a, g'. eauto. Qed.

(** *** Blocks *)

Lemma insertBlockParent_returns g b :
  insertBlock g = Some b →
  returns insertBlockParent g
    (λ p g', p = basicBlocks g !! b ≫= parent ∧ g' = g).
Proof. intros H. eexists _, g. unfold insertBlockParent. by rewrite H. Qed.

Lemma parent_returns f b g :
  insertBlock g = Some b → childOf f b g →
  returns insertBlockParent g (λ p g', p = Some f ∧ g' = g).
Proof.
  intros Hb Hchild. eexists _, g. unfold insertBlockParent. by rewrite Hb.
Qed.

Lemma SetInsertPoint_returns b g :
  returns (SetInsertPoint b) g
    (λ _ g', insertBlock g' = Some b ∧ functions g' = functions g
             ∧ basicBlocks g' = basicBlocks g ∧ grown g g').
Proof.
  eexists _, _. split; [done|]. do 3 (split; [done|]).
  by eapply (kept_SetInsertPoint _ grown_kept).
Qed.

Lemma childOf_alter f b bs :
  b < length bs →
  alter (λ blk, mkBasicBlock (label blk) (Some f)) b bs !! b ≫= parent
  = Some f.
Proof.
  intros Hb. rewrite list_lookup_alter_eq.
  destruct (lookup_lt_is_Some_2 bs b Hb) as [blk ->]. done.
Qed.

Lemma hasBlocks_alter f b fs :
  f < length fs →
  ∃ fn, alter (λ fn, mkFunction (fname fn) (returnType fn) (arg_size fn)
                       (blockList fn ++ [b])) f fs !! f = Some fn
        ∧ blockList fn ≠ [].
Proof.
  intros Hf. rewrite list_lookup_alter_eq.
  destruct (lookup_lt_is_Some_2 fs f Hf) as [fn ->]. eexists. split; [done|].
  simpl. by destruct (blockList fn).
Qed.

Lemma insertInto_returns block f g :
  block < length (basicBlocks g) → f < length (functions g) →
  returns (insertInto block (Some f)) g
    (λ _ g', childOf f block g' ∧ hasBlocks f g'
             ∧ insertBlock g' = insertBlock g ∧ grown g g').
Proof.
  intros Hb Hf. eexists _, _. split; [done|]. split; [|split; [|split]].
  - by apply childOf_alter.
  - by apply hasBlocks_alter.
  - done.
  - by eapply (kept_insertInto _ grown_kept block (Some f)).
Qed.

Lemma BasicBlockCreate_in label f g :
  f < length (functions g) →
  returns (BasicBlockCreate label (Some f)) g
    (λ block g', block < length (basicBlocks g')
                 ∧ childOf f block g' ∧ hasBlocks f g'
                 ∧ insertBlock g' = insertBlock g ∧ grown g g').
Proof.
  intros Hf. eexists _, _. split; [done|].
  split; [|split; [|split; [|split]]].
  - simpl. rewrite length_alter, length_app. simpl. lia.
  - apply childOf_alter. simpl. rewrite length_app. simpl. lia.
  - by apply hasBlocks_alter.
  - done.
  - by eapply (kept_BasicBlockCreate _ grown_kept label (Some f)).
Qed.

(** A block that is in no function yet leaves the others where they
    are. *)
Lemma BasicBlockCreate_out label g :
  returns (BasicBlockCreate label None) g
    (λ block g', block < length (basicBlocks g')
                 ∧ (∀ f b, childOf f b g → childOf f b g')
                 ∧ functions g' = functions g
                 ∧ insertBlock g' = insertBlock g ∧ grown g g').
Proof.
  eexists _, _. split; [done|].
  split; [|split; [|split; [|split]]]; try done.
  - simpl. rewrite length_app. simpl. lia.
  - intros f b. unfold childOf. simpl.
    destruct (basicBlocks g !! b) as [blk|] eqn:E; [|done].
    by rewrite (lookup_app_l_Some _ _ _ _ E).
  - by eapply (kept_BasicBlockCreate _ grown_kept label None).
Qed.

Lemma condition_returns v name g :
  isNull v = false →
  returns (condition v name) g (λ _ g', frame g' = frame g).
Proof.
  intros Hv. unfold condition.
  eapply returns_bind; [by apply typeOf_returns|]. intros ty ? ->.
  destruct (bool_decide _); [|by apply returns_ret].
  eapply returns_mono; [by apply createCompare_returns|].
  by intros c g1 [Hfr _].
Qed.

(** *** Statements *)

(** [scope] on the statements of a block, and on a block that may be
    missing. *)
Definition scopeEach (statements : list Node) (env : list string)
  : option (list string) :=
  fold_left (λ acc statement,
               match acc with
               | Some env => scope statement env
               | None => None
               end) statements (Some env).

Definition scopeBlock (block : option (list Node)) (env : list string)
  : option (list string) :=
  match block with
  | Some statements => scopeEach statements env
  | None => Some env
  end.

Lemma scope_BlockNode statements env :
  scope (BlockNode statements) env = scopeEach statements env.
Proof. reflexivity. Qed.

Lemma scope_IfNode cond thenBlock elseBlock env :
  scope (IfNode cond thenBlock elseBlock) env
  = if usesOnly env cond then
      match scopeBlock thenBlock env with
      | Some env1 => scopeBlock elseBlock env1
      | None => None
      end
    else None.
Proof. by destruct thenBlock, elseBlock. Qed.

Lemma scope_WhileNode cond body env :
  scope (WhileNode cond body) env
  = if usesOnly env cond then scopeBlock body env else None.
Proof. by destruct body. Qed.

Lemma scopeEach_cons statement rest env :
  scopeEach (statement :: rest) env
  = match scope statement env with
    | Some env1 => scopeEach rest env1
    | None => None
    end.
Proof.
  unfold scopeEach. simpl. destruct (scope statement env); [done|].
  by induction rest.
Qed.

(** The builder is at the block [b] of [f]; and what of the module the
    pending steps of a visit count on. *)
Definition within (f b : nat) (g : t) : Prop :=
  insertBlock g = Some b ∧ childOf f b g ∧ hasBlocks f g.

Definition placed (f b : nat) (g : t) : Prop :=
  childOf f b g ∧ hasBlocks f g.

Definition holds (env : list string) (f : nat) (pending : list nat) (g : t)
  : Prop :=
  printsKnown g ∧ Forall (bound g) env ∧ f < length (functions g)
  ∧ Forall (λ b, b < length (basicBlocks g)) pending.

Lemma holds_grown env f pending g g' :
  grown g g' → holds env f pending g → holds env f pending g'.
Proof.
  intros Hg (Hp & Hb & Hf & Hpending).
  split; [by eapply grown_printsKnown|].
  split; [by eapply grown_bound|].
  destruct Hg as (_ & _ & [Hfs Hbs]). split; [lia|].
  eapply Forall_impl; [exact Hpending|]. simpl. intros. lia.
Qed.

Lemma holds_more env f pending b g :
  holds env f pending g → b < length (basicBlocks g) →
  holds env f (b :: pending) g.
Proof.
  intros (? & ? & ? & ?) Hb. do 3 (split; [done|]). by apply Forall_cons_2.
Qed.

Lemma ready_holds env g :
  ready env g → ∃ f b, within f b g ∧ holds env f [] g.
Proof.
  intros ((b & f & Hb & Hchild & Hhas) & Hp & Henv). exists f, b.
  split; [done|]. do 2 (split; [done|]). split; [|constructor].
  destruct Hhas as (fn & Hfn & _). by eapply lookup_lt_Some.
Qed.

Lemma holds_ready env f b pending g :
  within f b g → holds env f pending g → ready env g.
Proof.
  intros (Hb & Hchild & Hhas) (Hp & Henv & _). split; [|done].
  by exists b, f.
Qed.

Lemma placed_frame f b g g' : frame g' = frame g → placed f b g → placed f b g'.
Proof.
  intros [= Hf Hb _ _]. unfold placed, childOf, hasBlocks.
  by rewrite Hf, Hb.
Qed.

Lemma getEntryBlock_returns f g :
  hasBlocks f g → returns (getEntryBlock (Some f)) g (λ _ g', g' = g).
Proof.
  intros (fn & Hfn & Hblocks).
  destruct (blockList fn) as [|entry rest] eqn:E; [done|].
  exists entry, g. split; [|done].
  unfold getEntryBlock. simpl. rewrite Hfn. simpl. by rewrite E.
Qed.

Lemma createAllocaAtStart_returns entry name g :
  returns (createAllocaAtStart entry name) g
    (λ v g', frame g' = frame g ∧ ∃ n, v = Instruction n PointerTy).
Proof. eexists _, _. split; [done|]. split; [done | by eexists]. Qed.

Lemma bindName_ready name n ty env g :
  ready env g →
  returns (bindName name (Instruction n ty)) g
    (λ _ g', ready (name :: env) g').
Proof.
  intros (Hin & Hp & Henv). eexists _, _. split; [done|].
  split; [done|]. split; [done|]. constructor.
  - eexists. simpl. by rewrite lookup_insert_eq.
  - eapply Forall_impl; [exact Henv|]. simpl.
    intros x (v & Hv & Hnull). unfold bound. simpl.
    destruct (decide (name = x)) as [->|].
    + rewrite lookup_insert_eq. by eexists.
    + rewrite lookup_insert_ne by done. by eexists.
Qed.

(** The tail of the visit of a block of an If or of a While: the branch
    that closes the block, then the next block put into the function and
    made the insertion block. *)
Lemma next_block_returns env f pending dest next g :
  ready env g → holds env f (next :: pending) g →
  returns (isTerminated ← terminated;
           (if negb isTerminated then createBr dest else mret tt);;
           insertInto next (Some f);;
           SetInsertPoint next) g
    (λ _ g', within f next g' ∧ holds env f pending g').
Proof.
  intros Hready Hholds.
  destruct (ready_insertBlock _ _ Hready) as [b Hb].
  eapply returns_bind; [by eapply terminated_returns|].
  intros isTerminated ? ->.
  eapply returns_bind with (Q' := λ _ g', frame g' = frame g).
  { destruct (negb isTerminated);
      [apply createBr_returns | by apply returns_ret]. }
  intros [] g1 Hfr1.
  apply (holds_grown _ _ _ _ _ (grown_frame _ _ Hfr1)) in Hholds.
  destruct Hholds as (Hp & Henv & Hf & Hpending).
  apply Forall_cons_1 in Hpending as [Hnext Hpending].
  eapply returns_bind; [by apply insertInto_returns|].
  intros [] g2 (Hchild & Hhas & Hi & Hg2).
  eapply returns_mono; [apply SetInsertPoint_returns|].
  intros [] g3 (Hi3 & Hf3 & Hb3 & Hg3). split.
  - split; [done|]. unfold childOf, hasBlocks in *. by rewrite Hf3, Hb3.
  - eapply holds_grown; [exact Hg3|]. eapply holds_grown; [exact Hg2|].
    by do 3 (split; [done|]).
Qed.

Lemma next_block_bind {B} env f pending dest next g (k : unit → G B) Q :
  ready env g → holds env f (next :: pending) g →
  (∀ g', within f next g' → holds env f pending g' → returns (k tt) g' Q) →
  returns (isTerminated ← terminated;
           (if negb isTerminated then createBr dest else mret tt);;
           insertInto next (Some f);;
           SetInsertPoint next ≫= k) g Q.
Proof.
  intros Hready Hholds Hk.
  destruct (ready_insertBlock _ _ Hready) as [b Hb].
  eapply returns_bind; [by eapply terminated_returns|].
  intros isTerminated ? ->.
  eapply returns_bind with (Q' := λ _ g', frame g' = frame g).
  { destruct (negb isTerminated);
      [apply createBr_returns | by apply returns_ret]. }
  intros [] g1 Hfr1.
  apply (holds_grown _ _ _ _ _ (grown_frame _ _ Hfr1)) in Hholds.
  destruct Hholds as (Hp & Henv & Hf & Hpending).
  apply Forall_cons_1 in Hpending as [Hnext Hpending].
  eapply returns_bind; [by apply insertInto_returns|].
  intros [] g2 (Hchild & Hhas & Hi & Hg2).
  eapply returns_bind; [apply SetInsertPoint_returns|].
  intros [] g3 (Hi3 & Hf3 & Hb3 & Hg3). apply Hk.
  - split; [done|]. unfold childOf, hasBlocks in *. by rewrite Hf3, Hb3.
  - eapply holds_grown; [exact Hg3|]. eapply holds_grown; [exact Hg2|].
    by do 3 (split; [done|]).
Qed.

Lemma enterLoop_returns env g :
  ready env g →
  returns enterLoop g
    (λ '(function, condBB, loopBB, afterBB) g',
       ∃ f, function = Some f ∧ within f condBB g'
            ∧ holds env f [loopBB; afterBB] g').
Proof.
  intros Hready.
  destruct (ready_holds _ _ Hready) as (f & b & (Hb & Hchild & Hhas) & Hholds).
  unfold enterLoop.
  eapply returns_bind; [by eapply parent_returns|].
  intros function ? [-> ->].
  eapply returns_bind; [apply BasicBlockCreate_in, Hholds|].
  intros condBB g3 (Hlt3 & Hchild3 & Hhas3 & Hi3 & Hg3).
  apply (holds_grown _ _ _ _ _ Hg3) in Hholds.
  eapply returns_bind; [apply BasicBlockCreate_out|].
  intros loopBB g4 (Hlt4 & Hkeep4 & Hf4 & Hi4 & Hg4).
  apply (holds_grown _ _ _ _ _ Hg4) in Hholds.
  apply (holds_more _ _ _ loopBB) in Hholds; [|done].
  eapply returns_bind; [apply BasicBlockCreate_out|].
  intros afterBB g5 (Hlt5 & Hkeep5 & Hf5 & Hi5 & Hg5).
  apply (holds_grown _ _ _ _ _ Hg5) in Hholds.
  assert (holds env f [loopBB; afterBB] g5) as Hholds5.
  { destruct Hholds as (? & ? & ? & Hp). do 3 (split; [done|]).
    apply Forall_cons_1 in Hp as [? _]. by repeat constructor. }
  clear Hholds.
  assert (placed f condBB g5) as Hplaced5.
  { split; [by apply Hkeep5, Hkeep4|].
    unfold hasBlocks. by rewrite Hf5, Hf4. }
  eapply returns_bind; [apply createBr_returns|]. intros [] g6 Hfr6.
  apply (holds_grown _ _ _ _ _ (grown_frame _ _ Hfr6)) in Hholds5.
  apply (placed_frame _ _ _ _ Hfr6) in Hplaced5.
  eapply returns_bind; [apply SetInsertPoint_returns|].
  intros [] g7 (Hi7 & Hf7 & Hb7 & Hg7).
  apply (holds_grown _ _ _ _ _ Hg7) in Hholds5.
  apply returns_ret. exists f. split; [done|]. split; [|done].
  split; [done|]. destruct Hplaced5 as [? ?].
  unfold childOf, hasBlocks in *. by rewrite Hf7, Hb7.
Qed.

(** A statement in scope returns and leaves the generator ready for the
    next. *)
Definition proceeds (node : Node) : Prop :=
  ∀ env env' g, scope node env = Some env' → ready env g →
                returns (visit node) g (λ _ g', ready env' g').

Lemma acceptEach_proceeds statements :
  Forall proceeds statements →
  ∀ env env' g, scopeEach statements env = Some env' → ready env g →
                returns (acceptEach visit statements) g
                  (λ _ g', ready env' g').
Proof.
  induction 1 as [|statement rest Hs _ IH]; intros env env' g Hscope Hready.
  - injection Hscope as <-. by apply returns_ret.
  - rewrite scopeEach_cons in Hscope.
    destruct (scope statement env) as [env1|] eqn:E; [|done]. simpl.
    eapply returns_bind; [by eapply Hs|]. intros [] g1 Hready1.
    by eapply IH.
Qed.

Lemma acceptBlock_proceeds block :
  from_option (Forall proceeds) True block →
  ∀ env env' g, scopeBlock block env = Some env' → ready env g →
                returns (acceptBlock visit block) g
                  (λ _ g', ready env' g' ∧ grown g g').
Proof.
  intros IH env env' g Hscope Hready.
  apply returns_grown; [apply (pres_acceptBlock_visit grown grown_kept)|].
  destruct block as [statements|]; simpl in *.
  - by eapply acceptEach_proceeds.
  - injection Hscope as <-. by apply returns_ret.
Qed.

Lemma expression_proceeds env e g :
  usesOnly env e = true → ready env g →
  returns (visit e) g (λ _ g', ready env g').
Proof.
  intros Huses Hready.
  eapply returns_mono; [by eapply expression_returns|].
  intros [] g1 [Hfr _]. by eapply ready_frame.
Qed.

Lemma visit_proceeds node : proceeds node.
Proof.
  induction node as
    [ statements IH | statements IH | name isConstant init IH
    | operation l r IHl IHr | q | str | name
    | name parameters body IH | callee arguments IH
    | cond thenBlock elseBlock IHc IHt IHe | cond body IHc IHb
    | expression IH | value IH ] using Node_ind;
    intros env env' g Hscope Hready; try done.
  - (* BlockNode *)
    rewrite scope_BlockNode in Hscope. by eapply acceptEach_proceeds.
  - (* VariableDeclarationNode *)
    change (visit (VariableDeclarationNode name isConstant init))
      with (visitVariableDeclaration visit name init).
    destruct init as [init|]; simpl in Hscope;
      [|injection Hscope as <-; by apply returns_ret].
    destruct (usesOnly env init) eqn:Huses; [|done]. injection Hscope as <-.
    unfold visitVariableDeclaration.
    eapply returns_bind; [by eapply expression_returns|].
    intros [] g1 [Hfr1 Hn1].
    pose proof (ready_frame _ _ _ Hfr1 Hready) as Hready1.
    destruct Hready1 as ((b & f & Hb & Hchild & Hhas) & Hrest).
    eapply returns_bind; [apply getCurrentValue_returns|].
    intros v ? [-> ->].
    eapply returns_bind; [by eapply parent_returns|].
    intros function ? [-> ->].
    eapply returns_bind; [by apply getEntryBlock_returns|].
    intros entry ? ->.
    eapply returns_bind; [apply createAllocaAtStart_returns|].
    intros alloca g2 (Hfr2 & n & ->).
    eapply returns_bind.
    { eapply createStore_returns; [|done].
      by rewrite (frame_insertBlock _ _ Hfr2). }
    intros [] g3 Hfr3. apply bindName_ready.
    eapply ready_frame; [exact Hfr3|]. eapply ready_frame; [exact Hfr2|].
    split; [by exists b, f | done].
  - (* BinaryOpNode *)
    simpl in Hscope.
    destruct (usesOnly env (BinaryOpNode operation l r)) eqn:Huses;
      simpl in Huses; rewrite Huses in Hscope; [|done].
    injection Hscope as <-. by apply expression_proceeds.
  - (* NumberNode *)
    injection Hscope as <-. by apply expression_proceeds.
  - (* StringNode *)
    injection Hscope as <-. by apply expression_proceeds.
  - (* IdentifierNode *)
    simpl in Hscope. destruct (bool_decide (name ∈ env)) eqn:Huses; [|done].
    injection Hscope as <-. by apply expression_proceeds.
  - (* IfNode *)
    change (visit (IfNode cond thenBlock elseBlock))
      with (visitIf visit cond thenBlock elseBlock).
    rewrite scope_IfNode in Hscope.
    destruct (usesOnly env cond) eqn:Huses; [|done].
    destruct (scopeBlock thenBlock env) as [env1|] eqn:Hthen; [|done].
    unfold visitIf.
    eapply returns_bind; [by eapply expression_returns|].
    intros [] g1 [Hfr1 Hn1].
    eapply returns_bind; [apply getCurrentValue_returns|].
    intros v ? [-> ->].
    eapply returns_bind; [by apply condition_returns|]. intros c g2 Hfr2.
    assert (ready env g2) as Hready2
      by (eapply ready_frame; [exact Hfr2|]; by eapply ready_frame).
    destruct (ready_holds _ _ Hready2) as (f & b & (Hb & Hchild & Hhas) & Hholds).
    eapply returns_bind; [by eapply parent_returns|].
    intros function ? [-> ->].
    eapply returns_bind; [apply BasicBlockCreate_in, Hholds|].
    intros thenBB g3 (Hlt3 & Hchild3 & Hhas3 & Hi3 & Hg3).
    apply (holds_grown _ _ _ _ _ Hg3) in Hholds.
    eapply returns_bind; [apply BasicBlockCreate_out|].
    intros elseBB g4 (Hlt4 & Hkeep4 & Hf4 & Hi4 & Hg4).
    apply (holds_grown _ _ _ _ _ Hg4) in Hholds.
    apply (holds_more _ _ _ elseBB) in Hholds; [|done].
    eapply returns_bind; [apply BasicBlockCreate_out|].
    intros mergeBB g5 (Hlt5 & Hkeep5 & Hf5 & Hi5 & Hg5).
    apply (holds_grown _ _ _ _ _ Hg5) in Hholds.
    assert (holds env f [elseBB; mergeBB] g5) as Hholds5.
    { destruct Hholds as (? & ? & ? & Hp). do 3 (split; [done|]).
      apply Forall_cons_1 in Hp as [? _]. by repeat constructor. }
    clear Hholds.
    assert (placed f thenBB g5) as Hplaced5.
    { split; [by apply Hkeep5, Hkeep4|].
      unfold hasBlocks. by rewrite Hf5, Hf4. }
    eapply returns_bind; [apply createCondBr_returns|]. intros [] g6 Hfr6.
    apply (holds_grown _ _ _ _ _ (grown_frame _ _ Hfr6)) in Hholds5.
    apply (placed_frame _ _ _ _ Hfr6) in Hplaced5.
    eapply returns_bind; [apply SetInsertPoint_returns|].
    intros [] g7 (Hi7 & Hf7 & Hb7 & Hg7).
    apply (holds_grown _ _ _ _ _ Hg7) in Hholds5.
    assert (within f thenBB g7) as Hwithin7.
    { split; [done|]. destruct Hplaced5 as [? ?].
      unfold childOf, hasBlocks in *. by rewrite Hf7, Hb7. }
    eapply returns_bind;
      [eapply (acceptBlock_proceeds thenBlock IHt); [done|];
       by eapply holds_ready|].
    intros [] g8 [Hready8 Hg8].
    apply (holds_grown _ _ _ _ _ Hg8) in Hholds5.
    assert (holds env1 f [elseBB; mergeBB] g8) as Hholds8.
    { destruct Hholds5 as (? & ? & ? & ?), Hready8 as (? & ? & ?).
      by do 3 (split; [done|]). }
    clear Hholds5.
    eapply (next_block_bind env1 f [mergeBB]); [done | done |].
    intros g11 Hwithin11 Hholds11.
    assert (ready env1 g11) as Hready11 by (by eapply holds_ready).
    eapply returns_bind;
      [by eapply (acceptBlock_proceeds elseBlock IHe)|].
    intros [] g12 [Hready12 Hg12].
    apply (holds_grown _ _ _ _ _ Hg12) in Hholds11.
    assert (holds env' f [mergeBB] g12) as Hholds12.
    { destruct Hholds11 as (? & ? & ? & ?), Hready12 as (? & ? & ?).
      by do 3 (split; [done|]). }
    eapply returns_mono; [by eapply (next_block_returns env' f [])|].
    intros [] g13 [Hwithin13 Hholds13]. by eapply holds_ready.
  - (* WhileNode *)
    change (visit (WhileNode cond body)) with (visitWhile visit cond body).
    rewrite scope_WhileNode in Hscope.
    destruct (usesOnly env cond) eqn:Huses; [|done].
    unfold visitWhile.
    eapply returns_bind; [by apply (enterLoop_returns env)|].
    intros [[[function condBB] loopBB] afterBB] g0
      (f & -> & Hwithin0 & Hholds0).
    assert (ready env g0) as Hready0 by (by eapply holds_ready).
    eapply returns_bind; [by eapply expression_returns|].
    intros [] g1 [Hfr1 Hn1].
    eapply returns_bind; [apply getCurrentValue_returns|].
    intros v ? [-> ->].
    eapply returns_bind; [by apply condition_returns|]. intros c g2 Hfr2.
    eapply returns_bind; [apply createCondBr_returns|]. intros [] g3 Hfr3.
    assert (frame g3 = frame g0) as Hfr by frames.
    apply (holds_grown _ _ _ _ _ (grown_frame _ _ Hfr)) in Hholds0.
    destruct Hholds0 as (Hp & Henv & Hf & Hpending).
    apply Forall_cons_1 in Hpending as [Hloop Hpending].
    eapply returns_bind; [by apply insertInto_returns|].
    intros [] g4 (Hchild4 & Hhas4 & Hi4 & Hg4).
    eapply returns_bind; [apply SetInsertPoint_returns|].
    intros [] g5 (Hi5 & Hf5 & Hb5 & Hg5).
    assert (holds env f [afterBB] g5) as Hholds5.
    { eapply holds_grown; [exact Hg5|]. eapply holds_grown; [exact Hg4|].
      by do 3 (split; [done|]). }
    assert (within f loopBB g5) as Hwithin5.
    { split; [done|]. unfold childOf, hasBlocks in *. by rewrite Hf5, Hb5. }
    eapply returns_bind;
      [eapply (acceptBlock_proceeds body IHb); [done|];
       by eapply holds_ready|].
    intros [] g6 [Hready6 Hg6].
    apply (holds_grown _ _ _ _ _ Hg6) in Hholds5.
    assert (holds env' f [afterBB] g6) as Hholds6.
    { destruct Hholds5 as (? & ? & ? & ?), Hready6 as (? & ? & ?).
      by do 3 (split; [done|]). }
    eapply returns_mono; [by eapply (next_block_returns env' f [])|].
    intros [] g7 [Hwithin7 Hholds7]. by eapply holds_ready.
  - (* PrintNode *)
    change (visit (PrintNode expression)) with (visitPrint visit expression).
    destruct expression as [e|]; simpl in Hscope;
      [|injection Hscope as <-; by apply returns_ret].
    destruct (usesOnly env e) eqn:Huses; [|done]. injection Hscope as <-.
    unfold visitPrint.
    eapply returns_bind; [by eapply expression_returns|].
    intros [] g1 [Hfr1 Hn1].
    pose proof (ready_frame _ _ _ Hfr1 Hready) as Hready1.
    eapply returns_bind; [apply getCurrentValue_returns|].
    intros v ? [-> ->].
    eapply returns_bind; [by apply typeOf_returns|]. intros ty ? ->.
    destruct Hready1 as (Hin & [[fd Hd] [fs Hs]] & Henv).
    eapply returns_bind
      with (Q' := λ p g', g' = g1 ∧ ∃ fp, p = Some fp
                                         ∧ is_Some (functions g1 !! fp)).
    { eexists _, _. split; [done|]. split; [done|].
      destruct (bool_decide (ty = PointerTy)); eexists;
        eauto using getFunction_lookup. }
    intros ? ? (-> & fp & -> & Hfp).
    eapply returns_bind; [by apply createCall_returns|].
    intros c g2 Hfr2. apply returns_ret.
    eapply ready_frame; [exact Hfr2|]. by split; [|split; [split|]]; eauto.
  - (* ReturnNode *)
    change (visit (ReturnNode value)) with (visitReturn visit value).
    destruct value as [e|]; simpl in Hscope.
    + destruct (usesOnly env e) eqn:Huses; [|done]. injection Hscope as <-.
      unfold visitReturn.
      eapply returns_bind; [by eapply expression_returns|].
      intros [] g1 [Hfr1 Hn1].
      eapply returns_bind; [apply getCurrentValue_returns|].
      intros v ? [-> ->].
      eapply returns_mono; [apply createRet_returns|].
      intros [] g2 Hfr2.
      eapply ready_frame; [exact Hfr2|]. by eapply ready_frame.
    + injection Hscope as <-.
      eapply returns_mono; [apply createRet_returns|].
      intros [] g2 Hfr2. by eapply ready_frame.
Qed.

(** *** Functions and programs *)

Lemma ready_more env names g :
  ready env g → Forall (bound g) names → ready (names ++ env) g.
Proof.
  intros (Hin & Hp & Henv) Hnames. split; [done|]. split; [done|].
  by apply Forall_app.
Qed.

Lemma bindArguments_returns f parameters given idx env g :
  ready env g →
  returns (bindArguments f parameters given idx) g
    (λ _ g', ready (((λ i, default "" (given !! i))
                       <$> seq idx (length parameters)) ++ env) g').
Proof.
  revert idx env g.
  induction parameters as [|parameter rest IH]; intros idx env g Hready; simpl.
  - by apply returns_ret.
  - destruct (ready_insertBlock _ _ Hready) as [b Hb].
    eapply returns_bind; [by eapply createAlloca_returns|].
    intros alloca g1 (Hfr1 & n & ->).
    eapply returns_bind.
    { eapply createStore_returns; [|done].
      by rewrite (frame_insertBlock _ _ Hfr1). }
    intros [] g2 Hfr2.
    eapply returns_bind.
    { apply bindName_ready. eapply ready_frame; [exact Hfr2|].
      by eapply ready_frame. }
    intros [] g3 Hready3.
    eapply returns_mono; [by apply IH|].
    intros [] g4 (Hin & Hp & Henv). split; [done|]. split; [done|].
    apply Forall_app in Henv as [Hrest Henv].
    apply Forall_cons_1 in Henv as [Hname Henv].
    apply Forall_cons_2; [done|]. by apply Forall_app.
Qed.

(** A function whose body is in scope of its parameters returns. *)
Lemma visitFunction_returns name parameters body g :
  wellScoped (FunctionNode name parameters body) = true → printsKnown g →
  returns (visit (FunctionNode name parameters body)) g
    (λ _ g', printsKnown g').
Proof.
  intros Hscoped Hprints. destruct body as [body|]; [|done].
  apply bool_decide_eq_true in Hscoped as [env' Hscope].
  rewrite scope_BlockNode in Hscope.
  change (visit (FunctionNode name parameters (Some body)))
    with (visitFunction visit name parameters (Some body)).
  unfold visitFunction.
  eapply returns_bind
    with (Q' := λ f g', f < length (functions g') ∧ grown g g').
  { eexists _, _. split; [done|]. split.
    - simpl. rewrite length_app. simpl. lia.
    - by eapply (kept_FunctionCreate _ grown_kept). }
  intros f g1 [Hf1 Hg1].
  eapply returns_bind; [by apply BasicBlockCreate_in|].
  intros entryBB g2 (Hlt2 & Hchild2 & Hhas2 & Hi2 & Hg2).
  eapply returns_bind; [apply SetInsertPoint_returns|].
  intros [] g3 (Hi3 & Hf3 & Hb3 & Hg3).
  assert (printsKnown g3) as Hprints3 by eauto using grown_printsKnown.
  assert (inBlock g3) as Hin3.
  { exists entryBB, f. split; [done|].
    unfold childOf, hasBlocks in *. by rewrite Hf3, Hb3. }
  eapply returns_bind
    with (Q' := λ old g', old = namedValues g3 ∧ g' = g3);
    [by eexists _, _|].
  intros ? ? [-> ->].
  eapply returns_bind with (Q' := λ _ g', ready [] g').
  { eexists _, _. split; [done|]. by split; [|split]. }
  intros [] g4 Hready4.
  eapply returns_bind; [by apply bindArguments_returns|].
  intros [] g5 Hready5. rewrite app_nil_r in Hready5.
  eapply returns_bind.
  { eapply (acceptEach_proceeds body); [|exact Hscope | exact Hready5].
    apply Forall_true, visit_proceeds. }
  intros [] g6 Hready6.
  destruct (ready_insertBlock _ _ Hready6) as [b Hb].
  eapply returns_bind; [by eapply terminated_returns|].
  intros isTerminated ? ->.
  eapply returns_bind with (Q' := λ _ g', frame g' = frame g6).
  { destruct (negb isTerminated);
      [apply createRet_returns | by apply returns_ret]. }
  intros [] g7 Hfr7. eexists _, _. split; [done|].
  apply (ready_frame _ _ _ Hfr7) in Hready6. by destruct Hready6 as (_ & ? & _).
Qed.

(** A program of such functions returns, when the two print helpers got
    the names they were created under. *)
Lemma generate_returns statements :
  functionName [] "printDouble" = "printDouble" →
  functionName ["printDouble"] "printString" = "printString" →
  forallb wellScoped statements = true →
  ∃ g, generate (ProgramNode statements) = Done tt g.
Proof.
  intros Hdouble Hstring Hall.
  cut (returns (declareStandardFunctions;; acceptEach visit statements)
         (mk [] [] None [] ∅ Null []) (λ _ g, printsKnown g)).
  { intros ([] & g & E & _). by exists g. }
  eapply returns_bind with (Q' := λ _ g, printsKnown g).
  { eexists _, _. split; [done|].
    unfold printsKnown, getFunction. simpl. rewrite Hdouble, Hstring.
    split; [exists 0 | exists 1]; vm_compute; reflexivity. }
  intros [] g0 Hprints. clear Hdouble Hstring. revert g0 Hprints.
  induction statements as [|statement rest IH]; intros g0 Hprints; simpl.
  - by apply returns_ret.
  - simpl in Hall. apply andb_true_iff in Hall as [Hs Hrest].
    destruct statement; try done.
    eapply returns_bind; [by apply visitFunction_returns|].
    intros [] g1 Hprints1. by apply IH.
Qed.

End Progress.
End GeneratorProgress.

(** X19. A program of function definitions compiles when every body is
    in scope: it never calls and never defines a function, every variable
    it reads or assigns is a parameter or was declared by an earlier
    statement (declarations in blocks count, see X17), and every
    assignment is to a variable.  Then [generate] returns: no visit
    dereferences a null pointer.  The two hypotheses on names say that
    LLVM gave the print helpers the names they were created under. *)
Theorem well_scoped_functions_compile {naming : IR.Naming}
    (statements : list Node) :
  IR.functionName [] "printDouble" = "printDouble" →
  IR.functionName ["printDouble"] "printString" = "printString" →
  forallb wellScoped statements = true →
  ∃ g, CodeGenerator.generate (ProgramNode statements)
       = CodeGenerator.Done tt g.
Proof. apply GeneratorProgress.generate_returns. Qed.

(** On [function f(a) { var x is a  return x }]. *)
Lemma well_scoped_functions_compile_witness :
  ∃ g, CodeGenerator.generate (naming := IR.namesAsAsked)
         (ProgramNode [functionWithLocal])
       = CodeGenerator.Done tt g.
Proof.
  apply (well_scoped_functions_compile (naming := IR.namesAsAsked)
           [functionWithLocal]); reflexivity.
Defined.
